(** * East Village Everything: places, tags and the tag hierarchy

    A shallow embedding of the model layer ([models/place.ts], the tag model
    with parent/child tags, [db.ts]) and of the edit-form transform of
    [routes/admin.ts], together with the properties the specification states
    about them. *)

From Stdlib Require Import ZArith Ascii String DecimalString Sorted Permutation Lia.
From stdpp Require Import base option list gmap sets strings.

Local Open Scope string_scope.
Local Open Scope list_scope.
Local Open Scope stdpp_scope.

(** * JavaScript strings and [String.prototype.replace] with a global regex

    A text is held as the bytes of its UTF-8 encoding, which is how it
    reaches the server and how PostgreSQL stores it.  The regexes of the
    models are written over characters that take one byte each (the
    newlines, the digits, the characters of a line-break marker), and such a
    byte never occurs inside the encoding of another character, so a scan
    of the bytes finds the matches that the scan of the code units finds.
    The one class with wider members is [\s]; its two-byte and three-byte
    members are matched as such. *)

Module JsString.

(** [s.replace(re, rep)] for a regex [re] with the [g] flag that never
    matches the empty string.  The regex is given by its matcher [m]: [m s]
    is [Some k] when [re] matches at the head of [s] and the match spans
    [k + 1] bytes.  The scan goes left to right; after a match it
    resumes behind the match ([pending] counts the bytes of the match
    still to be skipped). *)
Fixpoint replace_from (m : string -> option nat) (rep : string)
         (pending : nat) (s : string) : string :=
  match s with
  | EmptyString => EmptyString
  | String c rest =>
      match pending with
      | S k => replace_from m rep k rest
      | O =>
          match m s with
          | Some k => rep +:+ replace_from m rep k rest
          | None => String c (replace_from m rep 0 rest)
          end
      end
  end.

Definition replace_all (m : string -> option nat) (rep s : string) : string :=
  replace_from m rep 0 s.

Definition LF : ascii := "010"%char.
Definition CR : ascii := "013"%char.

(** [\d]: the ten ASCII digits. *)
Definition is_digit (c : ascii) : bool :=
  let n := nat_of_ascii c in (48 <=? n)%nat && (n <=? 57)%nat.

(** [\s]: the white space and the line terminators of ECMAScript.  Tab,
    line feed, vertical tab, form feed, carriage return and space take one
    byte. *)
Definition is_space (c : ascii) : bool :=
  let n := nat_of_ascii c in
  ((9 <=? n)%nat && (n <=? 13)%nat) || (n =? 32)%nat.

(** The no-break space U+00A0 takes the two bytes [C2 A0]. *)
Definition is_space2 (c0 c1 : ascii) : bool :=
  (N_of_ascii c0 =? 194)%N && (N_of_ascii c1 =? 160)%N.

(** The other white space takes three bytes: U+1680 is [E1 9A 80], U+2000
    to U+200A are [E2 80 80] to [E2 80 8A], the line and paragraph
    separators U+2028 and U+2029 are [E2 80 A8] and [E2 80 A9], U+202F is
    [E2 80 AF], U+205F is [E2 81 9F], U+3000 is [E3 80 80] and the byte
    order mark U+FEFF is [EF BB BF]. *)
Definition is_space3 (c0 c1 c2 : ascii) : bool :=
  let b0 := N_of_ascii c0 in
  let b1 := N_of_ascii c1 in
  let b2 := N_of_ascii c2 in
  ((b0 =? 225) && (b1 =? 154) && (b2 =? 128))%N
  || ((b0 =? 226) && (b1 =? 128)
      && (((128 <=? b2) && (b2 <=? 138)) || (b2 =? 168) || (b2 =? 169)
          || (b2 =? 175)))%N
  || ((b0 =? 226) && (b1 =? 129) && (b2 =? 159))%N
  || ((b0 =? 227) && (b1 =? 128) && (b2 =? 128))%N
  || ((b0 =? 239) && (b1 =? 187) && (b2 =? 191))%N.

(** [/\r?\n/] *)
Definition match_newline (s : string) : option nat :=
  match s with
  | String c rest =>
      if Ascii.eqb c LF then Some 0%nat
      else if Ascii.eqb c CR then
        match rest with
        | String d _ => if Ascii.eqb d LF then Some 1%nat else None
        | EmptyString => None
        end
      else None
  | EmptyString => None
  end.

(** [/\D/] *)
Definition match_nondigit (s : string) : option nat :=
  match s with
  | String c _ => if is_digit c then None else Some 0%nat
  | EmptyString => None
  end.

(** The tail [\s*\/?>] of the line-break regex; [Some n] when it matches
    [n] bytes.  [\s*] is greedy and neither [/] nor [>] is a space, so no
    backtracking changes the outcome. *)
Fixpoint br_tail (s : string) : option nat :=
  match s with
  | String c0 r0 =>
      if is_space c0 then S <$> br_tail r0
      else if Ascii.eqb c0 "/"%char then
        match r0 with
        | String d _ => if Ascii.eqb d ">"%char then Some 2%nat else None
        | EmptyString => None
        end
      else if Ascii.eqb c0 ">"%char then Some 1%nat
      else
        match r0 with
        | String c1 r1 =>
            if is_space2 c0 c1 then (fun n => (2 + n)%nat) <$> br_tail r1
            else
              match r1 with
              | String c2 r2 =>
                  if is_space3 c0 c1 c2
                  then (fun n => (3 + n)%nat) <$> br_tail r2
                  else None
              | EmptyString => None
              end
        | EmptyString => None
        end
  | EmptyString => None
  end.

(** [/<br\s*\/?>/i] *)
Definition match_br (s : string) : option nat :=
  match s with
  | String c0 (String c1 (String c2 rest)) =>
      if Ascii.eqb c0 "<"%char
         && (Ascii.eqb c1 "b"%char || Ascii.eqb c1 "B"%char)
         && (Ascii.eqb c2 "r"%char || Ascii.eqb c2 "R"%char)
      then (fun n => (2 + n)%nat) <$> br_tail rest
      else None
  | _ => None
  end.

(** Some suffix of [s] starts with a line-break marker. *)
Fixpoint has_br (s : string) : bool :=
  match s with
  | EmptyString => false
  | String _ rest => bool_decide (is_Some (match_br s)) || has_br rest
  end.

(** Some suffix of [s] starts with carriage return, line feed. *)
Fixpoint has_crlf (s : string) : bool :=
  match s with
  | EmptyString => false
  | String c rest =>
      bool_decide (match_newline s = Some 1%nat) || has_crlf rest
  end.

(** [s] with every carriage return that stands before a line feed dropped. *)
Fixpoint crlf_to_lf (s : string) : string :=
  match s with
  | EmptyString => EmptyString
  | String c rest =>
      if bool_decide (match_newline s = Some 1%nat) then crlf_to_lf rest
      else String c (crlf_to_lf rest)
  end.

(** The characters of [s] that are digits, in order. *)
Fixpoint keep_digits (s : string) : string :=
  match s with
  | EmptyString => EmptyString
  | String c rest =>
      if is_digit c then String c (keep_digits rest) else keep_digits rest
  end.

End JsString.

(** * Normalisation of place fields ([models/place.ts]) *)

(** [phone: string | undefined] is an [option string]; the stored column is
    [string | null]. *)
Definition normalizePhone (phone : option string) : option string :=
  match phone with
  | None => None
  | Some EmptyString => None
  | Some p =>
      let digits := JsString.replace_all JsString.match_nondigit "" p in
      if (String.length digits =? 10)%nat then Some digits else None
  end.

Definition toHtmlBreaks (text : option string) : option string :=
  match text with
  | None => None
  | Some EmptyString => None
  | Some t => Some (JsString.replace_all JsString.match_newline "<br/>" t)
  end.

(** [place.specials?.replace(/<br\s*\/?>/gi, '\n') || ''] of the edit form
    ([routes/admin.ts], [editablePlace]). *)
Definition editableText (stored : option string) : string :=
  match stored with
  | None => ""
  | Some s =>
      match JsString.replace_all JsString.match_br (String JsString.LF "") s with
      | EmptyString => ""
      | r => r
      end
  end.

(** JavaScript truthiness of a [string | null | undefined] value: [x || null]
    and [if (x)].  The empty string is falsy. *)
Definition or_null (x : option string) : option string :=
  match x with
  | Some EmptyString => None
  | _ => x
  end.

Definition truthy (x : option string) : bool :=
  bool_decide (is_Some (or_null x)).

(** * Data model *)

Module Tag.
Record t := mk {
  id : string;
  value : string;
  display : string;
  sort_order : Z;
  parent_tag_id : option string;
  has_children : bool;
  created_at : nat;
  updated_at : nat
}.

Definition with_has_children (b : bool) (x : t) : t :=
  mk (id x) (value x) (display x) (sort_order x) (parent_tag_id x) b
     (created_at x) (updated_at x).
End Tag.

#[global] Instance tag_eq_dec : EqDecision Tag.t.
Proof. solve_decision. Defined.

(** [TagInput]; [parent_tag_id?: string | null] is absent ([None]), [null]
    ([Some None]) or a string. *)
Module TagInput.
Record t := mk {
  value : string;
  display : string;
  sort_order : Z;
  parent_tag_id : option (option string)
}.
End TagInput.

(** [Partial<TagInput>] *)
Module TagPatch.
Record t := mk {
  value : option string;
  display : option string;
  sort_order : option Z;
  parent_tag_id : option (option string)
}.
End TagPatch.

Module TagWithChildren.
Record t := mk { tag : Tag.t; children : list Tag.t }.
End TagWithChildren.

Module StructuredTags.
Record t := mk { parents : list TagWithChildren.t; standalone : list Tag.t }.
End StructuredTags.

(** A row of the [places] table. *)
Module PlaceRow.
Record t := mk {
  id : string;
  name : string;
  address : option string;
  phone : option string;
  url : option string;
  specials : option string;
  categories : option string;
  notes : option string;
  created_at : nat;
  updated_at : nat
}.
End PlaceRow.

(** [Place]: a row together with its aggregated tag values. *)
Module Place.
Record t := mk { row : PlaceRow.t; tags : list string }.
End Place.

Module PlaceInput.
Record t := mk {
  name : string;
  address : option string;
  phone : option string;
  url : option string;
  specials : option string;
  categories : option string;
  notes : option string;
  tags : option (list string)
}.
End PlaceInput.

(** [Partial<PlaceInput>] *)
Module PlacePatch.
Record t := mk {
  name : option string;
  address : option string;
  phone : option string;
  url : option string;
  specials : option string;
  categories : option string;
  notes : option string;
  tags : option (list string)
}.
End PlacePatch.

(** * The relational store

    The tables and constraints are those of the two migrations (the initial
    schema and the one that adds [parent_tag_id] and [has_children]); the
    statements are the ones the models send, with the meaning PostgreSQL
    gives them.  Column lengths and the syntax of uuids are not modelled. *)

(** The three tables; a [place_tags] row is [(place_id, tag_id)]. *)
Record Database := mkDatabase {
  tbl_tags : list Tag.t;
  tbl_places : list PlaceRow.t;
  tbl_place_tags : list (string * string)
}.

Inductive error := StorageFailure | UniqueViolation | ForeignKeyViolation.

Inductive outcome (A : Type) :=
| Ok (a : A)
| Err (e : error).
Arguments Ok {A} a.
Arguments Err {A} e.

(** What the statements leave to the database server.

    [collate a b] is [a <= b] in the collation of the database.  [ORDER BY]
    on a text column sorts by it; it is chosen when the database is
    created, and neither the models nor the migrations name one.  Of a
    collation the properties below use that any two strings compare one
    way or the other.

    [agg_tie place a b] is the server's choice between two tags of one
    place whose [sort_order] is equal, in the place query that filters by
    a tag: [true] when [array_agg(... ORDER BY t.sort_order)] may list [a]
    before [b].  The order of such tags follows the plan of the query and
    no clause of the statement fixes it. *)
Class Server := {
  collate : string -> string -> bool;
  collate_total : forall a b, collate a b = true \/ collate b a = true;
  agg_tie : string -> Tag.t -> Tag.t -> bool
}.

(** [ORDER BY]: a stable insertion sort for a boolean order. *)
Section OrderBy.
Context {A : Type} (le : A -> A -> bool).

Fixpoint insert_sorted (x : A) (l : list A) : list A :=
  match l with
  | [] => [x]
  | y :: l' => if le x y then x :: l else y :: insert_sorted x l'
  end.

Fixpoint order_by (l : list A) : list A :=
  match l with
  | [] => []
  | x :: l' => insert_sorted x (order_by l')
  end.
End OrderBy.

Module Sql.

(** [uuid_generate_v4()]: the store draws ids from a seed; an id is never
    the empty string, and a draw that is already a key is refused by the
    primary key. *)
Definition uuid_generate_v4 (seed : nat) : string :=
  "uuid-" +:+ NilEmpty.string_of_uint (Nat.to_uint seed).

(** A statement reads the time ([NOW()]) and an id draw, and either fails
    with the table unchanged or yields the new tables and its result. *)
Definition statement (A : Type) : Type :=
  nat -> string -> Database -> outcome (Database * A).

Definition set_tags (ts : list Tag.t) (db : Database) : Database :=
  mkDatabase ts (tbl_places db) (tbl_place_tags db).
Definition set_places (ps : list PlaceRow.t) (db : Database) : Database :=
  mkDatabase (tbl_tags db) ps (tbl_place_tags db).
Definition set_place_tags (pts : list (string * string)) (db : Database) : Database :=
  mkDatabase (tbl_tags db) (tbl_places db) pts.

(** ** Constraints declared by the migrations *)

(** A foreign key: a reference that is not null is one of the keys [ids]. *)
Definition references (ids : list string) (ref : option string) : Prop :=
  forall p, ref = Some p -> p ∈ ids.

#[global] Instance references_dec ids ref : Decision (references ids ref).
Proof.
  destruct ref as [p|].
  - destruct (decide (p ∈ ids)) as [Hin|Hout].
    + left. intros q [= <-]. exact Hin.
    + right. intros H. apply Hout, H. reflexivity.
  - left. intros q [=].
Defined.

(** [tags]: primary key [id], [value] unique, [parent_tag_id] references
    [tags]; ids are uuids, never empty. *)
Definition tags_ok (ts : list Tag.t) : Prop :=
  NoDup (Tag.id <$> ts) /\
  NoDup (Tag.value <$> ts) /\
  Forall (fun t => Tag.id t <> "" /\
                   references (Tag.id <$> ts) (Tag.parent_tag_id t)) ts.

(** [places]: primary key [id]. *)
Definition places_ok (ps : list PlaceRow.t) : Prop :=
  NoDup (PlaceRow.id <$> ps) /\ Forall (fun p => PlaceRow.id p <> "") ps.

(** [place_tags]: primary key [(place_id, tag_id)], both columns foreign
    keys. *)
Definition place_tags_ok (db : Database) : Prop :=
  NoDup (tbl_place_tags db) /\
  Forall (fun pt => pt.1 ∈ PlaceRow.id <$> tbl_places db /\
                    pt.2 ∈ Tag.id <$> tbl_tags db) (tbl_place_tags db).

Definition db_ok (db : Database) : Prop :=
  tags_ok (tbl_tags db) /\ places_ok (tbl_places db) /\ place_tags_ok db.

#[global] Instance tags_ok_dec ts : Decision (tags_ok ts).
Proof. unfold tags_ok. apply _. Defined.
#[global] Instance places_ok_dec ps : Decision (places_ok ps).
Proof. unfold places_ok. apply _. Defined.
#[global] Instance place_tags_ok_dec db : Decision (place_tags_ok db).
Proof. unfold place_tags_ok. apply _. Defined.
#[global] Instance db_ok_dec db : Decision (db_ok db).
Proof. unfold db_ok. apply _. Defined.

(** ** Statements on [tags] *)

(** [SELECT ... FROM tags WHERE id = $1] *)
Definition select_tags_by_id (i : string) : statement (list Tag.t) :=
  fun _ _ db => Ok (db, filter (fun t => Tag.id t = i) (tbl_tags db)).

(** [SELECT ... FROM tags WHERE value = $1] *)
Definition select_tags_by_value (v : string) : statement (list Tag.t) :=
  fun _ _ db => Ok (db, filter (fun t => Tag.value t = v) (tbl_tags db)).

(** [SELECT * FROM tags] *)
Definition select_tags : statement (list Tag.t) :=
  fun _ _ db => Ok (db, tbl_tags db).

(** [ORDER BY sort_order ASC, value ASC]; the values compare in the
    collation of the database. *)
Definition tag_le {srv : Server} (a b : Tag.t) : bool :=
  (Tag.sort_order a <? Tag.sort_order b)%Z
  || ((Tag.sort_order a =? Tag.sort_order b)%Z
      && collate (Tag.value a) (Tag.value b)).

Definition select_tags_ordered {srv : Server} : statement (list Tag.t) :=
  fun _ _ db => Ok (db, order_by tag_le (tbl_tags db)).

(** [EXISTS(SELECT 1 FROM tags WHERE parent_tag_id = $1)] *)
Definition has_child (p : string) (ts : list Tag.t) : bool :=
  bool_decide (Exists (fun t => Tag.parent_tag_id t = Some p) ts).

(** [UPDATE tags SET has_children = EXISTS(...) WHERE id = $1] *)
Definition update_has_children (p : string) : statement unit :=
  fun _ _ db =>
    let flag := has_child p (tbl_tags db) in
    Ok (set_tags ((fun t => if decide (Tag.id t = p)
                            then Tag.with_has_children flag t else t)
                    <$> tbl_tags db) db, tt).

(** [INSERT INTO tags (value, display, sort_order, parent_tag_id) VALUES
    (...) RETURNING ...]; [id] and the timestamps take their defaults,
    [has_children] defaults to false. *)
Definition insert_tag (v d : string) (so : Z) (parent : option string)
  : statement (list Tag.t) :=
  fun now new_id db =>
    let row := Tag.mk new_id v d so parent false now now in
    if decide (new_id ∈ Tag.id <$> tbl_tags db) then Err UniqueViolation
    else if decide (v ∈ Tag.value <$> tbl_tags db) then Err UniqueViolation
    else if decide (references (Tag.id <$> (tbl_tags db ++ [row])) parent)
    then Ok (set_tags (tbl_tags db ++ [row]) db, [row])
    else Err ForeignKeyViolation.

(** The assignments of a [SET] clause on [tags]. *)
Inductive tag_assignment :=
| SetValue (v : string)
| SetDisplay (d : string)
| SetSortOrder (n : Z)
| SetParentTagId (p : option string)
| SetUpdatedAtNow.

Definition assign_tag (now : nat) (t : Tag.t) (a : tag_assignment) : Tag.t :=
  match a with
  | SetValue v =>
      Tag.mk (Tag.id t) v (Tag.display t) (Tag.sort_order t)
             (Tag.parent_tag_id t) (Tag.has_children t)
             (Tag.created_at t) (Tag.updated_at t)
  | SetDisplay d =>
      Tag.mk (Tag.id t) (Tag.value t) d (Tag.sort_order t)
             (Tag.parent_tag_id t) (Tag.has_children t)
             (Tag.created_at t) (Tag.updated_at t)
  | SetSortOrder n =>
      Tag.mk (Tag.id t) (Tag.value t) (Tag.display t) n
             (Tag.parent_tag_id t) (Tag.has_children t)
             (Tag.created_at t) (Tag.updated_at t)
  | SetParentTagId p =>
      Tag.mk (Tag.id t) (Tag.value t) (Tag.display t) (Tag.sort_order t)
             p (Tag.has_children t)
             (Tag.created_at t) (Tag.updated_at t)
  | SetUpdatedAtNow =>
      Tag.mk (Tag.id t) (Tag.value t) (Tag.display t) (Tag.sort_order t)
             (Tag.parent_tag_id t) (Tag.has_children t)
             (Tag.created_at t) now
  end.

(** [UPDATE tags SET ... WHERE id = $n RETURNING ...].  The updated rows
    must keep [value] unique and [parent_tag_id] a key of the table. *)
Definition update_tags (sets : list tag_assignment) (i : string)
  : statement (list Tag.t) :=
  fun now _ db =>
    let ts := (fun t => if decide (Tag.id t = i)
                        then foldl (assign_tag now) t sets else t)
                <$> tbl_tags db in
    let changed := filter (fun t => Tag.id t = i) ts in
    if decide (Forall (fun c =>
                 Forall (fun t => Tag.id t = i \/ Tag.value t <> Tag.value c) ts)
                 changed)
    then if decide (Forall (fun c =>
                      references (Tag.id <$> ts) (Tag.parent_tag_id c)) changed)
         then Ok (set_tags ts db, changed)
         else Err ForeignKeyViolation
    else Err UniqueViolation.

(** A row whose [parent_tag_id] is one of the ids [gone]. *)
Definition child_of (gone : list string) (t : Tag.t) : Prop :=
  match Tag.parent_tag_id t with
  | Some p => p ∈ gone
  | None => False
  end.

#[global] Instance child_of_dec gone t : Decision (child_of gone t).
Proof. unfold child_of. destruct (Tag.parent_tag_id t); apply _. Defined.

(** [ON DELETE CASCADE] on [parent_tag_id]: the rows that reference a
    deleted row are deleted, and so on; every round that deletes a row
    shortens the table, so [length ts] rounds are enough. *)
Fixpoint cascade (fuel : nat) (gone : list string) (ts : list Tag.t) : list Tag.t :=
  match fuel with
  | O => ts
  | S fuel' =>
      match filter (child_of gone) ts with
      | [] => ts
      | hit => cascade fuel' (Tag.id <$> hit)
                       (filter (fun t => ~ child_of gone t) ts)
      end
  end.

Definition delete_tag_rows (ids : list string) (ts : list Tag.t) : list Tag.t :=
  let keep := filter (fun t => Tag.id t ∉ ids) ts in
  cascade (length keep) (Tag.id <$> filter (fun t => Tag.id t ∈ ids) ts) keep.

(** [DELETE FROM tags WHERE id = ANY($1)] and its row count.  The
    [place_tags] rows of every deleted tag go with it ([ON DELETE CASCADE]
    on [tag_id]). *)
Definition delete_tags (ids : list string) : statement nat :=
  fun _ _ db =>
    let ts := delete_tag_rows ids (tbl_tags db) in
    let gone := filter (fun i => i ∉ Tag.id <$> ts) (Tag.id <$> tbl_tags db) in
    Ok (mkDatabase ts (tbl_places db)
                   (filter (fun pt => pt.2 ∉ gone) (tbl_place_tags db)),
        length (filter (fun t => Tag.id t ∈ ids) (tbl_tags db))).

(** ** Statements on [place_tags] *)

(** [DELETE FROM place_tags WHERE tag_id = $1] *)
Definition delete_place_tags_by_tag (i : string) : statement unit :=
  fun _ _ db =>
    Ok (set_place_tags (filter (fun pt => pt.2 <> i) (tbl_place_tags db)) db, tt).

(** [DELETE FROM place_tags WHERE place_id = $1] *)
Definition delete_place_tags_by_place (i : string) : statement unit :=
  fun _ _ db =>
    Ok (set_place_tags (filter (fun pt => pt.1 <> i) (tbl_place_tags db)) db, tt).

(** [INSERT INTO place_tags (place_id, tag_id) SELECT $1, id FROM tags WHERE
    value = ANY($2)] *)
Definition insert_place_tags (place_id : string) (tagValues : list string)
  : statement unit :=
  fun _ _ db =>
    let rows := (fun t => (place_id, Tag.id t))
                  <$> filter (fun t => Tag.value t ∈ tagValues) (tbl_tags db) in
    if decide (rows = [] \/ place_id ∈ PlaceRow.id <$> tbl_places db) then
      if decide (NoDup rows /\ Forall (fun r => r ∉ tbl_place_tags db) rows)
      then Ok (set_place_tags (tbl_place_tags db ++ rows) db, tt)
      else Err UniqueViolation
    else Err ForeignKeyViolation.

(** ** Statements on [places] *)

(** [INSERT INTO places (...) VALUES (...) RETURNING ...] *)
Definition insert_place (name : string)
           (address phone url specials categories notes : option string)
  : statement (list PlaceRow.t) :=
  fun now new_id db =>
    let row := PlaceRow.mk new_id name address phone url specials categories
                           notes now now in
    if decide (new_id ∈ PlaceRow.id <$> tbl_places db) then Err UniqueViolation
    else Ok (set_places (tbl_places db ++ [row]) db, [row]).

Inductive place_assignment :=
| SetName (v : string)
| SetAddress (v : option string)
| SetPhone (v : option string)
| SetUrl (v : option string)
| SetSpecials (v : option string)
| SetCategories (v : option string)
| SetNotes (v : option string)
| SetPlaceUpdatedAtNow.

Definition assign_place (now : nat) (p : PlaceRow.t) (a : place_assignment)
  : PlaceRow.t :=
  match a with
  | SetName v =>
      PlaceRow.mk (PlaceRow.id p) v (PlaceRow.address p) (PlaceRow.phone p)
        (PlaceRow.url p) (PlaceRow.specials p) (PlaceRow.categories p)
        (PlaceRow.notes p) (PlaceRow.created_at p) (PlaceRow.updated_at p)
  | SetAddress v =>
      PlaceRow.mk (PlaceRow.id p) (PlaceRow.name p) v (PlaceRow.phone p)
        (PlaceRow.url p) (PlaceRow.specials p) (PlaceRow.categories p)
        (PlaceRow.notes p) (PlaceRow.created_at p) (PlaceRow.updated_at p)
  | SetPhone v =>
      PlaceRow.mk (PlaceRow.id p) (PlaceRow.name p) (PlaceRow.address p) v
        (PlaceRow.url p) (PlaceRow.specials p) (PlaceRow.categories p)
        (PlaceRow.notes p) (PlaceRow.created_at p) (PlaceRow.updated_at p)
  | SetUrl v =>
      PlaceRow.mk (PlaceRow.id p) (PlaceRow.name p) (PlaceRow.address p)
        (PlaceRow.phone p) v (PlaceRow.specials p) (PlaceRow.categories p)
        (PlaceRow.notes p) (PlaceRow.created_at p) (PlaceRow.updated_at p)
  | SetSpecials v =>
      PlaceRow.mk (PlaceRow.id p) (PlaceRow.name p) (PlaceRow.address p)
        (PlaceRow.phone p) (PlaceRow.url p) v (PlaceRow.categories p)
        (PlaceRow.notes p) (PlaceRow.created_at p) (PlaceRow.updated_at p)
  | SetCategories v =>
      PlaceRow.mk (PlaceRow.id p) (PlaceRow.name p) (PlaceRow.address p)
        (PlaceRow.phone p) (PlaceRow.url p) (PlaceRow.specials p) v
        (PlaceRow.notes p) (PlaceRow.created_at p) (PlaceRow.updated_at p)
  | SetNotes v =>
      PlaceRow.mk (PlaceRow.id p) (PlaceRow.name p) (PlaceRow.address p)
        (PlaceRow.phone p) (PlaceRow.url p) (PlaceRow.specials p)
        (PlaceRow.categories p) v (PlaceRow.created_at p) (PlaceRow.updated_at p)
  | SetPlaceUpdatedAtNow =>
      PlaceRow.mk (PlaceRow.id p) (PlaceRow.name p) (PlaceRow.address p)
        (PlaceRow.phone p) (PlaceRow.url p) (PlaceRow.specials p)
        (PlaceRow.categories p) (PlaceRow.notes p) (PlaceRow.created_at p) now
  end.

(** [UPDATE places SET ... WHERE id = $n RETURNING id] *)
Definition update_places (sets : list place_assignment) (i : string)
  : statement (list string) :=
  fun now _ db =>
    let ps := (fun p => if decide (PlaceRow.id p = i)
                        then foldl (assign_place now) p sets else p)
                <$> tbl_places db in
    Ok (set_places ps db,
        PlaceRow.id <$> filter (fun p => PlaceRow.id p = i) ps).

(** [DELETE FROM places WHERE id = $1] and its row count; the [place_tags]
    rows of the place go with it. *)
Definition delete_places (i : string) : statement nat :=
  fun _ _ db =>
    Ok (mkDatabase (tbl_tags db)
                   (filter (fun p => PlaceRow.id p <> i) (tbl_places db))
                   (filter (fun pt => pt.1 ∉ PlaceRow.id
                              <$> filter (fun p => PlaceRow.id p = i) (tbl_places db))
                           (tbl_place_tags db)),
        length (filter (fun p => PlaceRow.id p = i) (tbl_places db))).

(** The [tags] rows joined to a place through [place_tags]. *)
Definition joined_tags (db : Database) (place_id : string) : list Tag.t :=
  tbl_place_tags db ≫= fun pt =>
    if decide (pt.1 = place_id)
    then filter (fun t => Tag.id t = pt.2) (tbl_tags db)
    else [].

Definition sort_order_le (a b : Tag.t) : bool :=
  (Tag.sort_order a <=? Tag.sort_order b)%Z.

(** [COALESCE(array_agg(t.value ORDER BY t.sort_order) FILTER (WHERE
    t.value IS NOT NULL), ARRAY[])] for the group of one place; [id] is the
    primary key, so [GROUP BY p.id] makes one group per row.  This is the
    aggregate of the query by id and of the unfiltered list, whose joins
    hand the tags of a place over in the order of its [place_tags] rows:
    tags of equal [sort_order] stay in that order. *)
Definition aggregate (db : Database) (p : PlaceRow.t) : Place.t :=
  Place.mk p (Tag.value <$> order_by sort_order_le (joined_tags db (PlaceRow.id p))).

(** [SELECT pt2.place_id FROM place_tags pt2 JOIN tags t2 ON pt2.tag_id =
    t2.id WHERE t2.value = $1] *)
Definition place_ids_tagged (v : string) (db : Database) : list string :=
  tbl_place_tags db ≫= fun pt =>
    (fun _ => pt.1)
      <$> filter (fun t => Tag.id t = pt.2 /\ Tag.value t = v) (tbl_tags db).

(** The same aggregate in the query that filters by a tag.  The [IN]
    sub-select gives that query another plan, and the join hands the tags
    of a place over in another order: the tags come in the order of their
    [sort_order], and among tags of equal [sort_order] in the order the
    server chooses ([agg_tie]). *)
Definition agg_le {srv : Server} (place_id : string) (a b : Tag.t) : bool :=
  (Tag.sort_order a <? Tag.sort_order b)%Z
  || ((Tag.sort_order a =? Tag.sort_order b)%Z && agg_tie place_id a b).

Definition aggregate_filtered {srv : Server} (db : Database) (p : PlaceRow.t)
  : Place.t :=
  Place.mk p (Tag.value <$> order_by (agg_le (PlaceRow.id p))
                                     (joined_tags db (PlaceRow.id p))).

(** [ORDER BY p.name ASC]; the names compare in the collation of the
    database. *)
Definition name_le {srv : Server} (a b : Place.t) : bool :=
  collate (PlaceRow.name (Place.row a)) (PlaceRow.name (Place.row b)).

(** The place query of [findAll]: with [Some v] the [WHERE p.id IN (...)]
    clause is present. *)
Definition select_places {srv : Server} (tag : option string)
  : statement (list Place.t) :=
  fun _ _ db =>
    let rows :=
      match tag with
      | Some v => filter (fun p => PlaceRow.id p ∈ place_ids_tagged v db)
                         (tbl_places db)
      | None => tbl_places db
      end in
    let record :=
      match tag with
      | Some _ => aggregate_filtered db
      | None => aggregate db
      end in
    Ok (db, order_by name_le (record <$> rows)).

(** The place query of [findById]. *)
Definition select_place_by_id (i : string) : statement (list Place.t) :=
  fun _ _ db =>
    Ok (db, aggregate db <$> filter (fun p => PlaceRow.id p = i) (tbl_places db)).

(** ** Further queries of the tag model *)

(** [SELECT ... FROM tags WHERE parent_tag_id IS NULL] and, when a tag is
    excluded, [AND id != $1 AND id NOT IN (SELECT id FROM tags WHERE
    parent_tag_id = $1)], then [ORDER BY sort_order ASC, value ASC]. *)
Definition select_potential_parents {srv : Server} (exclude : option string)
  : statement (list Tag.t) :=
  fun _ _ db =>
    let rows :=
      match exclude with
      | Some i =>
          filter (fun t => Tag.parent_tag_id t = None /\
                           Tag.id t <> i /\
                           Tag.id t ∉ Tag.id <$>
                             filter (fun c => Tag.parent_tag_id c = Some i)
                                    (tbl_tags db))
                 (tbl_tags db)
      | None => filter (fun t => Tag.parent_tag_id t = None) (tbl_tags db)
      end in
    Ok (db, order_by tag_le rows).

(** [SELECT p.id, p.name FROM places p JOIN place_tags pt ON p.id =
    pt.place_id WHERE pt.tag_id = $1 ORDER BY p.name ASC] *)
Definition select_places_by_tag_id {srv : Server} (tagId : string)
  : statement (list (string * string)) :=
  fun _ _ db =>
    let joined :=
      tbl_places db ≫= fun p =>
        (fun _ => (PlaceRow.id p, PlaceRow.name p))
          <$> filter (fun pt => pt.1 = PlaceRow.id p /\ pt.2 = tagId)
                     (tbl_place_tags db) in
    Ok (db, order_by (fun a b => collate a.2 b.2) joined).

End Sql.

(** * [db.ts]: the pool, statements and transactions *)

(** One request against the store.  [pool_db] holds the committed rows, which
    is what a statement sent through the pool reads and writes (each such
    statement commits on its own).  [client_db] holds the rows as the
    checked-out client sees them inside its transaction.  [faults] is the
    storage failures to come: one entry per statement sent, [true] when the
    store fails on it.  [clock] is the time and [uuid_seed] the id source. *)
Record Store := mkStore {
  pool_db : Database;
  client_db : Database;
  faults : list bool;
  clock : nat;
  uuid_seed : nat
}.

(** A computation either returns or throws, and leaves a store behind. *)
Definition M (A : Type) : Type := Store -> Store * outcome A.

Definition ret {A} (a : A) : M A := fun st => (st, Ok a).

Definition throw {A} (e : error) : M A := fun st => (st, Err e).

Definition bind {A B} (m : M A) (k : A -> M B) : M B :=
  fun st =>
    match m st with
    | (st', Ok a) => k a st'
    | (st', Err e) => (st', Err e)
    end.

Definition try_catch {A} (body : M A) (handler : error -> M A) : M A :=
  fun st =>
    match body st with
    | (st', Ok a) => (st', Ok a)
    | (st', Err e) => handler e st'
    end.

Notation "'let!' x ':=' m 'in' k" := (bind m (fun x => k))
  (at level 10, x name, m at level 100, k at level 200).

Fixpoint for_each {A} (l : list A) (body : A -> M unit) : M unit :=
  match l with
  | [] => ret tt
  | x :: l' => let! _ := body x in for_each l' body
  end.

Inductive conn := Pool | Client.

Definition view (c : conn) (st : Store) : Database :=
  match c with
  | Pool => pool_db st
  | Client => client_db st
  end.

Definition set_view (c : conn) (db : Database) (st : Store) : Store :=
  match c with
  | Pool => mkStore db (client_db st) (faults st) (clock st) (uuid_seed st)
  | Client => mkStore (pool_db st) db (faults st) (clock st) (uuid_seed st)
  end.

(** The store after a statement was sent: a fault entry is used up, time has
    passed and the id source has moved on. *)
Definition sent (st : Store) : Store :=
  mkStore (pool_db st) (client_db st) (tail (faults st)) (S (clock st))
          (S (uuid_seed st)).

Definition fails_next (st : Store) : bool :=
  match faults st with
  | true :: _ => true
  | _ => false
  end.

(** Send one statement on a connection. *)
Definition exec {A} (c : conn) (q : Sql.statement A) : M A :=
  fun st =>
    if fails_next st then (sent st, Err StorageFailure)
    else
      match q (clock st) (Sql.uuid_generate_v4 (uuid_seed st)) (view c st) with
      | Ok (db, a) => (set_view c db (sent st), Ok a)
      | Err e => (sent st, Err e)
      end.

(** [query]: a statement through the pool. *)
Definition query {A} (q : Sql.statement A) : M A := exec Pool q.

(** [client.query]: a statement on the transaction's client. *)
Definition client_query {A} (q : Sql.statement A) : M A := exec Client q.

(** [BEGIN]: the client's transaction starts from the committed rows. *)
Definition begin_tx : M unit :=
  fun st =>
    if fails_next st then (sent st, Err StorageFailure)
    else (set_view Client (pool_db st) (sent st), Ok tt).

(** [COMMIT]: the client's rows become the committed rows. *)
Definition commit_tx : M unit :=
  fun st =>
    if fails_next st then (sent st, Err StorageFailure)
    else (set_view Pool (client_db st) (sent st), Ok tt).

(** [ROLLBACK]: the client's changes are dropped; they are dropped too when
    the statement itself fails, as nothing was committed. *)
Definition rollback_tx : M unit :=
  fun st =>
    (set_view Client (pool_db st) (sent st),
     if fails_next st then Err StorageFailure else Ok tt).

Definition withTransaction {A} (callback : M A) : M A :=
  try_catch
    (let! _ := begin_tx in
     let! result := callback in
     let! _ := commit_tx in
     ret result)
    (fun e => let! _ := rollback_tx in throw e).

(** * The tag model *)

Module TagModel.

Definition findAll {srv : Server} : M (list Tag.t) :=
  query Sql.select_tags_ordered.

(** The [Map] from a parent id to its children, built by the loop over
    [childTags]. *)
Definition childrenByParent (childTags : list Tag.t) : gmap string (list Tag.t) :=
  foldl (fun (m : gmap string (list Tag.t)) child =>
           match Tag.parent_tag_id child with
           | Some parentId =>
               let m' := if decide (is_Some (m !! parentId)) then m
                         else <[parentId := []]> m in
               alter (fun l => l ++ [child]) parentId m'
           | None => m
           end)
        ∅ childTags.

(** The body of [findAllStructured] behind the query. *)
Definition structured (allTags : list Tag.t) : StructuredTags.t :=
  let parentTags := filter (fun t => Tag.has_children t = true) allTags in
  let childTags := filter (fun t => Tag.parent_tag_id t <> None) allTags in
  let standaloneTags :=
    filter (fun t => Tag.has_children t = false /\ Tag.parent_tag_id t = None)
           allTags in
  let byParent := childrenByParent childTags in
  let parents :=
    (fun parent => TagWithChildren.mk parent
                     (default [] (byParent !! Tag.id parent)))
      <$> parentTags in
  StructuredTags.mk parents standaloneTags.

Definition findAllStructured {srv : Server} : M StructuredTags.t :=
  let! allTags := findAll in
  ret (structured allTags).

Definition findById (id : string) : M (option Tag.t) :=
  let! rows := query (Sql.select_tags_by_id id) in
  ret (head rows).

Definition findByValue (value : string) : M (option Tag.t) :=
  let! rows := query (Sql.select_tags_by_value value) in
  ret (head rows).

Definition updateHasChildren (tagId : string) : M unit :=
  query (Sql.update_has_children tagId).

Definition create (data : TagInput.t) : M (option Tag.t) :=
  let! rows :=
    query (Sql.insert_tag (TagInput.value data) (TagInput.display data)
             (TagInput.sort_order data)
             (or_null (mjoin (TagInput.parent_tag_id data)))) in
  let! _ :=
    match or_null (mjoin (TagInput.parent_tag_id data)) with
    | Some parent => updateHasChildren parent
    | None => ret tt
    end in
  ret (head rows).

(** The [updates] and [params] arrays of [update], one assignment per
    supplied field, in the order of the source. *)
Definition updates_of (data : TagPatch.t) : list Sql.tag_assignment :=
  match TagPatch.value data with Some v => [Sql.SetValue v] | None => [] end
  ++ match TagPatch.display data with Some d => [Sql.SetDisplay d] | None => [] end
  ++ match TagPatch.sort_order data with Some n => [Sql.SetSortOrder n] | None => [] end
  ++ match TagPatch.parent_tag_id data with
     | Some p => [Sql.SetParentTagId (or_null p)]
     | None => []
     end.

Definition update (id : string) (data : TagPatch.t) : M (option Tag.t) :=
  let! oldTag := findById id in
  match oldTag with
  | None => ret None
  | Some oldTag =>
      let updates := updates_of data in
      if decide (length updates = 0%nat) then ret (Some oldTag)
      else
        let! rows := query (Sql.update_tags (updates ++ [Sql.SetUpdatedAtNow]) id) in
        let! _ :=
          match TagPatch.parent_tag_id data with
          | Some p =>
              let oldParentId := Tag.parent_tag_id oldTag in
              let newParentId := or_null p in
              if decide (oldParentId <> newParentId) then
                let! _ :=
                  match or_null oldParentId with
                  | Some o => updateHasChildren o
                  | None => ret tt
                  end in
                match newParentId with
                | Some n => updateHasChildren n
                | None => ret tt
                end
              else ret tt
          | None => ret tt
          end in
        ret (head rows)
  end.

Definition delete (id : string) : M bool :=
  let! tag := findById id in
  match tag with
  | None => ret false
  | Some tag =>
      let parentId := Tag.parent_tag_id tag in
      let! _ := query (Sql.delete_place_tags_by_tag id) in
      let! rowCount := query (Sql.delete_tags [id]) in
      let! _ :=
        match or_null parentId with
        | Some p => updateHasChildren p
        | None => ret tt
        end in
      ret (bool_decide (0 < rowCount)%nat)
  end.

Definition bulkSave {srv : Server} (tags : list TagInput.t) : M (list Tag.t) :=
  withTransaction
    (let! existing := client_query Sql.select_tags in
     let existingByValue : gmap string Tag.t :=
       foldl (fun m t => <[Tag.value t := t]> m) ∅ existing in
     let newValues : gset string := list_to_set (TagInput.value <$> tags) in
     let toDelete := filter (fun t => Tag.value t ∉ newValues) existing in
     let! _ :=
       if decide (0 < length toDelete)%nat
       then client_query (Sql.delete_tags (Tag.id <$> toDelete))
       else ret 0%nat in
     let! _ :=
       for_each tags (fun tag =>
         match existingByValue !! TagInput.value tag with
         | Some existing =>
             let! _ :=
               client_query
                 (Sql.update_tags [Sql.SetDisplay (TagInput.display tag);
                                   Sql.SetSortOrder (TagInput.sort_order tag);
                                   Sql.SetUpdatedAtNow]
                                  (Tag.id existing)) in
             ret tt
         | None =>
             let! _ :=
               client_query
                 (Sql.insert_tag (TagInput.value tag) (TagInput.display tag)
                    (TagInput.sort_order tag)
                    (or_null (mjoin (TagInput.parent_tag_id tag)))) in
             ret tt
         end) in
     client_query Sql.select_tags_ordered).

Definition findPlacesByTagId {srv : Server} (tagId : string)
  : M (list (string * string)) :=
  query (Sql.select_places_by_tag_id tagId).

(** [excludeTagId?: string]: the clause is added when it is truthy. *)
Definition getPotentialParents {srv : Server} (excludeTagId : option string)
  : M (list Tag.t) :=
  query (Sql.select_potential_parents (or_null excludeTagId)).

End TagModel.

(** * The place model *)

Module PlaceModel.

(** [options?.tag] is [None] when [options] or its [tag] is absent. *)
Definition findAll {srv : Server} (tag : option string) : M (list Place.t) :=
  query (Sql.select_places (or_null tag)).

Definition findById (id : string) : M (option Place.t) :=
  let! rows := query (Sql.select_place_by_id id) in
  ret (head rows).

Definition setTags (placeId : string) (tagValues : list string) : M unit :=
  let! _ := client_query (Sql.delete_place_tags_by_place placeId) in
  if decide (length tagValues = 0%nat) then ret tt
  else client_query (Sql.insert_place_tags placeId tagValues).

Definition create (data : PlaceInput.t) : M (option Place.t) :=
  withTransaction
    (let! rows :=
       client_query
         (Sql.insert_place (PlaceInput.name data)
            (or_null (PlaceInput.address data))
            (normalizePhone (PlaceInput.phone data))
            (or_null (PlaceInput.url data))
            (toHtmlBreaks (PlaceInput.specials data))
            (or_null (PlaceInput.categories data))
            (toHtmlBreaks (PlaceInput.notes data))) in
     match head rows with
     | None => ret None
     | Some place =>
         let! _ :=
           match PlaceInput.tags data with
           | Some (v :: vs) => setTags (PlaceRow.id place) (v :: vs)
           | _ => ret tt
           end in
         findById (PlaceRow.id place)
     end).

(** The [updates] and [params] arrays of [update]; the [updated_at]
    assignment is always last. *)
Definition updates_of (data : PlacePatch.t) : list Sql.place_assignment :=
  match PlacePatch.name data with Some v => [Sql.SetName v] | None => [] end
  ++ match PlacePatch.address data with
     | Some v => [Sql.SetAddress (or_null (Some v))] | None => [] end
  ++ match PlacePatch.phone data with
     | Some v => [Sql.SetPhone (normalizePhone (Some v))] | None => [] end
  ++ match PlacePatch.url data with
     | Some v => [Sql.SetUrl (or_null (Some v))] | None => [] end
  ++ match PlacePatch.specials data with
     | Some v => [Sql.SetSpecials (toHtmlBreaks (Some v))] | None => [] end
  ++ match PlacePatch.categories data with
     | Some v => [Sql.SetCategories (or_null (Some v))] | None => [] end
  ++ match PlacePatch.notes data with
     | Some v => [Sql.SetNotes (toHtmlBreaks (Some v))] | None => [] end
  ++ [Sql.SetPlaceUpdatedAtNow].

(** The part of [update] behind the [UPDATE] statement. *)
Definition update_tags_and_read (id : string) (data : PlacePatch.t)
  : M (option Place.t) :=
  let! _ :=
    match PlacePatch.tags data with
    | Some tagValues => setTags id tagValues
    | None => ret tt
    end in
  findById id.

Definition update (id : string) (data : PlacePatch.t) : M (option Place.t) :=
  withTransaction
    (let updates := updates_of data in
     if decide (1 < length updates)%nat then
       let! rows := client_query (Sql.update_places updates id) in
       if decide (length rows = 0%nat) then ret None
       else update_tags_and_read id data
     else update_tags_and_read id data).

Definition delete (id : string) : M bool :=
  let! rowCount := query (Sql.delete_places id) in
  ret (bool_decide (0 < rowCount)%nat).

End PlaceModel.

(** * The public home page ([routes/public.ts]) *)

Module FormattedPlace.
Record t := mk { place : Place.t; displayPhone : string; tagClasses : string }.
End FormattedPlace.

Module PublicRoutes.

(** [place.phone ? `(${p.substr(0,3)}) ${p.substr(3,3)}-${p.substr(6,4)}` : ''] *)
Definition displayPhone (phone : option string) : string :=
  match or_null phone with
  | Some p =>
      "(" +:+ substring 0 3 p +:+ ") " +:+ substring 3 3 p +:+ "-" +:+ substring 6 4 p
  | None => ""
  end.

(** The [Map] from the value of a child tag to the value of its parent,
    built by the two loops over [structuredTags.parents] and their children;
    a later [set] of the same key overwrites an earlier one. *)
Definition tagToParentValue (parents : list TagWithChildren.t) : gmap string string :=
  foldl (fun (m : gmap string string) parent =>
           foldl (fun (m : gmap string string) child =>
                    <[Tag.value child := Tag.value (TagWithChildren.tag parent)]> m)
                 m (TagWithChildren.children parent))
        ∅ parents.

(** The array [tagClasses] of one place: each tag value is pushed, and
    behind it the value of its parent when there is one, it is not the
    empty string and the array does not hold it yet. *)
Definition tagClasses (byChild : gmap string string) (tags : list string)
  : list string :=
  foldl (fun classes tagValue =>
           let pushed := classes ++ [tagValue] in
           match byChild !! tagValue with
           | Some parentValue =>
               if decide (parentValue <> "" /\ parentValue ∉ pushed)
               then pushed ++ [parentValue] else pushed
           | None => pushed
           end)
        [] tags.

Definition formattedPlaces (structuredTags : StructuredTags.t)
           (places : list Place.t) : list FormattedPlace.t :=
  let byChild := tagToParentValue (StructuredTags.parents structuredTags) in
  (fun place =>
     FormattedPlace.mk place
       (displayPhone (PlaceRow.phone (Place.row place)))
       (String.concat " " (tagClasses byChild (Place.tags place))))
    <$> places.

(** What the handler answers: the rendered page with its data, or the
    status 500 of the [catch] block. *)
Inductive response :=
| Rendered (places : list FormattedPlace.t) (structuredTags : StructuredTags.t)
| Status500.

(** [Promise.all([a, b])]: both computations are started, in this order;
    the result is the pair of their results, or the first failure. *)
Definition promise_all {A B} (a : M A) (b : M B) : M (A * B) :=
  fun st =>
    let (s1, ra) := a st in
    let (s2, rb) := b s1 in
    (s2, match ra, rb with
         | Ok x, Ok y => Ok (x, y)
         | Err e, _ => Err e
         | Ok _, Err e => Err e
         end).

(** [router.get('/')]: the two reads, the formatting, and the [catch]. *)
Definition index {srv : Server} : M response :=
  try_catch
    (let! both := promise_all (PlaceModel.findAll None) TagModel.findAllStructured in
     let places := both.1 in
     let structuredTags := both.2 in
     ret (Rendered (formattedPlaces structuredTags places) structuredTags))
    (fun _ => ret Status500).

End PublicRoutes.

(** * Definitions used to state the properties *)

(** The phone number kept by the store, in the words of the specification:
    the digits of the input when there are exactly ten of them. *)
Definition ten_digits (phone : string) : option string :=
  if decide (String.length (JsString.keep_digits phone) = 10%nat)
  then Some (JsString.keep_digits phone) else None.

(** The patch [{}] and the patch [{ name }]. *)
Definition empty_place_patch : PlacePatch.t :=
  PlacePatch.mk None None None None None None None None.

Definition name_only_patch (name : string) : PlacePatch.t :=
  PlacePatch.mk (Some name) None None None None None None None.

(** A place row with a new name and a new [updated_at], every other column
    as it was. *)
Definition renamed (name : string) (now : nat) (p : PlaceRow.t) : PlaceRow.t :=
  PlaceRow.mk (PlaceRow.id p) name (PlaceRow.address p) (PlaceRow.phone p)
              (PlaceRow.url p) (PlaceRow.specials p) (PlaceRow.categories p)
              (PlaceRow.notes p) (PlaceRow.created_at p) now.

(** ** Sample data: the scenarios of the specification *)

Module Sample.
Definition food : Tag.t := Tag.mk "t1" "food" "Food" 1 None true 0 0.
Definition pizza : Tag.t := Tag.mk "t2" "pizza" "Pizza" 1 (Some "t1") false 0 0.
Definition drinks : Tag.t := Tag.mk "t3" "drinks" "Drinks" 2 None false 0 0.
Definition joe : PlaceRow.t :=
  PlaceRow.mk "p1" "Joe's Bar" None (Some "2125550000") None None None None 0 0.
Definition db : Database :=
  mkDatabase [food; pizza; drinks] [joe] [("p1", "t1"); ("p1", "t2")].
(** A store at rest, with the given failures to come. *)
Definition store (fs : list bool) : Store := mkStore db db fs 10 0.
(** A server whose collation compares the strings byte by byte (the
    collation [C]) and which lists tags of equal [sort_order] by their
    ids. *)
#[global] Instance server : Server := {|
  collate := String.leb;
  collate_total := String.leb_total;
  agg_tie := fun _ a b => String.leb (Tag.id a) (Tag.id b)
|}.
End Sample.

(** The place of the specification's scenario, as [create] receives it. *)
Definition joes_bar_input : PlaceInput.t :=
  PlaceInput.mk "Joe's Bar" None (Some "(212) 555-1234") None None None None
                (Some ["food"]).

Definition phone_only_patch (phone : string) : PlacePatch.t :=
  PlacePatch.mk None None (Some phone) None None None None None.

(** Two lines of text, separated by a bare line feed and by carriage return,
    line feed. *)
Definition two_lines_lf : string :=
  "happy hour" +:+ String JsString.LF "4-7pm".

Definition two_lines_crlf : string :=
  "happy hour" +:+ String JsString.CR (String JsString.LF "4-7pm").

(** A line-break marker written with an em space (U+2003, the bytes
    [E2 80 83]) and a no-break space (U+00A0, the bytes [C2 A0]) before
    the [>]. *)
Definition marker_with_wide_spaces : string :=
  "<BR" +:+ String (ascii_of_nat 226) (String (ascii_of_nat 128)
              (String (ascii_of_nat 131)
                 (String (ascii_of_nat 194) (String (ascii_of_nat 160) ">")))).

(** The structured view in the words of the specification: the tags flagged
    [has_children], each with the tags whose [parent_tag_id] is its id, and
    the tags with neither parent nor children. *)
Definition children_of (parent : Tag.t) (allTags : list Tag.t) : list Tag.t :=
  filter (fun t => Tag.parent_tag_id t = Some (Tag.id parent)) allTags.

Definition structured_spec (allTags : list Tag.t) : StructuredTags.t :=
  StructuredTags.mk
    ((fun parent => TagWithChildren.mk parent (children_of parent allTags))
       <$> filter (fun t => Tag.has_children t = true) allTags)
    (filter (fun t => Tag.has_children t = false /\ Tag.parent_tag_id t = None)
            allTags).

(** The table after [UPDATE tags SET has_children = EXISTS(...) WHERE id = p],
    when [p] is an id at all. *)
Definition recomputed_for (p : option string) (ts : list Tag.t) : list Tag.t :=
  match p with
  | Some i =>
      (fun t => if decide (Tag.id t = i)
                then Tag.with_has_children (Sql.has_child i ts) t else t) <$> ts
  | None => ts
  end.

(** The ids whose [has_children] a tag update recomputes: the old and the
    new parent, when the patch supplies a parent that differs from the old
    one. *)
Definition recomputes (old : Tag.t) (data : TagPatch.t) (i : string) : bool :=
  match TagPatch.parent_tag_id data with
  | Some p =>
      bool_decide (Tag.parent_tag_id old <> or_null p)
      && (bool_decide (or_null (Tag.parent_tag_id old) = Some i)
          || bool_decide (or_null p = Some i))
  | None => false
  end.

(** The patch supplies at least one field. *)
Definition supplies_a_field (data : TagPatch.t) : bool :=
  bool_decide (is_Some (TagPatch.value data) \/ is_Some (TagPatch.display data) \/
               is_Some (TagPatch.sort_order data) \/
               is_Some (TagPatch.parent_tag_id data)).

(** A tag row with the supplied fields of a patch written over its own, and
    a new [updated_at]. *)
Definition patched (data : TagPatch.t) (now : nat) (t : Tag.t) : Tag.t :=
  Tag.mk (Tag.id t)
         (default (Tag.value t) (TagPatch.value data))
         (default (Tag.display t) (TagPatch.display data))
         (default (Tag.sort_order t) (TagPatch.sort_order data))
         (match TagPatch.parent_tag_id data with
          | Some p => or_null p
          | None => Tag.parent_tag_id t
          end)
         (Tag.has_children t) (Tag.created_at t) now.

(** The patch that moves a tag under the parent [p]. *)
Definition parent_only_patch (p : string) : TagPatch.t :=
  TagPatch.mk None None None (Some (Some p)).

(** The child set of the tag with id [i]: the ids of the rows whose
    [parent_tag_id] is [i]. *)
Definition children_ids (i : string) (ts : list Tag.t) : list string :=
  Tag.id <$> filter (fun t => Tag.parent_tag_id t = Some i) ts.

(** A completed tag create, update or delete that takes the store from [st]
    to [st']. *)
Inductive tag_write (st st' : Store) : Prop :=
| write_create data r :
    TagModel.create data st = (st', Ok r) -> tag_write st st'
| write_update id data r :
    TagModel.update id data st = (st', Ok r) -> tag_write st st'
| write_delete id b :
    TagModel.delete id st = (st', Ok b) -> tag_write st st'.

(** The sample store after the tag [drinks] was made its own parent. *)
Definition self_parented : Store :=
  (TagModel.update "t3" (parent_only_patch "t3") (Sample.store [])).1.

(** The sample store after the tag [pizza] was moved under [drinks]. *)
Definition pizza_moved : Store :=
  (TagModel.update "t2" (parent_only_patch "t3") (Sample.store [])).1.

(** The row of [drinks] once it is its own parent. *)
Definition drinks_self_parented : Tag.t :=
  Tag.mk "t3" "drinks" "Drinks" 2 (Some "t3") true 0 11.

(** A computation that leaves the committed rows as they are, however it
    ends. *)
Definition keeps_committed {A} (m : M A) : Prop :=
  forall s s' r, m s = (s', r) -> pool_db s' = pool_db s.

(** What the specification compares tags by: value, display, sort order. *)
Definition tag_key (t : Tag.t) : string * string * Z :=
  (Tag.value t, Tag.display t, Tag.sort_order t).

Definition input_key (e : TagInput.t) : string * string * Z :=
  (TagInput.value e, TagInput.display e, TagInput.sort_order e).

(** The tag set of a store by value, display and sort order, in [findAll]'s
    order. *)
Definition tag_set {srv : Server} (st : Store) : list (string * string * Z) :=
  tag_key <$> order_by Sql.tag_le (tbl_tags (pool_db st)).

(** [ORDER BY sort_order ASC, value ASC] on keys. *)
Definition key_le {srv : Server} (a b : string * string * Z) : bool :=
  (a.2 <? b.2)%Z || ((a.2 =? b.2)%Z && collate a.1.1 b.1.1).

(** The loop of [bulkSave] seen on the keys of the table.  A value that the
    snapshot knows has its row rewritten; another one is inserted, which the
    unique index on [value] refuses when the table has it already. *)
Definition rekey (e : TagInput.t) (k : string * string * Z) : string * string * Z :=
  if decide (k.1.1 = TagInput.value e) then input_key e else k.

Definition save_key (known : string -> bool) (keys : list (string * string * Z))
           (e : TagInput.t) : option (list (string * string * Z)) :=
  if known (TagInput.value e) then Some (rekey e <$> keys)
  else if decide (TagInput.value e ∈ (fun k => k.1.1) <$> keys) then None
  else Some (keys ++ [input_key e]).

Fixpoint save_keys (known : string -> bool) (keys : list (string * string * Z))
         (input : list TagInput.t) : option (list (string * string * Z)) :=
  match input with
  | [] => Some keys
  | e :: rest =>
      match save_key known keys e with
      | Some keys' => save_keys known keys' rest
      | None => None
      end
  end.

(** The last entry of the input with the value [v]. *)
Fixpoint last_entry (input : list TagInput.t) (v : string) : option TagInput.t :=
  match input with
  | [] => None
  | e :: rest =>
      match last_entry rest v with
      | Some x => Some x
      | None => if decide (TagInput.value e = v) then Some e else None
      end
  end.

(** No tag that the input keeps stands under a tag that the input drops. *)
Definition no_kept_under_dropped (input : list TagInput.t) (ts : list Tag.t) : Prop :=
  forall t h, t ∈ ts -> h ∈ ts ->
    Tag.parent_tag_id t = Some (Tag.id h) ->
    Tag.value t ∈ TagInput.value <$> input ->
    Tag.value h ∈ TagInput.value <$> input.

(** A bulk save that keeps [pizza] only. *)
Definition pizza_only : list TagInput.t := [TagInput.mk "pizza" "Pizza" 1 None].

Definition saved_once : Store := (TagModel.bulkSave pizza_only (Sample.store [])).1.
Definition saved_twice : Store := (TagModel.bulkSave pizza_only saved_once).1.

(** The sample store when the store fails on the third statement sent. *)
Definition third_statement_fails : Store := Sample.store [false; false; true].

(** A place whose specials are two lines separated by carriage return, line
    feed, as a browser submits them. *)
Definition specials_input : PlaceInput.t :=
  PlaceInput.mk "Joe's Bar" None None None (Some two_lines_crlf) None None None.

(** The specials of the last place of the committed table, as the edit form
    shows them. *)
Definition last_specials_editable (st : Store) : string :=
  editableText (last (tbl_places (pool_db st)) ≫= PlaceRow.specials).

(** A bulk save that keeps the three sample tags and adds [beer] under
    [drinks]. *)
Definition with_beer : list TagInput.t :=
  [TagInput.mk "food" "Food" 1 None; TagInput.mk "pizza" "Pizza" 1 None;
   TagInput.mk "drinks" "Drinks" 2 None;
   TagInput.mk "beer" "Beer" 3 (Some (Some "t3"))].

(** The snapshot [existingByValue] of [bulkSave] agrees with the table as
    far as the input goes: the row it holds for an input value is in the
    table, and is the one row there with that value. *)
Definition snapshot_agrees (values : list string) (snapshot : gmap string Tag.t)
           (ts : list Tag.t) : Prop :=
  NoDup (Tag.id <$> ts) /\ NoDup (Tag.value <$> ts) /\
  forall v e, v ∈ values -> snapshot !! v = Some e ->
    Tag.id e ∈ Tag.id <$> ts /\
    forall r, r ∈ ts -> (Tag.id r = Tag.id e <-> Tag.value r = v).

(** The body of the loop of [bulkSave], for a snapshot [existingByValue]. *)
Definition upsert (existingByValue : gmap string Tag.t) (tag : TagInput.t) : M unit :=
  match existingByValue !! TagInput.value tag with
  | Some existing =>
      let! _ :=
        client_query
          (Sql.update_tags [Sql.SetDisplay (TagInput.display tag);
                            Sql.SetSortOrder (TagInput.sort_order tag);
                            Sql.SetUpdatedAtNow]
                           (Tag.id existing)) in
      ret tt
  | None =>
      let! _ :=
        client_query
          (Sql.insert_tag (TagInput.value tag) (TagInput.display tag)
             (TagInput.sort_order tag)
             (or_null (mjoin (TagInput.parent_tag_id tag)))) in
      ret tt
  end.

(** The values a snapshot holds a row for. *)
Definition known_in (snapshot : gmap string Tag.t) (v : string) : bool :=
  bool_decide (is_Some (snapshot !! v)).

(** A computation on the transaction's client that leaves the schema's
    constraints in force there, however it ends. *)
Definition keeps_constraints {A} (m : M A) : Prop :=
  forall s s' r, m s = (s', r) -> Sql.db_ok (client_db s) -> Sql.db_ok (client_db s').

(** An input that keeps [food] and [pizza] with new labels and drops
    [drinks]. *)
Definition food_and_pizza : list TagInput.t :=
  [TagInput.mk "pizza" "Pizza Slices" 2 None; TagInput.mk "food" "Food & Dining" 1 None].

(** A store for the place list.  Four places: [apple], [Joe's Bar] and [Zoo]
    are tagged [pizza], [Bodega] is not; [Joe's Bar] has all three tags,
    [pizza] first among its [place_tags] rows. *)
Definition four_places : Store :=
  let place i n := PlaceRow.mk i n None None None None None None 0 0 in
  let db :=
    mkDatabase [Sample.food; Sample.pizza; Sample.drinks]
               [place "p1" "Zoo"; place "p2" "Joe's Bar"; place "p3" "Bodega";
                place "p4" "apple"]
               [("p2", "t2"); ("p2", "t1"); ("p2", "t3"); ("p1", "t2");
                ("p3", "t3"); ("p4", "t2")] in
  mkStore db db [] 10 0.

(** The names and the tag lists of a place list. *)
Definition names_and_tags (l : list Place.t) : list (string * list string) :=
  (fun pl => (PlaceRow.name (Place.row pl), Place.tags pl)) <$> l.

(** Another server: its collation compares the strings with the upper-case
    letters of ASCII read as lower-case ones, and it lists tags of equal
    [sort_order] by their ids, the greater id first. *)
Definition fold_case (s : string) : string :=
  string_of_list_ascii
    ((fun c => let n := nat_of_ascii c in
               if (65 <=? n)%nat && (n <=? 90)%nat then ascii_of_nat (n + 32) else c)
       <$> list_ascii_of_string s).

Definition folding_server : Server := {|
  collate := fun a b => String.leb (fold_case a) (fold_case b);
  collate_total := fun a b => String.leb_total (fold_case a) (fold_case b);
  agg_tie := fun _ a b => String.leb (Tag.id b) (Tag.id a)
|}.

(** The sample store after the place of the scenario was created. *)
Definition joes_bar_created : Store :=
  (PlaceModel.create joes_bar_input (Sample.store [])).1.

(** A patch that supplies a tag list only. *)
Definition tags_only_patch (tagValues : list string) : PlacePatch.t :=
  PlacePatch.mk None None None None None None None (Some tagValues).
(** A tag under [drinks], as [create] receives it. *)
Definition beer_input : TagInput.t := TagInput.mk "beer" "Beer" 3 (Some (Some "t3")).

(** What a computation returned, or the given default when it threw. *)
Definition returned {A} (d : A) (run : Store * outcome A) : A :=
  match run.2 with
  | Ok a => a
  | Err _ => d
  end.
(** The pairs (value of a child, value of its parent) in the order in which
    the two loops of the public page visit them. *)
Definition child_parent_pairs (parents : list TagWithChildren.t)
  : list (string * string) :=
  parents ≫= fun P =>
    (fun c => (Tag.value c, Tag.value (TagWithChildren.tag P)))
      <$> TagWithChildren.children P.
(** A row [t] that [bulkSave] kept from the row [t0]: the id, the value, the
    parent, [has_children] and [created_at] are those of [t0]. *)
Definition kept_as (t0 t : Tag.t) : Prop :=
  Tag.id t = Tag.id t0 /\ Tag.value t = Tag.value t0 /\
  Tag.parent_tag_id t = Tag.parent_tag_id t0 /\
  Tag.has_children t = Tag.has_children t0 /\
  Tag.created_at t = Tag.created_at t0.

(** A row [t] that [bulkSave] inserted for the input entry [e]. *)
Definition inserted_for (e : TagInput.t) (t : Tag.t) : Prop :=
  Tag.value t = TagInput.value e /\
  Tag.parent_tag_id t = or_null (mjoin (TagInput.parent_tag_id e)) /\
  Tag.has_children t = false.

(** An input that names the new value [wine] twice. *)
Definition wine_twice : list TagInput.t :=
  [TagInput.mk "wine" "Wine" 4 None; TagInput.mk "wine" "Wines" 5 None].
(** One write of the tag model or of the place model, taking the store from
    [st] to [st'], whatever it returned or threw. *)
Inductive model_write {srv : Server} (st st' : Store) : Prop :=
| tag_created data r :
    TagModel.create data st = (st', r) -> model_write st st'
| tag_updated id data r :
    TagModel.update id data st = (st', r) -> model_write st st'
| tag_deleted id r :
    TagModel.delete id st = (st', r) -> model_write st st'
| tags_saved input r :
    TagModel.bulkSave input st = (st', r) -> model_write st st'
| place_created data r :
    PlaceModel.create data st = (st', r) -> model_write st st'
| place_updated id data r :
    PlaceModel.update id data st = (st', r) -> model_write st st'
| place_deleted id r :
    PlaceModel.delete id st = (st', r) -> model_write st st'.

(** * Properties

    The properties hold for every server: whatever the collation of the
    database and whatever the order in which it lists tags of equal
    [sort_order]. *)

Section Properties.
Context {srv : Server}.

(** ** Running computations *)

Lemma bind_ok {A B} (m : M A) (k : A -> M B) st st' b :
  bind m k st = (st', Ok b) ->
  exists a st1, m st = (st1, Ok a) /\ k a st1 = (st', Ok b).
Proof.
  unfold bind. destruct (m st) as [st1 [a|e]]; intros H.
  - exists a, st1. split; [reflexivity | exact H].
  - discriminate H.
Qed.

Lemma ret_ok {A} (a b : A) st st' :
  ret a st = (st', Ok b) -> st' = st /\ b = a.
Proof. unfold ret. intros [= <- <-]. split; reflexivity. Qed.

Lemma exec_ok {A} c (q : Sql.statement A) st st' a :
  exec c q st = (st', Ok a) ->
  fails_next st = false /\
  exists db,
    q (clock st) (Sql.uuid_generate_v4 (uuid_seed st)) (view c st) = Ok (db, a) /\
    st' = set_view c db (sent st).
Proof.
  unfold exec. destruct (fails_next st); [discriminate|].
  destruct (q _ _ _) as [[db a']|e]; [|discriminate].
  intros [= <- <-]. split; [reflexivity|]. exists db. split; reflexivity.
Qed.

Lemma begin_tx_ok st st' u :
  begin_tx st = (st', Ok u) -> st' = set_view Client (pool_db st) (sent st).
Proof.
  unfold begin_tx. destruct (fails_next st); [discriminate|].
  intros [= <- _]. reflexivity.
Qed.

Lemma commit_tx_ok st st' u :
  commit_tx st = (st', Ok u) -> st' = set_view Pool (client_db st) (sent st).
Proof.
  unfold commit_tx. destruct (fails_next st); [discriminate|].
  intros [= <- _]. reflexivity.
Qed.

(** A transaction that returns ran [BEGIN], its callback and [COMMIT], each
    without failure. *)
Lemma withTransaction_ok {A} (callback : M A) st st' a :
  withTransaction callback st = (st', Ok a) ->
  exists st2,
    callback (set_view Client (pool_db st) (sent st)) = (st2, Ok a) /\
    st' = set_view Pool (client_db st2) (sent st2).
Proof.
  unfold withTransaction, try_catch.
  destruct (bind begin_tx _ st) as [st1 [r|e]] eqn:Hbody.
  - intros [= <- <-].
    apply bind_ok in Hbody as (u & s1 & Hb & Hbody).
    apply bind_ok in Hbody as (r' & s2 & Hc & Hbody).
    apply bind_ok in Hbody as (u' & s3 & Hcm & Hbody).
    apply ret_ok in Hbody as [-> ->].
    apply begin_tx_ok in Hb as ->. apply commit_tx_ok in Hcm as ->.
    exists s2. split; [exact Hc | reflexivity].
  - unfold bind, throw. destruct (rollback_tx st1) as [s [u|e']]; discriminate.
Qed.

(** What a transaction that throws leaves behind: the committed rows are
    those its callback left in the pool, which for a callback that writes
    through the client only are the rows from before. *)
Lemma withTransaction_err {A} (callback : M A) st st' e :
  (forall s s' r, callback s = (s', r) -> pool_db s' = pool_db s) ->
  withTransaction callback st = (st', Err e) ->
  pool_db st' = pool_db st.
Proof.
  intros Hcb. unfold withTransaction, try_catch, bind, throw.
  unfold begin_tx at 1. destruct (fails_next st) eqn:Hf.
  - unfold rollback_tx. simpl. destruct (fails_next (sent st)); intros [= <- _]; reflexivity.
  - destruct (callback _) as [s2 [r|e2]] eqn:Hc.
    + apply Hcb in Hc. simpl in Hc.
      unfold commit_tx. destruct (fails_next s2); simpl.
      * unfold rollback_tx. simpl.
        destruct (fails_next (sent s2)); intros [= <- _]; simpl; exact Hc.
      * discriminate.
    + apply Hcb in Hc. simpl in Hc. unfold rollback_tx.
      destruct (fails_next s2); intros [= <- _]; simpl; exact Hc.
Qed.

(** ** Phone numbers *)

Lemma replace_nondigit_keep_digits (s : string) :
  JsString.replace_all JsString.match_nondigit "" s = JsString.keep_digits s.
Proof.
  unfold JsString.replace_all.
  induction s as [|c s IH]; simpl; [reflexivity|].
  destruct (JsString.is_digit c); simpl; rewrite IH; reflexivity.
Qed.

Lemma normalizePhone_ten_digits (phone : string) :
  normalizePhone (Some phone) = ten_digits phone.
Proof.
  unfold normalizePhone, ten_digits.
  destruct phone as [|c s]; [reflexivity|].
  rewrite replace_nondigit_keep_digits.
  destruct (Nat.eqb_spec (String.length (JsString.keep_digits (String c s))) 10);
    case_decide; try reflexivity; contradiction.
Qed.

(** ** The place model *)

Ltac inv_bind H :=
  let a := fresh "a" in
  let s := fresh "s" in
  let H1 := fresh "Hrun" in
  apply bind_ok in H as (a & s & H1 & H).

Ltac inv_exec H :=
  let db := fresh "db" in
  let Hf := fresh "Hnofault" in
  let Hq := fresh "Hq" in
  apply exec_ok in H as (Hf & db & Hq & H).

Lemma findById_place_ok id s s' r :
  PlaceModel.findById id s = (s', Ok r) ->
  s' = sent s /\
  r = head (Sql.aggregate (pool_db s)
              <$> filter (fun p => PlaceRow.id p = id) (tbl_places (pool_db s))).
Proof.
  unfold PlaceModel.findById, query. intros H.
  inv_bind H. inv_exec Hrun. apply ret_ok in H as [-> ->].
  unfold Sql.select_place_by_id in Hq. simpl in Hq. injection Hq as <- <-.
  subst s0. split; [destruct s; reflexivity | reflexivity].
Qed.

Lemma setTags_ok placeId tagValues s s' u :
  PlaceModel.setTags placeId tagValues s = (s', Ok u) ->
  pool_db s' = pool_db s /\
  tbl_tags (client_db s') = tbl_tags (client_db s) /\
  tbl_places (client_db s') = tbl_places (client_db s).
Proof.
  unfold PlaceModel.setTags, client_query. intros H.
  inv_bind H. inv_exec Hrun. subst s0.
  unfold Sql.delete_place_tags_by_place in Hq. injection Hq as <- _.
  case_decide.
  - apply ret_ok in H as [-> _]. simpl. auto.
  - inv_exec H. subst s'. simpl in *.
    unfold Sql.insert_place_tags in Hq.
    repeat case_decide; try discriminate. injection Hq as <- _. simpl. auto.
Qed.

Lemma update_tags_and_read_ok id data s s' r :
  PlaceModel.update_tags_and_read id data s = (s', Ok r) ->
  pool_db s' = pool_db s /\
  tbl_tags (client_db s') = tbl_tags (client_db s) /\
  tbl_places (client_db s') = tbl_places (client_db s) /\
  (PlacePatch.tags data = None ->
   tbl_place_tags (client_db s') = tbl_place_tags (client_db s)) /\
  r = head (Sql.aggregate (pool_db s)
              <$> filter (fun p => PlaceRow.id p = id) (tbl_places (pool_db s))).
Proof.
  unfold PlaceModel.update_tags_and_read. intros H. inv_bind H.
  apply findById_place_ok in H as [-> ->].
  destruct (PlacePatch.tags data) as [tagValues|].
  - apply setTags_ok in Hrun as (Hp & Ht & Hpl). simpl. rewrite Hp.
    repeat split; try assumption. intros [=].
  - apply ret_ok in Hrun as [-> _]. simpl. repeat split; reflexivity.
Qed.

(** The tables a completed [update] leaves committed, and what it returns:
    the record as the pool reads it while the transaction is still open. *)
Lemma place_update_ok id data st st' r :
  PlaceModel.update id data st = (st', Ok r) ->
  tbl_tags (pool_db st') = tbl_tags (pool_db st) /\
  tbl_places (pool_db st') =
    (if decide (1 < length (PlaceModel.updates_of data))%nat
     then (fun p => if decide (PlaceRow.id p = id)
                    then foldl (Sql.assign_place (S (clock st))) p
                               (PlaceModel.updates_of data)
                    else p) <$> tbl_places (pool_db st)
     else tbl_places (pool_db st)) /\
  (PlacePatch.tags data = None ->
   tbl_place_tags (pool_db st') = tbl_place_tags (pool_db st)) /\
  (r <> None \/ ~ (1 < length (PlaceModel.updates_of data))%nat ->
   r = head (Sql.aggregate (pool_db st)
               <$> filter (fun p => PlaceRow.id p = id) (tbl_places (pool_db st)))).
Proof.
  unfold PlaceModel.update. intros H.
  apply withTransaction_ok in H as (st2 & H & ->). simpl.
  case_decide as Hlen.
  - unfold client_query in H. inv_bind H. inv_exec Hrun. subst s.
    unfold Sql.update_places in Hq. simpl in Hq. injection Hq as <- <-.
    case_decide as Hrows.
    + apply ret_ok in H as [-> ->]. simpl.
      repeat split; try reflexivity. intros [Hr|Hr]; [congruence | contradiction].
    + apply update_tags_and_read_ok in H as (Hp & Ht & Hpl & Hpt & ->).
      simpl in *. rewrite Ht, Hpl. repeat split; try reflexivity. exact Hpt.
  - apply update_tags_and_read_ok in H as (Hp & Ht & Hpl & Hpt & ->).
    simpl in *. rewrite Ht, Hpl. repeat split; try reflexivity. exact Hpt.
Qed.

(** Without storage failures a place update with no tag list runs to its
    end: no statement it sends can be refused. *)
Lemma place_update_returns id data st :
  faults st = [] ->
  PlacePatch.tags data = None ->
  exists st' r, PlaceModel.update id data st = (st', Ok r).
Proof.
  intros Hf Ht. destruct st as [pdb cdb fs clk seed]. simpl in Hf. subst fs.
  unfold PlaceModel.update, withTransaction, try_catch, bind, begin_tx,
    commit_tx, PlaceModel.update_tags_and_read, PlaceModel.findById, bind,
    client_query, query, exec, ret. rewrite Ht. simpl.
  case_decide; simpl; [case_decide; simpl|]; eauto.
Qed.

(** C7. For an existing place, [update] with the patch [{}] returns the
    current record and leaves every table as it was; [update] with the patch
    [{ name }] changes, in the rows of that place, the name and [updated_at]
    only, and leaves every other row, the tags and the tag associations as
    they were.  Both runs return when the store does not fail. *)
Theorem place_update_empty_and_name_only (id : string) (st : Store) (p : PlaceRow.t) :
  head (filter (fun q => PlaceRow.id q = id) (tbl_places (pool_db st))) = Some p ->
  (forall st' r,
      PlaceModel.update id empty_place_patch st = (st', Ok r) ->
      r = Some (Sql.aggregate (pool_db st) p) /\ pool_db st' = pool_db st) /\
  (forall name st' r,
      PlaceModel.update id (name_only_patch name) st = (st', Ok r) ->
      tbl_tags (pool_db st') = tbl_tags (pool_db st) /\
      tbl_place_tags (pool_db st') = tbl_place_tags (pool_db st) /\
      exists now,
        tbl_places (pool_db st') =
          (fun q => if decide (PlaceRow.id q = id) then renamed name now q else q)
            <$> tbl_places (pool_db st)) /\
  (faults st = [] ->
   (exists st' r, PlaceModel.update id empty_place_patch st = (st', Ok r)) /\
   (forall name, exists st' r,
         PlaceModel.update id (name_only_patch name) st = (st', Ok r))).
Proof.
  intros Hp. split; [|split].
  - intros st' r H. apply place_update_ok in H as (Ht & Hpl & Hpt & Hr).
    simpl in Hpl. specialize (Hpt eq_refl).
    split.
    + rewrite Hr by (right; simpl; lia).
      destruct (filter _ _) as [|q l]; simpl in *; congruence.
    + destruct (pool_db st'), (pool_db st); simpl in *; congruence.
  - intros name st' r H. apply place_update_ok in H as (Ht & Hpl & Hpt & _).
    specialize (Hpt eq_refl). repeat split; try assumption.
    exists (S (clock st)). exact Hpl.
  - intros Hf. split; [|intros name]; apply place_update_returns; auto.
Qed.

Lemma place_update_empty_and_name_only_witness :
  (exists st' r,
      PlaceModel.update "p1" empty_place_patch (Sample.store []) = (st', Ok r)) /\
  (forall name, exists st' r,
        PlaceModel.update "p1" (name_only_patch name) (Sample.store []) = (st', Ok r)).
Proof.
  exact (proj2 (proj2 (place_update_empty_and_name_only
                         "p1" (Sample.store []) Sample.joe eq_refl)) eq_refl).
Defined.

(** The row a completed [create] adds. *)
Lemma place_create_ok data st st' r :
  PlaceModel.create data st = (st', Ok r) ->
  exists id now,
    tbl_places (pool_db st') =
      tbl_places (pool_db st)
      ++ [PlaceRow.mk id (PlaceInput.name data)
            (or_null (PlaceInput.address data))
            (normalizePhone (PlaceInput.phone data))
            (or_null (PlaceInput.url data))
            (toHtmlBreaks (PlaceInput.specials data))
            (or_null (PlaceInput.categories data))
            (toHtmlBreaks (PlaceInput.notes data)) now now] /\
    tbl_tags (pool_db st') = tbl_tags (pool_db st).
Proof.
  unfold PlaceModel.create. intros H.
  apply withTransaction_ok in H as (st2 & H & ->). simpl.
  unfold client_query in H. inv_bind H. inv_exec Hrun. subst s.
  unfold Sql.insert_place in Hq. case_decide; [discriminate|].
  injection Hq as <- <-. simpl in H.
  inv_bind H. apply findById_place_ok in H as [-> _]. simpl.
  exists (Sql.uuid_generate_v4 (S (uuid_seed st))), (S (clock st)).
  destruct (PlaceInput.tags data) as [[|v vs]|].
  - apply ret_ok in Hrun as [-> _]. simpl. auto.
  - apply setTags_ok in Hrun as (_ & Ht & Hp). simpl in *. rewrite Ht, Hp. auto.
  - apply ret_ok in Hrun as [-> _]. simpl. auto.
Qed.

Lemma updates_of_phone now p data :
  PlaceRow.phone (foldl (Sql.assign_place now) p (PlaceModel.updates_of data)) =
  match PlacePatch.phone data with
  | Some v => normalizePhone (Some v)
  | None => PlaceRow.phone p
  end.
Proof.
  destruct data as [n a ph u s c nt tg]. unfold PlaceModel.updates_of. simpl.
  destruct n, a, ph, u, s, c, nt; reflexivity.
Qed.

Lemma updates_of_id now p data :
  PlaceRow.id (foldl (Sql.assign_place now) p (PlaceModel.updates_of data)) =
  PlaceRow.id p.
Proof.
  destruct data as [n a ph u s c nt tg]. unfold PlaceModel.updates_of. simpl.
  destruct n, a, ph, u, s, c, nt; reflexivity.
Qed.

Lemma updates_of_phone_length data v :
  PlacePatch.phone data = Some v -> (1 < length (PlaceModel.updates_of data))%nat.
Proof.
  destruct data as [n a ph u s c nt tg]. unfold PlaceModel.updates_of. simpl.
  intros ->. destruct n, a, u, s, c, nt; simpl; lia.
Qed.

(** C5. The phone number [create] and [update] store is the input with
    every non-digit stripped when exactly ten digits remain, and null
    otherwise; ["(212) 555-1234"] is stored as ["2125551234"] and
    ["555-1234"] as null. *)
Theorem phone_stored_as_ten_digits_or_null :
  (forall phone, normalizePhone (Some phone) = ten_digits phone) /\
  normalizePhone (Some "(212) 555-1234") = Some "2125551234" /\
  normalizePhone (Some "555-1234") = None /\
  (forall data phone st st' r,
      PlaceInput.phone data = Some phone ->
      PlaceModel.create data st = (st', Ok r) ->
      exists row,
        tbl_places (pool_db st') = tbl_places (pool_db st) ++ [row] /\
        PlaceRow.phone row = ten_digits phone) /\
  (forall id data phone st st' r,
      PlacePatch.phone data = Some phone ->
      PlaceModel.update id data st = (st', Ok r) ->
      Forall2 (fun p q =>
                 PlaceRow.id q = PlaceRow.id p /\
                 (PlaceRow.id p = id -> PlaceRow.phone q = ten_digits phone) /\
                 (PlaceRow.id p <> id -> q = p))
              (tbl_places (pool_db st)) (tbl_places (pool_db st'))).
Proof.
  split; [exact normalizePhone_ten_digits|].
  split; [reflexivity|]. split; [reflexivity|]. split.
  - intros data phone st st' r Hphone H.
    apply place_create_ok in H as (id & now & Hpl & _).
    eexists. split; [exact Hpl|]. simpl.
    rewrite Hphone. apply normalizePhone_ten_digits.
  - intros id data phone st st' r Hphone H.
    apply place_update_ok in H as (_ & Hpl & _).
    rewrite decide_True in Hpl by (eapply updates_of_phone_length; eauto).
    rewrite Hpl. apply Forall2_fmap_r, Forall_Forall2_diag, Forall_forall.
    intros p _. unfold compose. case_decide as Hid.
    + rewrite updates_of_id, updates_of_phone, Hphone, normalizePhone_ten_digits.
      split; [reflexivity|]. split; [reflexivity | contradiction].
    + split; [reflexivity|]. split; [contradiction | reflexivity].
Qed.

Lemma phone_stored_as_ten_digits_or_null_witness :
  (exists row,
      tbl_places (pool_db (PlaceModel.create joes_bar_input (Sample.store [])).1) =
        tbl_places (pool_db (Sample.store [])) ++ [row] /\
      PlaceRow.phone row = ten_digits "(212) 555-1234") /\
  Forall2 (fun p q =>
             PlaceRow.id q = PlaceRow.id p /\
             (PlaceRow.id p = "p1" -> PlaceRow.phone q = ten_digits "555-1234") /\
             (PlaceRow.id p <> "p1" -> q = p))
          (tbl_places (pool_db (Sample.store [])))
          (tbl_places (pool_db (PlaceModel.update "p1" (phone_only_patch "555-1234")
                                                  (Sample.store [])).1)).
Proof.
  destruct phone_stored_as_ten_digits_or_null as (_ & _ & _ & Hcreate & Hupdate).
  split.
  - apply (Hcreate joes_bar_input "(212) 555-1234" (Sample.store []) _ None eq_refl).
    vm_compute. reflexivity.
  - apply (Hupdate "p1" (phone_only_patch "555-1234") "555-1234" (Sample.store []) _
                   (Some (Sql.aggregate Sample.db Sample.joe)) eq_refl).
    vm_compute. reflexivity.
Defined.

(** ** Line breaks *)

Section LineBreaks.
Import JsString.

Let html := replace_from match_newline "<br/>" 0.
Let edit := replace_from match_br (String LF "") 0.

Lemma edit_marker (s : string) : edit ("<br/>" +:+ s) = String LF (edit s).
Proof. reflexivity. Qed.

Lemma html_cons c s :
  html (String c s) =
  match match_newline (String c s) with
  | Some 0%nat => "<br/>" +:+ html s
  | Some _ => "<br/>" +:+ html (match s with String _ s' => s' | EmptyString => s end)
  | None => String c (html s)
  end.
Proof.
  unfold html. simpl.
  destruct (Ascii.eqb c LF); [reflexivity|].
  destruct (Ascii.eqb c CR); [|reflexivity].
  destruct s as [|d s']; [reflexivity|].
  destruct (Ascii.eqb d LF); reflexivity.
Qed.

(** The first byte of an encoded text is the first byte of the text, or the
    [<] of a marker. *)
Lemma html_head c s :
  exists rest,
    html (String c s) =
    String (match match_newline (String c s) with Some _ => "<"%char | None => c end)
           rest.
Proof.
  rewrite html_cons. destruct (match_newline (String c s)) as [[|k]|]; simpl; eauto.
Qed.

(** A newline starts with a line feed or a carriage return, which are white
    space of one byte; the bytes of the wider white space are no such
    byte. *)
Lemma match_newline_space c s :
  match_newline (String c s) <> None -> is_space c = true.
Proof.
  simpl. destruct (Ascii.eqb_spec c LF) as [->|]; [reflexivity|].
  destruct (Ascii.eqb_spec c CR) as [->|]; [reflexivity|]. congruence.
Qed.

Lemma is_space2_second c0 c1 : is_space2 c0 c1 = true -> is_space c1 = false.
Proof.
  unfold is_space2. intros H. apply andb_true_iff in H as [_ H].
  apply N.eqb_eq in H. rewrite <- (ascii_N_embedding c1), H. reflexivity.
Qed.

Lemma is_space3_second c0 c1 c2 : is_space3 c0 c1 c2 = true -> is_space c1 = false.
Proof.
  unfold is_space3. intros H.
  repeat (rewrite orb_true_iff in H || rewrite andb_true_iff in H
          || rewrite N.eqb_eq in H || rewrite N.leb_le in H).
  assert (N_of_ascii c1 = 154 \/ N_of_ascii c1 = 128 \/ N_of_ascii c1 = 129 \/
          N_of_ascii c1 = 187)%N as Hc by lia.
  rewrite <- (ascii_N_embedding c1).
  destruct Hc as [-> | [-> | [-> | ->]]]; reflexivity.
Qed.

Lemma is_space3_third c0 c1 c2 :
  is_space3 c0 c1 c2 = true -> is_space c2 = false /\ c2 <> "<"%char.
Proof.
  unfold is_space3. intros H.
  repeat (rewrite orb_true_iff in H || rewrite andb_true_iff in H
          || rewrite N.eqb_eq in H || rewrite N.leb_le in H).
  assert (128 <= N_of_ascii c2)%N as Hc by lia.
  split.
  - unfold is_space.
    assert (nat_of_ascii c2 = N.to_nat (N_of_ascii c2)) as -> by reflexivity.
    apply orb_false_iff.
    split; [apply andb_false_iff; right; apply Nat.leb_gt
           | apply Nat.eqb_neq]; lia.
  - intros ->. vm_compute in Hc. apply Hc. reflexivity.
Qed.

Lemma is_space2_lt c0 : is_space2 c0 "<" = false.
Proof. unfold is_space2. apply andb_false_r. Qed.

Lemma is_space3_lt c0 c2 : is_space3 c0 "<" c2 = false.
Proof.
  unfold is_space3. change (N_of_ascii "<") with 60%N. simpl.
  rewrite !andb_false_r. reflexivity.
Qed.

Lemma html_keep c s : is_space c = false -> html (String c s) = String c (html s).
Proof.
  intros Hc. rewrite html_cons.
  destruct (match_newline (String c s)) eqn:Hnl; [|reflexivity].
  rewrite (match_newline_space c s) in Hc by congruence. discriminate.
Qed.

Lemma br_tail_marker s : br_tail ("<br/>" +:+ s) = None.
Proof. reflexivity. Qed.

(** An encoded text starts with a marker when the text starts with a
    newline. *)
Lemma html_newline c s :
  match_newline (String c s) <> None ->
  exists rest, html (String c s) = "<br/>" +:+ rest.
Proof.
  intros H. rewrite html_cons.
  destruct (match_newline (String c s)) as [[|k]|]; [eauto | eauto | contradiction].
Qed.

Lemma br_tail_html_bounded (n : nat) :
  forall s, (String.length s <= n)%nat -> br_tail s = None ->
            br_tail (html s) = None.
Proof.
  induction n as [|n IH]; intros [|c0 r0] Hlen Hs; try reflexivity;
    simpl in Hlen; [lia|].
  destruct (match_newline (String c0 r0)) eqn:Hnl0.
  { destruct (html_newline c0 r0) as [rest ->]; [congruence | reflexivity]. }
  rewrite html_cons, Hnl0.
  cbn [br_tail] in *.
  destruct (is_space c0) eqn:Hsp0.
  { destruct (br_tail r0) eqn:Ht; [discriminate|]. rewrite IH by (auto; lia).
    reflexivity. }
  destruct (Ascii.eqb c0 "/").
  { destruct r0 as [|d r1]; [reflexivity|].
    destruct (html_head d r1) as [rest ->].
    destruct (match_newline (String d r1)); [reflexivity | exact Hs]. }
  destruct (Ascii.eqb c0 ">"); [discriminate|].
  destruct r0 as [|c1 r1]; [reflexivity|].
  destruct (match_newline (String c1 r1)) eqn:Hnl1.
  { destruct (html_newline c1 r1) as [rest ->]; [congruence|].
    change ("<br/>" +:+ rest) with (String "<" (String "b" ("r/>" +:+ rest))).
    cbv beta iota. rewrite is_space2_lt, is_space3_lt. reflexivity. }
  rewrite html_cons, Hnl1.
  destruct (is_space2 c0 c1) eqn:H2.
  { simpl in Hlen. destruct (br_tail r1) eqn:Ht; [discriminate|].
    rewrite IH by (auto; lia). reflexivity. }
  destruct r1 as [|c2 r2]; [reflexivity|].
  destruct (is_space3 c0 c1 c2) eqn:H3.
  - destruct (is_space3_third _ _ _ H3) as [Hsp2 _].
    rewrite (html_keep c2 r2 Hsp2), H3. simpl in Hlen.
    destruct (br_tail r2) eqn:Ht; [discriminate|].
    rewrite IH by (auto; lia). reflexivity.
  - destruct (html_head c2 r2) as [rest ->].
    destruct (match_newline (String c2 r2)).
    + destruct (is_space3 c0 c1 "<") eqn:H3'; [|reflexivity].
      apply is_space3_third in H3' as [_ Hne]. contradiction.
    + rewrite H3. reflexivity.
Qed.

Lemma br_tail_html (s : string) : br_tail s = None -> br_tail (html s) = None.
Proof. apply (br_tail_html_bounded (String.length s)). lia. Qed.

(** Encoding makes no marker of its own out of the text around a newline. *)
Lemma match_br_html c s :
  match_newline (String c s) = None ->
  match_br (String c s) = None ->
  match_br (String c (html s)) = None.
Proof.
  intros _ Hbr. destruct s as [|c1 s1]; [reflexivity|].
  rewrite html_cons. destruct (match_newline (String c1 s1)) as [[|k]|] eqn:H1.
  - simpl. rewrite andb_false_r. reflexivity.
  - simpl. rewrite andb_false_r. reflexivity.
  - destruct s1 as [|c2 s2]; [reflexivity|].
    rewrite html_cons. destruct (match_newline (String c2 s2)) as [[|k]|] eqn:H2.
    + simpl. rewrite andb_false_r. reflexivity.
    + simpl. rewrite andb_false_r. reflexivity.
    + unfold match_br in *. destruct (_ && _ && _); [|reflexivity].
      destruct (br_tail s2) eqn:Ht; [discriminate|].
      rewrite (br_tail_html _ Ht). reflexivity.
Qed.

Lemma has_br_tail c s : has_br (String c s) = false -> has_br s = false.
Proof. simpl. intros H. apply orb_false_iff in H as [_ H]. exact H. Qed.

Lemma has_br_head c s : has_br (String c s) = false -> match_br (String c s) = None.
Proof.
  intros H.
  change (bool_decide (is_Some (match_br (String c s))) || has_br s = false) in H.
  apply orb_false_iff in H as [H _]. apply bool_decide_eq_false in H.
  destruct (match_br (String c s)) eqn:E; [|reflexivity].
  exfalso. apply H. eauto.
Qed.

Lemma edit_html_bounded (n : nat) :
  forall s, (String.length s <= n)%nat -> has_br s = false ->
            edit (html s) = crlf_to_lf s.
Proof.
  induction n as [|n IH]; intros [|c s] Hlen Hbr; try reflexivity;
    simpl in Hlen; [lia|].
  pose proof (has_br_tail _ _ Hbr) as Hbr'.
  rewrite html_cons. unfold crlf_to_lf; fold crlf_to_lf.
  destruct (match_newline (String c s)) as [[|k]|] eqn:Hnl.
  - rewrite edit_marker, IH by (auto; lia).
    rewrite bool_decide_eq_false_2 by discriminate.
    simpl in Hnl. destruct (Ascii.eqb_spec c LF) as [->|]; [reflexivity|].
    destruct (Ascii.eqb c CR); [|discriminate].
    destruct s as [|d s']; [discriminate|].
    destruct (Ascii.eqb d LF); discriminate.
  - simpl in Hnl. destruct (Ascii.eqb c LF); [discriminate|].
    destruct (Ascii.eqb c CR); [|discriminate].
    destruct s as [|d s']; [discriminate|].
    destruct (Ascii.eqb_spec d LF) as [->|]; [|discriminate].
    injection Hnl as <-.
    rewrite bool_decide_eq_true_2 by reflexivity.
    rewrite edit_marker, IH by (eauto using has_br_tail; simpl in *; lia).
    simpl. reflexivity.
  - rewrite bool_decide_eq_false_2 by discriminate.
    change (edit (String c (html s))) with
      (match match_br (String c (html s)) with
       | Some k => String LF "" +:+ replace_from match_br (String LF "") k (html s)
       | None => String c (edit (html s))
       end).
    rewrite match_br_html by auto using has_br_head.
    rewrite IH by (auto; lia). reflexivity.
Qed.

Lemma edit_html (s : string) : has_br s = false -> edit (html s) = crlf_to_lf s.
Proof. apply (edit_html_bounded (String.length s)). lia. Qed.

Lemma crlf_to_lf_id (s : string) : has_crlf s = false -> crlf_to_lf s = s.
Proof.
  induction s as [|c s IH]; [reflexivity|].
  unfold has_crlf, crlf_to_lf; fold has_crlf; fold crlf_to_lf.
  intros H. apply orb_false_iff in H as [H1 H2].
  rewrite H1, IH by exact H2. reflexivity.
Qed.

Lemma editableText_toHtmlBreaks (text : string) :
  editableText (toHtmlBreaks (Some text)) = edit (html text).
Proof.
  destruct text as [|c s]; [reflexivity|].
  unfold toHtmlBreaks, editableText, replace_all.
  fold html. fold edit. destruct (edit (html (String c s))); reflexivity.
Qed.

End LineBreaks.

(** C4 (amended). For every text that holds no line-break marker of its
    own, encoding it as [create] does and decoding it as the edit form does
    gives the text back with every carriage return, line feed pair turned
    into a bare line feed; a text whose newlines are all bare line feeds
    comes back exactly.  This is what the edit form shows for the specials
    and for the notes of the row a completed [create] stored. *)
Theorem line_breaks_round_trip (text : string) :
  JsString.has_br text = false ->
  editableText (toHtmlBreaks (Some text)) = JsString.crlf_to_lf text /\
  (JsString.has_crlf text = false ->
   editableText (toHtmlBreaks (Some text)) = text) /\
  (forall data st st' r,
      PlaceModel.create data st = (st', Ok r) ->
      exists row,
        tbl_places (pool_db st') = tbl_places (pool_db st) ++ [row] /\
        (PlaceInput.specials data = Some text ->
         editableText (PlaceRow.specials row) = JsString.crlf_to_lf text) /\
        (PlaceInput.notes data = Some text ->
         editableText (PlaceRow.notes row) = JsString.crlf_to_lf text)).
Proof.
  intros Hbr.
  assert (editableText (toHtmlBreaks (Some text)) = JsString.crlf_to_lf text) as Hrt
    by (rewrite editableText_toHtmlBreaks; apply edit_html, Hbr).
  split; [exact Hrt|]. split.
  - intros Hcrlf. rewrite Hrt. apply crlf_to_lf_id, Hcrlf.
  - intros data st st' r H. apply place_create_ok in H as (id & now & Hpl & _).
    eexists. split; [exact Hpl|]. simpl. split; intros ->; exact Hrt.
Qed.

Lemma line_breaks_round_trip_witness :
  editableText (toHtmlBreaks (Some two_lines_lf)) = two_lines_lf.
Proof.
  exact (proj1 (proj2 (line_breaks_round_trip two_lines_lf eq_refl)) eq_refl).
Defined.

(** C4 as stated fails: a text with a carriage return, line feed newline
    does not come back exactly, neither through the two transforms nor
    through [create] and the edit form. *)
Lemma line_breaks_crlf_not_restored :
  editableText (toHtmlBreaks (Some two_lines_crlf)) = two_lines_lf /\
  editableText (toHtmlBreaks (Some two_lines_crlf)) <> two_lines_crlf /\
  last_specials_editable (PlaceModel.create specials_input (Sample.store [])).1
    = two_lines_lf /\
  two_lines_lf <> two_lines_crlf.
Proof. repeat split; try reflexivity; discriminate. Qed.

(** White space of more than one byte is white space of a marker: the
    edit form reads the marker written with wide spaces as a line break, so
    a text that holds it is none of the texts of the round trip. *)
Lemma editableText_wide_spaces :
  JsString.has_br ("a" +:+ marker_with_wide_spaces +:+ "b") = true /\
  editableText (toHtmlBreaks (Some ("a" +:+ marker_with_wide_spaces +:+ "b")))
    = "a" +:+ String JsString.LF "b".
Proof. split; reflexivity. Qed.

(** ** The structured tag view *)

(** The loop over the child tags files every child under its parent's id, in
    the order of the list. *)
Lemma childrenByParent_step (l : list Tag.t) (m : gmap string (list Tag.t)) (p : string) :
  default [] (foldl (fun (m : gmap string (list Tag.t)) child =>
                       match Tag.parent_tag_id child with
                       | Some parentId =>
                           let m' := if decide (is_Some (m !! parentId)) then m
                                     else <[parentId := []]> m in
                           alter (fun l => l ++ [child]) parentId m'
                       | None => m
                       end) m l !! p) =
  default [] (m !! p) ++ filter (fun t => Tag.parent_tag_id t = Some p) l.
Proof.
  revert m. induction l as [|child l IH]; intros m; simpl.
  - rewrite app_nil_r. reflexivity.
  - rewrite IH.
    rewrite (filter_cons (fun t : Tag.t => Tag.parent_tag_id t = Some p) child l).
    destruct (Tag.parent_tag_id child) as [q|] eqn:Hq.
    + destruct (decide (q = p)) as [->|Hne].
      * rewrite (decide_True (P := Some p = Some p)) by reflexivity.
        rewrite lookup_alter_eq.
        case_decide as Hsome.
        -- destruct Hsome as [l0 ->]. simpl. rewrite <- app_assoc. reflexivity.
        -- rewrite lookup_insert_eq.
           destruct (m !! p) eqn:Hm; [exfalso; apply Hsome; eauto|]. reflexivity.
      * rewrite (decide_False (P := Some q = Some p)) by congruence.
        rewrite lookup_alter_ne by exact Hne.
        case_decide; [reflexivity|]. rewrite lookup_insert_ne by exact Hne.
        reflexivity.
    + rewrite (decide_False (P := None = Some p)) by discriminate. reflexivity.
Qed.

Lemma childrenByParent_lookup (allTags : list Tag.t) (p : string) :
  default [] (TagModel.childrenByParent
                (filter (fun t => Tag.parent_tag_id t <> None) allTags) !! p) =
  filter (fun t => Tag.parent_tag_id t = Some p) allTags.
Proof.
  unfold TagModel.childrenByParent. rewrite childrenByParent_step.
  rewrite lookup_empty. simpl. apply list_filter_filter_l. congruence.
Qed.

Lemma structured_correct (allTags : list Tag.t) :
  TagModel.structured allTags = structured_spec allTags.
Proof.
  unfold TagModel.structured, structured_spec. f_equal.
  apply list_fmap_ext. intros i parent _. f_equal.
  apply childrenByParent_lookup.
Qed.

(** C9. [findAllStructured] returns when the store does not fail, and it
    returns, for the tag list in [findAll]'s order,
    the tags flagged [has_children] as [parents], each with exactly the tags
    whose [parent_tag_id] is its id as [children], and the tags with no
    parent and no [has_children] flag as [standalone].  No tag is in both
    lists, every tag in neither has a parent, and the children are plain
    tags, with no children of their own listed. *)
Theorem findAllStructured_parents_and_standalone (st st' : Store) (r : StructuredTags.t) :
  TagModel.findAllStructured st = (st', Ok r) ->
  let allTags := order_by Sql.tag_le (tbl_tags (pool_db st)) in
  (faults st = [] -> exists s x, TagModel.findAllStructured st = (s, Ok x)) /\
  StructuredTags.parents r =
    (fun parent => TagWithChildren.mk parent (children_of parent allTags))
      <$> filter (fun t => Tag.has_children t = true) allTags /\
  StructuredTags.standalone r =
    filter (fun t => Tag.has_children t = false /\ Tag.parent_tag_id t = None) allTags /\
  (forall t, t ∈ StructuredTags.standalone r ->
             t ∉ TagWithChildren.tag <$> StructuredTags.parents r) /\
  (forall t, t ∈ allTags ->
             t ∈ TagWithChildren.tag <$> StructuredTags.parents r \/
             t ∈ StructuredTags.standalone r \/
             Tag.parent_tag_id t <> None) /\
  pool_db st' = pool_db st.
Proof.
  unfold TagModel.findAllStructured, TagModel.findAll, query. intros H.
  inv_bind H. inv_exec Hrun. apply ret_ok in H as [-> ->]. subst s.
  unfold Sql.select_tags_ordered in Hq. injection Hq as <- <-.
  rewrite structured_correct. simpl.
  set (allTags := order_by Sql.tag_le (tbl_tags (pool_db st))).
  split.
  { intros Hf. unfold TagModel.findAllStructured, TagModel.findAll, bind, query,
      exec, ret, fails_next. rewrite Hf. simpl. eauto. }
  assert (forall t, t ∈ TagWithChildren.tag
                      <$> ((fun parent => TagWithChildren.mk parent
                                            (children_of parent allTags))
                             <$> filter (fun t => Tag.has_children t = true) allTags)
                    <-> Tag.has_children t = true /\ t ∈ allTags) as Hparents.
  { intros t. rewrite <- list_fmap_compose.
    rewrite (list_fmap_ext _ id _ (fun i x _ => eq_refl)), list_fmap_id.
    rewrite list_elem_of_filter. reflexivity. }
  split; [reflexivity|]. split; [reflexivity|]. split; [|split; [|reflexivity]].
  - intros t Hs Hp. apply list_elem_of_filter in Hs as [[Hs _] _].
    apply Hparents in Hp as [Hp _]. congruence.
  - intros t Ht. destruct (Tag.has_children t) eqn:Hc.
    + left. apply Hparents. auto.
    + destruct (Tag.parent_tag_id t) eqn:Hpar; [right; right; discriminate|].
      right. left. apply list_elem_of_filter. auto.
Qed.

(** ** [ORDER BY] *)

Section OrderByFacts.
Context {A : Type} (le : A -> A -> bool).
Hypothesis le_total : forall a b, le a b = true \/ le b a = true.

Lemma insert_sorted_perm (x : A) (l : list A) : insert_sorted le x l ≡ₚ x :: l.
Proof.
  induction l as [|y l IH]; simpl; [reflexivity|].
  destruct (le x y); [reflexivity|].
  rewrite IH. apply Permutation_swap.
Qed.

Lemma order_by_perm (l : list A) : order_by le l ≡ₚ l.
Proof.
  induction l as [|x l IH]; simpl; [reflexivity|].
  rewrite insert_sorted_perm, IH. reflexivity.
Qed.

Lemma insert_sorted_HdRel (a x : A) (l : list A) :
  le a x = true -> HdRel (fun u v => le u v = true) a l ->
  HdRel (fun u v => le u v = true) a (insert_sorted le x l).
Proof.
  intros Hax Hal. destruct l as [|y l]; simpl.
  - constructor. exact Hax.
  - destruct (le x y); constructor; [exact Hax|].
    inversion Hal; assumption.
Qed.

Lemma insert_sorted_Sorted (x : A) (l : list A) :
  Sorted (fun u v => le u v = true) l ->
  Sorted (fun u v => le u v = true) (insert_sorted le x l).
Proof.
  induction l as [|y l IH]; simpl; intros Hs.
  - repeat constructor.
  - destruct (le x y) eqn:Hxy.
    + constructor; [exact Hs|]. constructor. exact Hxy.
    + inversion Hs as [|? ? Hl Hhd]; subst. constructor; [apply IH, Hl|].
      apply insert_sorted_HdRel; [|exact Hhd].
      destruct (le_total x y) as [H|H]; [congruence | exact H].
Qed.

Lemma order_by_Sorted (l : list A) :
  Sorted (fun u v => le u v = true) (order_by le l).
Proof.
  induction l as [|x l IH]; simpl; [constructor|].
  apply insert_sorted_Sorted, IH.
Qed.

End OrderByFacts.

(** Sorting by an order that refines a key leaves the list sorted by the
    key, whatever the order does among equal keys. *)
Section OrderByKey.
Context {A : Type} (le : A -> A -> bool) (R : A -> A -> Prop).
Hypothesis le_R : forall a b, le a b = true -> R a b.
Hypothesis nle_R : forall a b, le a b = false -> R b a.

Lemma insert_sorted_HdRel_key (a x : A) (l : list A) :
  R a x -> HdRel R a l -> HdRel R a (insert_sorted le x l).
Proof.
  intros Hax Hal. destruct l as [|y l]; simpl.
  - constructor. exact Hax.
  - destruct (le x y); constructor; [exact Hax|].
    inversion Hal; assumption.
Qed.

Lemma insert_sorted_Sorted_key (x : A) (l : list A) :
  Sorted R l -> Sorted R (insert_sorted le x l).
Proof.
  induction l as [|y l IH]; simpl; intros Hs.
  - repeat constructor.
  - destruct (le x y) eqn:Hxy.
    + constructor; [exact Hs|]. constructor. apply le_R, Hxy.
    + inversion Hs as [|? ? Hl Hhd]; subst. constructor; [apply IH, Hl|].
      apply insert_sorted_HdRel_key; [|exact Hhd]. apply nle_R, Hxy.
Qed.

Lemma order_by_Sorted_key (l : list A) : Sorted R (order_by le l).
Proof.
  induction l as [|x l IH]; simpl; [constructor|].
  apply insert_sorted_Sorted_key, IH.
Qed.

End OrderByKey.

(** ** The place list *)

Lemma joined_tags_elem db place_id t :
  t ∈ Sql.joined_tags db place_id <->
  t ∈ tbl_tags db /\ (place_id, Tag.id t) ∈ tbl_place_tags db.
Proof.
  unfold Sql.joined_tags. rewrite list_elem_of_bind. split.
  - intros ([p i] & Hin & Hpt). simpl in Hin. case_decide as Hp.
    + apply list_elem_of_filter in Hin as [<- Hin]. subst p. auto.
    + inversion Hin.
  - intros [Ht Hpt]. exists (place_id, Tag.id t). split; [|exact Hpt].
    simpl. rewrite decide_True by reflexivity.
    apply list_elem_of_filter. auto.
Qed.

Lemma place_ids_tagged_elem v db i :
  i ∈ Sql.place_ids_tagged v db <->
  exists t, t ∈ tbl_tags db /\ Tag.value t = v /\ (i, Tag.id t) ∈ tbl_place_tags db.
Proof.
  unfold Sql.place_ids_tagged. rewrite list_elem_of_bind. split.
  - intros ([p j] & Hin & Hpt). simpl in Hin.
    apply list_elem_of_fmap in Hin as (t & -> & Hin).
    apply list_elem_of_filter in Hin as [[<- Hv] Hin]. eauto.
  - intros (t & Ht & Hv & Hpt). exists (i, Tag.id t). split; [|exact Hpt].
    simpl. apply list_elem_of_fmap. exists t. split; [reflexivity|].
    apply list_elem_of_filter. auto.
Qed.

Lemma sort_order_le_total a b :
  Sql.sort_order_le a b = true \/ Sql.sort_order_le b a = true.
Proof. unfold Sql.sort_order_le. lia. Qed.

Lemma name_le_total a b : Sql.name_le a b = true \/ Sql.name_le b a = true.
Proof. apply collate_total. Qed.

(** C10. [findAll] returns when the store does not fail.  When it filters
    by a tag value (a non-empty one: the empty string is falsy and switches
    the filter off), the places returned are exactly the places associated
    with a tag of that value; each carries the values of all the tags
    associated with it, in the order of their [sort_order] (tags of equal
    [sort_order] in the order the server lists them); and the list is
    sorted by name, ascending in the collation of the database. *)
Theorem findAll_filtered_by_tag (tag : string) (st st' : Store) (r : list Place.t) :
  tag <> "" ->
  PlaceModel.findAll (Some tag) st = (st', Ok r) ->
  let db := pool_db st in
  (faults st = [] -> exists s x, PlaceModel.findAll (Some tag) st = (s, Ok x)) /\
  (forall pl, pl ∈ r <->
     exists p, pl = Sql.aggregate_filtered db p /\ p ∈ tbl_places db /\
       exists t, t ∈ tbl_tags db /\ Tag.value t = tag /\
                 (PlaceRow.id p, Tag.id t) ∈ tbl_place_tags db) /\
  (forall pl, pl ∈ r ->
     exists rows,
       Place.tags pl = Tag.value <$> rows /\
       (forall t, t ∈ rows <->
          t ∈ tbl_tags db /\
          (PlaceRow.id (Place.row pl), Tag.id t) ∈ tbl_place_tags db) /\
       rows ≡ₚ Sql.joined_tags db (PlaceRow.id (Place.row pl)) /\
       Sorted (fun a b => (Tag.sort_order a <= Tag.sort_order b)%Z) rows) /\
  Sorted (fun a b => collate (PlaceRow.name (Place.row a))
                             (PlaceRow.name (Place.row b)) = true) r.
Proof.
  intros Htag H db. split.
  { intros Hf. unfold PlaceModel.findAll, query, exec, fails_next. rewrite Hf.
    simpl. eauto. }
  unfold PlaceModel.findAll, query in H. inv_exec H.
  assert (or_null (Some tag) = Some tag) as Hor
    by (destruct tag; [contradiction | reflexivity]).
  rewrite Hor in Hq. unfold Sql.select_places in Hq. injection Hq as _ <-.
  simpl. fold db.
  assert (forall pl,
             pl ∈ order_by Sql.name_le
                    (Sql.aggregate_filtered db <$>
                       filter (fun p => PlaceRow.id p ∈ Sql.place_ids_tagged tag db)
                              (tbl_places db)) <->
             exists p, pl = Sql.aggregate_filtered db p /\ p ∈ tbl_places db /\
               exists t, t ∈ tbl_tags db /\ Tag.value t = tag /\
                         (PlaceRow.id p, Tag.id t) ∈ tbl_place_tags db) as Hmem.
  { intros pl. rewrite order_by_perm, list_elem_of_fmap.
    split.
    - intros (p & -> & Hin). apply list_elem_of_filter in Hin as [Hid Hin].
      apply place_ids_tagged_elem in Hid. eauto.
    - intros (p & -> & Hin & Ht). exists p. split; [reflexivity|].
      apply list_elem_of_filter. split; [|exact Hin].
      apply place_ids_tagged_elem. exact Ht. }
  split; [exact Hmem|]. split.
  - intros pl Hpl. apply Hmem in Hpl as (p & -> & _).
    exists (order_by (Sql.agg_le (PlaceRow.id p))
                     (Sql.joined_tags db (PlaceRow.id p))).
    simpl. split; [reflexivity|]. split; [|split].
    + intros t. rewrite order_by_perm. apply joined_tags_elem.
    + apply order_by_perm.
    + apply order_by_Sorted_key; intros a b; unfold Sql.agg_le; lia.
  - apply (order_by_Sorted Sql.name_le name_le_total).
Qed.

(** ** The tag model: [update] *)

Lemma findById_tag_ok id s s' r :
  TagModel.findById id s = (s', Ok r) ->
  s' = sent s /\ r = head (filter (fun t => Tag.id t = id) (tbl_tags (pool_db s))).
Proof.
  unfold TagModel.findById, query. intros H.
  inv_bind H. inv_exec Hrun. apply ret_ok in H as [-> ->]. subst s0.
  unfold Sql.select_tags_by_id in Hq. simpl in Hq. injection Hq as <- <-.
  split; [destruct s; reflexivity | reflexivity].
Qed.

Lemma updateHasChildren_ok p s s' u :
  TagModel.updateHasChildren p s = (s', Ok u) ->
  tbl_tags (pool_db s') = recomputed_for (Some p) (tbl_tags (pool_db s)) /\
  tbl_places (pool_db s') = tbl_places (pool_db s) /\
  tbl_place_tags (pool_db s') = tbl_place_tags (pool_db s).
Proof.
  unfold TagModel.updateHasChildren, query. intros H. inv_exec H. subst s'.
  unfold Sql.update_has_children in Hq. injection Hq as <- _. simpl. auto.
Qed.

(** Recomputing for an optional id, as the guards [if (oldParentId)] and
    [if (newParentId)] do. *)
Lemma recompute_if_ok (p : option string) s s' u :
  match p with
  | Some i => TagModel.updateHasChildren i
  | None => ret tt
  end s = (s', Ok u) ->
  tbl_tags (pool_db s') = recomputed_for p (tbl_tags (pool_db s)) /\
  tbl_places (pool_db s') = tbl_places (pool_db s) /\
  tbl_place_tags (pool_db s') = tbl_place_tags (pool_db s).
Proof.
  destruct p as [i|]; intros H.
  - apply updateHasChildren_ok in H. exact H.
  - apply ret_ok in H as [-> _]. simpl. auto.
Qed.

Lemma has_child_recomputed p q ts :
  Sql.has_child p (recomputed_for q ts) = Sql.has_child p ts.
Proof.
  destruct q as [i|]; [|reflexivity]. unfold Sql.has_child. simpl.
  apply bool_decide_ext. rewrite Exists_fmap. apply Exists_proper; [|reflexivity].
  intros t. unfold compose. case_decide; reflexivity.
Qed.

(** The tables a completed tag [update] leaves behind. *)
Lemma tag_update_ok id data st st' r old :
  head (filter (fun t => Tag.id t = id) (tbl_tags (pool_db st))) = Some old ->
  TagModel.update id data st = (st', Ok r) ->
  tbl_places (pool_db st') = tbl_places (pool_db st) /\
  tbl_place_tags (pool_db st') = tbl_place_tags (pool_db st) /\
  if decide (length (TagModel.updates_of data) = 0%nat)
  then tbl_tags (pool_db st') = tbl_tags (pool_db st) /\ r = Some old
  else
    let ts1 := (fun t => if decide (Tag.id t = id)
                         then foldl (Sql.assign_tag (S (clock st))) t
                                    (TagModel.updates_of data ++ [Sql.SetUpdatedAtNow])
                         else t) <$> tbl_tags (pool_db st) in
    tbl_tags (pool_db st') =
      match TagPatch.parent_tag_id data with
      | Some p =>
          if decide (Tag.parent_tag_id old <> or_null p)
          then recomputed_for (or_null p)
                 (recomputed_for (or_null (Tag.parent_tag_id old)) ts1)
          else ts1
      | None => ts1
      end.
Proof.
  intros Hold H. unfold TagModel.update in H. inv_bind H.
  apply findById_tag_ok in Hrun as [-> ->]. rewrite Hold in H.
  case_decide as Hlen.
  - apply ret_ok in H as [-> ->]. simpl. auto.
  - inv_bind H. unfold query in Hrun. inv_exec Hrun. subst s.
    unfold Sql.update_tags in Hq. repeat case_decide; try discriminate.
    injection Hq as <- _. inv_bind H. apply ret_ok in H as [-> _].
    destruct (TagPatch.parent_tag_id data) as [p|].
    + case_decide as Hne.
      * inv_bind Hrun. apply recompute_if_ok in Hrun0 as (Ht0 & Hp0 & Hpt0).
        apply recompute_if_ok in Hrun as (Ht & Hp & Hpt).
        rewrite Ht, Hp, Hpt, Ht0, Hp0, Hpt0. simpl. auto.
      * apply ret_ok in Hrun as [-> _]. simpl. auto.
    + apply ret_ok in Hrun as [-> _]. simpl. auto.
Qed.

Lemma updates_of_patched data now t :
  foldl (Sql.assign_tag now) t (TagModel.updates_of data ++ [Sql.SetUpdatedAtNow]) =
  patched data now t.
Proof.
  destruct data as [v d n p]. unfold TagModel.updates_of, patched. simpl.
  destruct v, d, n, p; reflexivity.
Qed.

Lemma updates_of_supplies data :
  length (TagModel.updates_of data) = 0%nat <-> supplies_a_field data = false.
Proof.
  destruct data as [v d n p]. unfold TagModel.updates_of, supplies_a_field. simpl.
  rewrite bool_decide_eq_false.
  destruct v, d, n, p; simpl; split; intros H; try lia; try reflexivity;
    try (exfalso; apply H; eauto 6).
  intros [[? [=]]|[[? [=]]|[[? [=]]|[? [=]]]]].
Qed.

Lemma with_has_children_same t : Tag.with_has_children (Tag.has_children t) t = t.
Proof. destruct t; reflexivity. Qed.

Lemma recomputed_for_fmap p ts :
  recomputed_for p ts =
  (fun t => if decide (Some (Tag.id t) = p)
            then Tag.with_has_children (Sql.has_child (Tag.id t) ts) t else t) <$> ts.
Proof.
  destruct p as [i|]; simpl.
  - apply list_fmap_ext. intros _ t _. cbv beta.
    repeat case_decide; congruence.
  - rewrite <- (list_fmap_id ts) at 1. apply list_fmap_ext. intros _ t _. cbv beta.
    reflexivity.
Qed.

Lemma patched_id data now t : Tag.id (patched data now t) = Tag.id t.
Proof. reflexivity. Qed.

(** The row a tag [update] leaves in place of [t]: patched when it is the
    row updated, and with [has_children] recomputed when it is the old or
    the new parent. *)
Lemma tag_update_row (o n : option string) (hc1 hc2 : string -> bool) (x : Tag.t) :
  (forall i, hc2 i = hc1 i) ->
  (fun t => if decide (Some (Tag.id t) = n)
            then Tag.with_has_children (hc2 (Tag.id t)) t else t)
    ((fun t => if decide (Some (Tag.id t) = o)
               then Tag.with_has_children (hc1 (Tag.id t)) t else t) x) =
  Tag.with_has_children
    (if bool_decide (o = Some (Tag.id x)) || bool_decide (n = Some (Tag.id x))
     then hc1 (Tag.id x) else Tag.has_children x) x.
Proof.
  intros Hhc. cbv beta.
  destruct (decide (Some (Tag.id x) = o)) as [Ho|Ho].
  - rewrite (bool_decide_eq_true_2 (o = Some (Tag.id x))) by congruence. simpl.
    case_decide; [rewrite Hhc|]; reflexivity.
  - rewrite (bool_decide_eq_false_2 (o = Some (Tag.id x))) by congruence. simpl.
    destruct (decide (Some (Tag.id x) = n)) as [Hn|Hn].
    + rewrite (bool_decide_eq_true_2 (n = Some (Tag.id x))) by congruence.
      rewrite Hhc. reflexivity.
    + rewrite (bool_decide_eq_false_2 (n = Some (Tag.id x))) by congruence.
      rewrite with_has_children_same. reflexivity.
Qed.

(** The tag table after a completed [update] that supplies a field. *)
Lemma tag_update_table id data st st' r old :
  head (filter (fun t => Tag.id t = id) (tbl_tags (pool_db st))) = Some old ->
  TagModel.update id data st = (st', Ok r) ->
  length (TagModel.updates_of data) <> 0%nat ->
  let ts1 := (fun t => if decide (Tag.id t = id)
                       then patched data (S (clock st)) t else t)
               <$> tbl_tags (pool_db st) in
  tbl_tags (pool_db st') =
    (fun t => Tag.with_has_children
                (if recomputes old data (Tag.id t)
                 then Sql.has_child (Tag.id t) ts1
                 else Tag.has_children t) t) <$> ts1 /\
  forall i, Sql.has_child i (tbl_tags (pool_db st')) = Sql.has_child i ts1.
Proof.
  intros Hold H Hlen ts1.
  destruct (tag_update_ok _ _ _ _ _ _ Hold H) as (_ & _ & Ht).
  rewrite decide_False in Ht by exact Hlen. cbv zeta in Ht.
  assert ((fun t => if decide (Tag.id t = id)
                    then foldl (Sql.assign_tag (S (clock st))) t
                               (TagModel.updates_of data ++ [Sql.SetUpdatedAtNow])
                    else t) <$> tbl_tags (pool_db st) = ts1) as Hts1.
  { apply list_fmap_ext. intros _ t _. cbv beta.
    case_decide; [apply updates_of_patched | reflexivity]. }
  rewrite Hts1 in Ht. split.
  - rewrite Ht. unfold recomputes.
    destruct (TagPatch.parent_tag_id data) as [p|].
    + case_decide as Hne.
      * rewrite (bool_decide_eq_true_2 _ Hne). simpl.
        rewrite (recomputed_for_fmap (or_null p)),
                (recomputed_for_fmap (or_null (Tag.parent_tag_id old))).
        rewrite <- list_fmap_compose. apply list_fmap_ext. intros _ x _.
        unfold compose.
        refine (tag_update_row (or_null (Tag.parent_tag_id old)) (or_null p)
                  (fun i => Sql.has_child i ts1)
                  (fun i => Sql.has_child i (_ <$> ts1)) x _).
        intros i. rewrite <- recomputed_for_fmap. apply has_child_recomputed.
      * rewrite (bool_decide_eq_false_2 (Tag.parent_tag_id old <> or_null p))
          by (intros Hc; apply Hc, Hne).
        simpl.
        rewrite <- (list_fmap_id ts1) at 1. apply list_fmap_ext. intros _ x _.
        simpl. symmetry. apply with_has_children_same.
    + rewrite <- (list_fmap_id ts1) at 1. apply list_fmap_ext. intros _ x _.
      simpl. symmetry. apply with_has_children_same.
  - intros i. rewrite Ht. destruct (TagPatch.parent_tag_id data) as [p|];
      [case_decide|]; rewrite ?has_child_recomputed; reflexivity.
Qed.

(** C6. A completed tag [update] leaves the places and the tag associations
    alone and writes, over the row of the given id, exactly the fields the
    patch supplies (and [updated_at], when it supplies any).  When the patch
    supplies a parent that differs from the old one, [has_children] of the
    old parent and of the new parent, where there is one, becomes the
    existence check over the new table; no [has_children] changes
    otherwise, in particular when the old and the new parent are equal. *)
Theorem tag_update_patch_and_parents
        (id : string) (data : TagPatch.t) (st st' : Store)
        (r : option Tag.t) (old : Tag.t) :
  head (filter (fun t => Tag.id t = id) (tbl_tags (pool_db st))) = Some old ->
  TagModel.update id data st = (st', Ok r) ->
  tbl_places (pool_db st') = tbl_places (pool_db st) /\
  tbl_place_tags (pool_db st') = tbl_place_tags (pool_db st) /\
  exists now,
    Forall2 (fun t t' =>
               t' = Tag.with_has_children
                      (if recomputes old data (Tag.id t)
                       then Sql.has_child (Tag.id t) (tbl_tags (pool_db st'))
                       else Tag.has_children t)
                      (if decide (Tag.id t = id /\ supplies_a_field data = true)
                       then patched data now t else t))
            (tbl_tags (pool_db st)) (tbl_tags (pool_db st')).
Proof.
  intros Hold H.
  destruct (tag_update_ok _ _ _ _ _ _ Hold H) as (Hp & Hpt & Ht).
  split; [exact Hp|]. split; [exact Hpt|]. exists (S (clock st)).
  case_decide as Hlen.
  - destruct Ht as [Ht _]. rewrite Ht.
    apply updates_of_supplies in Hlen.
    assert (TagPatch.parent_tag_id data = None) as Hnone.
    { unfold supplies_a_field in Hlen. apply bool_decide_eq_false in Hlen.
      destruct (TagPatch.parent_tag_id data); [|reflexivity].
      exfalso. apply Hlen. eauto 6. }
    apply Forall_Forall2_diag, Forall_forall. intros t _.
    unfold recomputes. rewrite Hnone, Hlen.
    rewrite decide_False by (intros [_ [=]]).
    symmetry. apply with_has_children_same.
  - assert (supplies_a_field data = true) as Hsup.
    { destruct (supplies_a_field data) eqn:E; [reflexivity|].
      apply updates_of_supplies in E. contradiction. }
    destruct (tag_update_table _ _ _ _ _ _ Hold H Hlen) as [Hts' Hhc].
    cbv zeta in Hts', Hhc.
    apply (Forall2_impl
             (fun t t' =>
                t' = Tag.with_has_children
                       (if recomputes old data (Tag.id t)
                        then Sql.has_child (Tag.id t)
                               ((fun t => if decide (Tag.id t = id)
                                          then patched data (S (clock st)) t else t)
                                  <$> tbl_tags (pool_db st))
                        else Tag.has_children t)
                       (if decide (Tag.id t = id /\ supplies_a_field data = true)
                        then patched data (S (clock st)) t else t)));
      [|intros t t' ->; rewrite Hhc; reflexivity].
    rewrite Hts'.
    apply Forall2_fmap_r, Forall2_fmap_r, Forall_Forall2_diag, Forall_forall.
    intros t _. unfold compose.
    destruct (decide (Tag.id t = id)) as [Hid|Hid].
    + rewrite decide_True by auto. rewrite patched_id. reflexivity.
    + rewrite decide_False by (intros [? _]; contradiction). reflexivity.
Qed.

Lemma tag_update_patch_and_parents_witness :
  Tag.has_children
    <$> tbl_tags (pool_db (TagModel.update "t2" (parent_only_patch "t3")
                                           (Sample.store [])).1)
  = [false; false; true] /\
  exists now,
    Forall2 (fun t t' =>
               t' = Tag.with_has_children
                      (if recomputes Sample.pizza (parent_only_patch "t3") (Tag.id t)
                       then Sql.has_child (Tag.id t)
                              (tbl_tags (pool_db (TagModel.update "t2"
                                                    (parent_only_patch "t3")
                                                    (Sample.store [])).1))
                       else Tag.has_children t)
                      (if decide (Tag.id t = "t2" /\
                                  supplies_a_field (parent_only_patch "t3") = true)
                       then patched (parent_only_patch "t3") now t else t))
            (tbl_tags (pool_db (Sample.store [])))
            (tbl_tags (pool_db (TagModel.update "t2" (parent_only_patch "t3")
                                                (Sample.store [])).1)).
Proof.
  split; [reflexivity|].
  refine (proj2 (proj2 (tag_update_patch_and_parents
                          "t2" (parent_only_patch "t3") (Sample.store []) _
                          (Some (patched (parent_only_patch "t3") 11 Sample.pizza))
                          Sample.pizza eq_refl _))).
  vm_compute. reflexivity.
Defined.

(** ** Deleting tags: the cascade *)

Lemma cascade_S fuel gone ts :
  Sql.cascade (S fuel) gone ts =
  match filter (Sql.child_of gone) ts with
  | [] => ts
  | hit => Sql.cascade fuel (Tag.id <$> hit)
                       (filter (fun t => ~ Sql.child_of gone t) ts)
  end.
Proof. reflexivity. Qed.

Lemma filter_all_true {A} (l : list A) : filter (fun _ => true = true) l = l.
Proof.
  induction l as [|x l IH]; [reflexivity|].
  rewrite filter_cons_True by reflexivity. congruence.
Qed.

Lemma cascade_elem fuel gone ts t : t ∈ Sql.cascade fuel gone ts -> t ∈ ts.
Proof.
  revert gone ts. induction fuel as [|fuel IH]; intros gone ts; [auto|].
  rewrite cascade_S.
  destruct (filter (Sql.child_of gone) ts) as [|h hit] eqn:Hhit; [auto|].
  intros Hin. apply IH in Hin. apply list_elem_of_filter in Hin as [_ Hin]. exact Hin.
Qed.

(** The survivors of a cascade are picked row by row: the result is a
    filter of the table. *)
Lemma cascade_filter fuel gone ts :
  exists keep : Tag.t -> bool,
    Sql.cascade fuel gone ts = filter (fun t => keep t = true) ts.
Proof.
  revert gone ts. induction fuel as [|fuel IH]; intros gone ts.
  - exists (fun _ => true). symmetry. apply filter_all_true.
  - rewrite cascade_S.
    destruct (filter (Sql.child_of gone) ts) as [|h hit] eqn:Hhit.
    + exists (fun _ => true). symmetry. apply filter_all_true.
    + destruct (IH (Tag.id <$> (h :: hit))
                   (filter (fun t => ~ Sql.child_of gone t) ts)) as [keep ->].
      exists (fun t => keep t && bool_decide (~ Sql.child_of gone t)).
      rewrite list_filter_filter. apply list_filter_iff. intros t.
      rewrite andb_true_iff, bool_decide_eq_true. reflexivity.
Qed.

(** A row that a cascade deletes references a row deleted before it. *)
Lemma cascade_deleted fuel gone ts t :
  t ∈ ts -> t ∉ Sql.cascade fuel gone ts ->
  exists p, Tag.parent_tag_id t = Some p /\
            (p ∈ gone \/
             exists h, h ∈ ts /\ (h ∉ Sql.cascade fuel gone ts) /\ p = Tag.id h).
Proof.
  revert gone ts. induction fuel as [|fuel IH]; intros gone ts Hin Hout;
    [contradiction|].
  rewrite cascade_S in *.
  destruct (filter (Sql.child_of gone) ts) as [|h0 hit] eqn:Hhit; [contradiction|].
  destruct (decide (Sql.child_of gone t)) as [Hc|Hc].
  - unfold Sql.child_of in Hc. destruct (Tag.parent_tag_id t) as [p|]; [|contradiction].
    exists p. auto.
  - assert (t ∈ filter (fun t => ~ Sql.child_of gone t) ts) as Hkeep
      by (apply list_elem_of_filter; auto).
    destruct (IH _ _ Hkeep Hout) as (p & Hp & [Hg|(h & Hh & Hhout & ->)]).
    + exists p. split; [exact Hp|]. right.
      apply list_elem_of_fmap in Hg as (h & -> & Hh). rewrite <- Hhit in Hh.
      apply list_elem_of_filter in Hh as [Hhc Hh].
      exists h. split; [exact Hh|]. split; [|reflexivity].
      intros Hin'. apply cascade_elem, list_elem_of_filter in Hin' as [Hn _].
      contradiction.
    + exists (Tag.id h). split; [exact Hp|]. right. exists h.
      apply list_elem_of_filter in Hh as [_ Hh]. auto.
Qed.

(** With enough rounds no survivor references a deleted row. *)
Lemma cascade_closed fuel gone ts t :
  (length ts <= fuel)%nat -> t ∈ Sql.cascade fuel gone ts ->
  ~ Sql.child_of gone t /\
  forall h, h ∈ ts -> h ∉ Sql.cascade fuel gone ts ->
            Tag.parent_tag_id t <> Some (Tag.id h).
Proof.
  revert gone ts. induction fuel as [|fuel IH]; intros gone ts Hlen Hin.
  - destruct ts; [inversion Hin | simpl in Hlen; lia].
  - rewrite cascade_S in *.
    destruct (filter (Sql.child_of gone) ts) as [|h0 hit] eqn:Hhit.
    + split; [|intros h Hh Hout; contradiction].
      intros Hc. eapply (filter_nil_not_elem_of _ _ t Hhit); eauto.
    + assert (h0 ∈ filter (Sql.child_of gone) ts) as Hh0
        by (rewrite Hhit; left).
      apply list_elem_of_filter in Hh0 as [Hc0 Hh0].
      assert (length (filter (fun t => ~ Sql.child_of gone t) ts) <= fuel)%nat as Hlen'.
      { pose proof (length_filter_lt (fun t => ~ Sql.child_of gone t) ts h0 Hh0) as Hlt.
        specialize (Hlt (fun Hn => Hn Hc0)). lia. }
      destruct (IH _ _ Hlen' Hin) as [Hnc Hcl].
      pose proof (cascade_elem _ _ _ _ Hin) as Hkeep.
      apply list_elem_of_filter in Hkeep as [Hn _].
      split; [exact Hn|]. intros h Hh Hout.
      destruct (decide (Sql.child_of gone h)) as [Hch|Hch].
      * intros Hp. apply Hnc. unfold Sql.child_of. rewrite Hp.
        apply list_elem_of_fmap. exists h. split; [reflexivity|].
        rewrite <- Hhit. apply list_elem_of_filter. auto.
      * apply Hcl; [|exact Hout]. apply list_elem_of_filter. auto.
Qed.

Lemma delete_tag_rows_elem ids ts t :
  t ∈ Sql.delete_tag_rows ids ts -> t ∈ ts /\ Tag.id t ∉ ids.
Proof.
  unfold Sql.delete_tag_rows. intros H. apply cascade_elem in H.
  apply list_elem_of_filter in H as [H1 H2]. auto.
Qed.

Lemma delete_tag_rows_filter ids ts :
  exists keep : Tag.t -> bool,
    Sql.delete_tag_rows ids ts = filter (fun t => keep t = true) ts.
Proof.
  unfold Sql.delete_tag_rows.
  destruct (cascade_filter (length (filter (fun t => Tag.id t ∉ ids) ts))
              (Tag.id <$> filter (fun t => Tag.id t ∈ ids) ts)
              (filter (fun t => Tag.id t ∉ ids) ts)) as [keep ->].
  exists (fun t => keep t && bool_decide (Tag.id t ∉ ids)).
  rewrite list_filter_filter. apply list_filter_iff. intros t.
  rewrite andb_true_iff, bool_decide_eq_true. reflexivity.
Qed.

(** A deleted row is one of those named, or the child of a deleted row. *)
Lemma delete_tag_rows_deleted ids ts t :
  t ∈ ts -> t ∉ Sql.delete_tag_rows ids ts ->
  Tag.id t ∈ ids \/
  exists h, h ∈ ts /\ (h ∉ Sql.delete_tag_rows ids ts) /\
            Tag.parent_tag_id t = Some (Tag.id h).
Proof.
  intros Hin Hout. destruct (decide (Tag.id t ∈ ids)) as [Hid|Hid]; [auto|right].
  unfold Sql.delete_tag_rows in *.
  assert (t ∈ filter (fun t => Tag.id t ∉ ids) ts) as Hkeep
    by (apply list_elem_of_filter; auto).
  destruct (cascade_deleted _ _ _ _ Hkeep Hout) as (p & Hp & [Hg|(h & Hh & Hhout & ->)]).
  - apply list_elem_of_fmap in Hg as (h & -> & Hh).
    apply list_elem_of_filter in Hh as [Hhid Hh].
    exists h. split; [exact Hh|]. split; [|exact Hp].
    intros Hin'. apply cascade_elem, list_elem_of_filter in Hin' as [Hn _].
    contradiction.
  - exists h. apply list_elem_of_filter in Hh as [_ Hh]. auto.
Qed.

(** No surviving row references a deleted row. *)
Lemma delete_tag_rows_closed ids ts t h :
  t ∈ Sql.delete_tag_rows ids ts -> h ∈ ts -> h ∉ Sql.delete_tag_rows ids ts ->
  Tag.parent_tag_id t <> Some (Tag.id h).
Proof.
  unfold Sql.delete_tag_rows. intros Hin Hh Hout.
  destruct (cascade_closed _ _ _ _ (le_n _) Hin) as [Hnc Hcl].
  destruct (decide (Tag.id h ∈ ids)) as [Hid|Hid].
  - intros Hp. apply Hnc. unfold Sql.child_of. rewrite Hp.
    apply list_elem_of_fmap. exists h. split; [reflexivity|].
    apply list_elem_of_filter. auto.
  - apply Hcl; [|exact Hout]. apply list_elem_of_filter. auto.
Qed.

(** ** The tag model: [delete] *)

Lemma head_filter_Some {A} (P : A -> Prop) `{!forall x, Decision (P x)} (l : list A) x :
  head (filter P l) = Some x -> x ∈ l /\ P x.
Proof.
  intros Hhd. apply head_Some_elem_of, list_elem_of_filter in Hhd as [H1 H2]. auto.
Qed.

Lemma head_filter_None {A} (P : A -> Prop) `{!forall x, Decision (P x)} (l : list A) x :
  head (filter P l) = None -> x ∈ l -> ~ P x.
Proof.
  intros Hhd Hin HP.
  assert (x ∈ filter P l) as Hx by (apply list_elem_of_filter; auto).
  destruct (filter P l); [inversion Hx | discriminate].
Qed.

Lemma elem_of_length_pos {A} (l : list A) x : x ∈ l -> (0 < length l)%nat.
Proof. destruct l; [inversion 1 | simpl; lia]. Qed.

(** The tables a completed tag [delete] leaves behind. *)
Lemma tag_delete_ok id st st' b :
  TagModel.delete id st = (st', Ok b) ->
  match head (filter (fun t => Tag.id t = id) (tbl_tags (pool_db st))) with
  | None => pool_db st' = pool_db st /\ b = false
  | Some old =>
      let ts := tbl_tags (pool_db st) in
      let rows := Sql.delete_tag_rows [id] ts in
      tbl_tags (pool_db st') = recomputed_for (or_null (Tag.parent_tag_id old)) rows /\
      tbl_places (pool_db st') = tbl_places (pool_db st) /\
      tbl_place_tags (pool_db st') =
        filter (fun pt => pt.2 ∉ filter (fun i => i ∉ Tag.id <$> rows) (Tag.id <$> ts))
               (filter (fun pt => pt.2 <> id) (tbl_place_tags (pool_db st))) /\
      b = true
  end.
Proof.
  unfold TagModel.delete. intros H. inv_bind H.
  apply findById_tag_ok in Hrun as [-> ->].
  destruct (head _) as [old|] eqn:Hold.
  - unfold query in H. inv_bind H. inv_exec Hrun. subst s.
    unfold Sql.delete_place_tags_by_tag in Hq. injection Hq as <- _.
    inv_bind H. inv_exec Hrun. subst s.
    unfold Sql.delete_tags in Hq. injection Hq as <- <-. simpl in *.
    inv_bind H. apply ret_ok in H as [-> ->].
    apply recompute_if_ok in Hrun as (Ht & Hp & Hpt). simpl in *.
    rewrite Ht, Hp, Hpt. repeat split.
    apply bool_decide_eq_true. apply head_filter_Some in Hold as [Hin Hid].
    assert (old ∈ filter (fun t => Tag.id t ∈ [id]) (tbl_tags (pool_db st))) as Hx.
    { apply list_elem_of_filter. split; [|exact Hin]. rewrite Hid. left. }
    exact (elem_of_length_pos _ _ Hx).
  - apply ret_ok in H as [-> ->]. split; [destruct st|]; reflexivity.
Qed.

Lemma recomputed_for_ids p ts : Tag.id <$> recomputed_for p ts = Tag.id <$> ts.
Proof.
  destruct p as [i|]; [|reflexivity]. simpl. rewrite <- list_fmap_compose.
  apply list_fmap_ext. intros _ t _. unfold compose. case_decide; reflexivity.
Qed.

Lemma recomputed_for_elem p ts t :
  t ∈ recomputed_for p ts ->
  exists t0, t0 ∈ ts /\ Tag.id t = Tag.id t0 /\
             Tag.parent_tag_id t = Tag.parent_tag_id t0 /\
             (p = Some (Tag.id t0) -> Tag.has_children t = Sql.has_child (Tag.id t0) ts).
Proof.
  rewrite recomputed_for_fmap. intros H.
  apply list_elem_of_fmap in H as (t0 & -> & Hin). exists t0.
  split; [exact Hin|]. case_decide as Hp; repeat split; try congruence.
Qed.

Lemma db_ok_parent db t p :
  Sql.db_ok db -> t ∈ tbl_tags db -> Tag.parent_tag_id t = Some p ->
  p <> "" /\ exists h, h ∈ tbl_tags db /\ Tag.id h = p.
Proof.
  intros ((_ & _ & Hall) & _) Hin Hp.
  rewrite Forall_forall in Hall. destruct (Hall t Hin) as [_ Href].
  specialize (Href p Hp). apply list_elem_of_fmap in Href as (h & -> & Hh).
  split; [|eauto]. apply (Hall h Hh).
Qed.

Lemma db_ok_same_id db t u :
  Sql.db_ok db -> t ∈ tbl_tags db -> u ∈ tbl_tags db -> Tag.id t = Tag.id u -> t = u.
Proof.
  intros ((Hnd & _) & _) Ht Hu Hid.
  apply list_elem_of_lookup in Ht as [i Hi]. apply list_elem_of_lookup in Hu as [j Hj].
  assert (i = j) as ->.
  { eapply NoDup_lookup; [exact Hnd| |]; rewrite list_lookup_fmap.
    - rewrite Hi. reflexivity.
    - rewrite Hj. simpl. rewrite Hid. reflexivity. }
  congruence.
Qed.

Lemma has_child_true p ts :
  Sql.has_child p ts = true <-> exists u, u ∈ ts /\ Tag.parent_tag_id u = Some p.
Proof. unfold Sql.has_child. rewrite bool_decide_eq_true, Exists_exists. reflexivity. Qed.

(** After [DELETE FROM tags WHERE id = $1] on a table that satisfies its
    constraints, every reference of a survivor is to a survivor. *)
Lemma delete_tag_rows_references db ids t :
  Sql.db_ok db -> t ∈ Sql.delete_tag_rows ids (tbl_tags db) ->
  Sql.references (Tag.id <$> Sql.delete_tag_rows ids (tbl_tags db))
                 (Tag.parent_tag_id t).
Proof.
  intros Hok Hin p Hp.
  destruct (delete_tag_rows_elem _ _ _ Hin) as [Hts _].
  destruct (db_ok_parent _ _ _ Hok Hts Hp) as (_ & h & Hh & <-).
  destruct (decide (h ∈ Sql.delete_tag_rows ids (tbl_tags db))) as [Hs|Hs].
  - apply list_elem_of_fmap. eauto.
  - exfalso. exact (delete_tag_rows_closed _ _ _ _ Hin Hh Hs Hp).
Qed.

(** Without storage failures a tag [delete] runs to its end: no statement
    it sends can be refused. *)
Lemma tag_delete_returns id st :
  faults st = [] -> exists s r, TagModel.delete id st = (s, Ok r).
Proof.
  intros Hf. destruct st as [pdb cdb fs clk seed]. simpl in Hf. subst fs.
  unfold TagModel.delete, TagModel.findById, TagModel.updateHasChildren, bind,
    query, exec, ret. simpl.
  destruct (head _) as [old|]; simpl; [|eauto].
  destruct (or_null (Tag.parent_tag_id old)); simpl; eauto.
Qed.

(** C8. A tag [delete] returns when the store does not fail, and a
    completed one returns true exactly when a tag of that id existed.
    Afterwards no tag has that id; the surviving tags are old rows
    with at most [has_children] changed, and the parent of each is a
    surviving tag, so the children, and theirs, went with the tag; a row is
    gone only if it is the tag or the child of a row that is gone.  The tag
    associations left are old ones, none of them names the tag and each
    names a surviving tag; an association is gone only if its tag is.
    [has_children] of the former parent is the existence check over the new
    table, and the places are untouched. *)
Theorem tag_delete_removes_tag_children_and_associations
        (id : string) (st st' : Store) (b : bool) :
  Sql.db_ok (pool_db st) ->
  TagModel.delete id st = (st', Ok b) ->
  let db := pool_db st in
  let db' := pool_db st' in
  (faults st = [] -> forall i, exists s r, TagModel.delete i st = (s, Ok r)) /\
  (b = true <-> exists t, t ∈ tbl_tags db /\ Tag.id t = id) /\
  (forall t, t ∈ tbl_tags db' ->
     Tag.id t <> id /\ Tag.parent_tag_id t <> Some id /\
     Sql.references (Tag.id <$> tbl_tags db') (Tag.parent_tag_id t) /\
     exists t0, t0 ∈ tbl_tags db /\ t = Tag.with_has_children (Tag.has_children t) t0) /\
  (forall t0, t0 ∈ tbl_tags db -> Tag.id t0 ∉ Tag.id <$> tbl_tags db' ->
     Tag.id t0 = id \/
     exists h, h ∈ tbl_tags db /\ (Tag.id h ∉ Tag.id <$> tbl_tags db') /\
               Tag.parent_tag_id t0 = Some (Tag.id h)) /\
  (forall pt, pt ∈ tbl_place_tags db' ->
     pt ∈ tbl_place_tags db /\ pt.2 <> id /\ pt.2 ∈ Tag.id <$> tbl_tags db') /\
  (forall pt, pt ∈ tbl_place_tags db -> pt.2 ∈ Tag.id <$> tbl_tags db' ->
     pt ∈ tbl_place_tags db') /\
  (forall old p T,
     old ∈ tbl_tags db -> Tag.id old = id -> Tag.parent_tag_id old = Some p ->
     T ∈ tbl_tags db' -> Tag.id T = p ->
     (Tag.has_children T = true <->
      exists u, u ∈ tbl_tags db' /\ Tag.parent_tag_id u = Some p)) /\
  tbl_places db' = tbl_places db.
Proof.
  intros Hok H db db'. split; [intros Hf i; apply tag_delete_returns, Hf|].
  apply tag_delete_ok in H. fold db in H.
  destruct (head _) as [old|] eqn:Hold.
  - cbv zeta in H. destruct H as (Ht & Hp & Hpt & ->). fold db' in Ht, Hp, Hpt.
    apply head_filter_Some in Hold as [Hin Hid].
    set (rows := Sql.delete_tag_rows [id] (tbl_tags db)) in *.
    assert (forall t, t ∈ tbl_tags db' ->
              exists t0, t0 ∈ rows /\ t = Tag.with_has_children (Tag.has_children t) t0)
      as Hsurv.
    { intros t Hin'. rewrite Ht, recomputed_for_fmap in Hin'.
      apply list_elem_of_fmap in Hin' as (t0 & -> & Ht0). exists t0.
      split; [exact Ht0|]. case_decide; [reflexivity|].
      symmetry. apply with_has_children_same. }
    assert (Tag.id <$> tbl_tags db' = Tag.id <$> rows) as Hids
      by (rewrite Ht; apply recomputed_for_ids).
    assert (forall h, h ∈ tbl_tags db -> Tag.id h ∉ Tag.id <$> rows -> h ∉ rows) as Hout.
    { intros h _ Hn Hc. apply Hn, list_elem_of_fmap. eauto. }
    assert (forall h, h ∈ tbl_tags db -> h ∉ rows -> Tag.id h ∉ Tag.id <$> rows) as Hout'.
    { intros h Hh Hn Hc. apply list_elem_of_fmap in Hc as (h' & Hid' & Hh').
      destruct (delete_tag_rows_elem _ _ _ Hh') as [Hh'in _].
      assert (h = h') as -> by (eapply db_ok_same_id; eauto). contradiction. }
    split; [split; eauto|]. split; [|split; [|split; [|split; [|split]]]].
    + intros t Hin'. destruct (Hsurv t Hin') as (t0 & Ht0 & Heq).
      assert (Tag.id t = Tag.id t0) as Hid0 by (rewrite Heq; reflexivity).
      assert (Tag.parent_tag_id t = Tag.parent_tag_id t0) as Hp0
        by (rewrite Heq; reflexivity).
      rewrite Hid0, Hp0, Hids.
      pose proof (delete_tag_rows_references db [id] t0 Hok Ht0) as Href.
      destruct (delete_tag_rows_elem _ _ _ Ht0) as [Ht0in Hnot].
      split; [intros Heq'; apply Hnot; rewrite Heq'; left|].
      split; [|split; [exact Href | eauto]].
      intros Hpar. apply Href in Hpar.
      apply list_elem_of_fmap in Hpar as (h & Hh & Hhin).
      apply delete_tag_rows_elem in Hhin as [_ Hhn]. apply Hhn. rewrite <- Hh. left.
    + intros t0 Ht0 Hgone. rewrite Hids in Hgone |- *.
      destruct (delete_tag_rows_deleted [id] _ _ Ht0 (Hout _ Ht0 Hgone))
        as [Hd|(h & Hh & Hhout & Hph)].
      * left. apply list_elem_of_singleton in Hd. exact Hd.
      * right. exists h. auto.
    + intros pt Hin'. rewrite Hpt in Hin'.
      apply list_elem_of_filter in Hin' as [Hgone Hin'].
      apply list_elem_of_filter in Hin' as [Hne Hin'].
      split; [exact Hin'|]. split; [exact Hne|]. rewrite Hids.
      destruct Hok as (_ & _ & _ & Hfk). rewrite Forall_forall in Hfk.
      destruct (Hfk pt Hin') as [_ Htag]. fold db in Htag.
      destruct (decide (pt.2 ∈ Tag.id <$> rows)) as [Hs|Hs]; [exact Hs|].
      exfalso. apply Hgone. apply list_elem_of_filter. auto.
    + intros pt Hin' Hs. rewrite Hids in Hs. rewrite Hpt.
      apply list_elem_of_filter. split.
      * intros Hc. apply list_elem_of_filter in Hc as [Hc _]. contradiction.
      * apply list_elem_of_filter. split; [|exact Hin'].
        intros Heq. apply list_elem_of_fmap in Hs as (h & Hh & Hhin).
        apply delete_tag_rows_elem in Hhin as [_ Hhn]. apply Hhn.
        rewrite <- Hh, Heq. left.
    + intros old' p T Hin' Hid' Hpar HT HidT.
      assert (old' = old) as -> by (eapply db_ok_same_id; eauto; congruence).
      destruct (db_ok_parent _ _ _ Hok Hin Hpar) as [Hne _].
      assert (or_null (Some p) = Some p) as Hor by (destruct p; [contradiction | reflexivity]).
      rewrite Hpar, Hor in Ht. rewrite Ht in HT.
      apply recomputed_for_elem in HT as (t0 & _ & Hid0 & _ & Hflag).
      rewrite Hflag by congruence. rewrite <- Hid0, HidT.
      rewrite <- (has_child_recomputed p (Some p) rows), <- Ht.
      apply has_child_true.
    + exact Hp.
  - destruct H as [Hdb ->]. unfold db'. rewrite Hdb. fold db.
    assert (forall t, t ∈ tbl_tags db -> Tag.id t <> id) as Hnone
      by (intros t Hin; exact (head_filter_None _ _ t Hold Hin)).
    split; [split; [discriminate | intros (t & Hin & Hid); exfalso; eapply Hnone; eauto]|].
    split; [|split; [|split; [|split; [|split]]]].
    + intros t Hin. split; [auto|]. split; [|split].
      * intros Hpar. destruct (db_ok_parent _ _ _ Hok Hin Hpar) as (_ & h & Hh & Hid).
        exact (Hnone h Hh Hid).
      * destruct Hok as ((_ & _ & Hall) & _). rewrite Forall_forall in Hall.
        apply (Hall t Hin).
      * exists t. split; [exact Hin|]. symmetry. apply with_has_children_same.
    + intros t0 Ht0 Hgone. exfalso. apply Hgone, list_elem_of_fmap. eauto.
    + intros pt Hin. destruct Hok as (_ & _ & _ & Hfk). rewrite Forall_forall in Hfk.
      destruct (Hfk pt Hin) as [_ Htag]. split; [exact Hin|]. split; [|exact Htag].
      apply list_elem_of_fmap in Htag as (h & -> & Hh). auto.
    + auto.
    + intros old p T Hin Hid. exfalso. exact (Hnone old Hin Hid).
    + reflexivity.
Qed.

Lemma tag_delete_removes_tag_children_and_associations_witness :
  (TagModel.delete "t1" (Sample.store [])).2 = Ok true /\
  tbl_tags (pool_db (TagModel.delete "t1" (Sample.store [])).1) = [Sample.drinks] /\
  tbl_place_tags (pool_db (TagModel.delete "t1" (Sample.store [])).1) = [] /\
  (forall pt,
      pt ∈ tbl_place_tags (pool_db (TagModel.delete "t1" (Sample.store [])).1) ->
      pt ∈ tbl_place_tags Sample.db /\ pt.2 <> "t1" /\
      pt.2 ∈ Tag.id <$> tbl_tags (pool_db (TagModel.delete "t1" (Sample.store [])).1)).
Proof.
  split; [reflexivity|]. split; [reflexivity|]. split; [reflexivity|].
  refine (proj1 (proj2 (proj2 (proj2 (proj2
            (tag_delete_removes_tag_children_and_associations
               "t1" (Sample.store []) _ true _ _)))))).
  - apply (bool_decide_unpack _). vm_compute. exact I.
  - vm_compute. reflexivity.
Defined.

(** ** The [has_children] flag *)

Lemma children_ids_fmap i (f : Tag.t -> Tag.t) ts :
  (forall t, t ∈ ts ->
     Tag.id (f t) = Tag.id t /\
     (Tag.parent_tag_id (f t) = Some i <-> Tag.parent_tag_id t = Some i)) ->
  children_ids i (f <$> ts) = children_ids i ts.
Proof.
  unfold children_ids. induction ts as [|t ts IH]; intros Hf; [reflexivity|].
  destruct (Hf t) as [Hid Hpar]; [left|].
  assert (forall u, u ∈ ts ->
            Tag.id (f u) = Tag.id u /\
            (Tag.parent_tag_id (f u) = Some i <-> Tag.parent_tag_id u = Some i)) as Hf'
    by (intros u Hu; apply Hf; right; exact Hu).
  specialize (IH Hf'). rewrite fmap_cons.
  rewrite (filter_cons (fun t => Tag.parent_tag_id t = Some i) (f t)).
  rewrite (filter_cons (fun t => Tag.parent_tag_id t = Some i) t).
  destruct (decide (Tag.parent_tag_id t = Some i)) as [Hp|Hp].
  - rewrite decide_True by (apply Hpar; exact Hp). simpl. rewrite Hid. f_equal. exact IH.
  - rewrite decide_False by (intros Hc; apply Hp, Hpar, Hc). exact IH.
Qed.

Lemma children_ids_recomputed i p ts :
  children_ids i (recomputed_for p ts) = children_ids i ts.
Proof.
  rewrite recomputed_for_fmap. apply children_ids_fmap. intros t _.
  case_decide; split; reflexivity.
Qed.

Lemma filter_ext_elem {A} (P Q : A -> Prop)
      `{!forall x, Decision (P x), !forall x, Decision (Q x)} (l : list A) :
  (forall x, x ∈ l -> P x <-> Q x) -> filter P l = filter Q l.
Proof.
  induction l as [|x l IH]; intros Hpq; [reflexivity|].
  rewrite (filter_cons P), (filter_cons Q).
  rewrite IH by (intros y Hy; apply Hpq; right; exact Hy).
  apply decide_ext, Hpq. left.
Qed.

(** When a filter of the table changes a child set, it drops a child. *)
Lemma children_ids_filter i (keep : Tag.t -> bool) ts :
  children_ids i ts <> children_ids i (filter (fun t => keep t = true) ts) ->
  exists d, d ∈ ts /\ Tag.parent_tag_id d = Some i /\ keep d <> true.
Proof.
  intros Hne.
  destruct (decide (Forall (fun t => Tag.parent_tag_id t = Some i -> keep t = true) ts))
    as [Hall|Hex].
  - exfalso. apply Hne. unfold children_ids. f_equal.
    rewrite list_filter_filter. apply filter_ext_elem.
    rewrite Forall_forall in Hall. intros t Ht.
    split; [intros Hp; split; [exact Hp | apply Hall; auto] | intros [Hp _]; exact Hp].
  - apply not_Forall_Exists in Hex; [|apply _].
    apply Exists_exists in Hex as (d & Hd & Hnot).
    exists d. split; [exact Hd|].
    destruct (decide (Tag.parent_tag_id d = Some i)) as [Hp|Hp].
    + split; [exact Hp|]. intros Hk. apply Hnot. intros _. exact Hk.
    + exfalso. apply Hnot. intros Hc. contradiction.
Qed.

(** The tag table after a completed [create]. *)
Lemma tag_create_ok data st st' r :
  TagModel.create data st = (st', Ok r) ->
  exists row,
    Tag.parent_tag_id row = or_null (mjoin (TagInput.parent_tag_id data)) /\
    tbl_tags (pool_db st') =
      recomputed_for (or_null (mjoin (TagInput.parent_tag_id data)))
                     (tbl_tags (pool_db st) ++ [row]).
Proof.
  unfold TagModel.create, query. intros H. inv_bind H. inv_exec Hrun. subst s.
  unfold Sql.insert_tag in Hq. repeat case_decide; try discriminate.
  injection Hq as <- _. inv_bind H. apply ret_ok in H as [-> _].
  apply recompute_if_ok in Hrun as (Ht & _). simpl in Ht.
  eexists. split; [|exact Ht]. reflexivity.
Qed.

Lemma tag_update_missing id data st st' r :
  head (filter (fun t => Tag.id t = id) (tbl_tags (pool_db st))) = None ->
  TagModel.update id data st = (st', Ok r) ->
  pool_db st' = pool_db st.
Proof.
  intros Hnone H. unfold TagModel.update in H. inv_bind H.
  apply findById_tag_ok in Hrun as [-> ->]. rewrite Hnone in H.
  apply ret_ok in H as [-> _]. reflexivity.
Qed.

Lemma has_children_after_create data st st' r T :
  TagModel.create data st = (st', Ok r) ->
  T ∈ tbl_tags (pool_db st') ->
  children_ids (Tag.id T) (tbl_tags (pool_db st))
    <> children_ids (Tag.id T) (tbl_tags (pool_db st')) ->
  Tag.has_children T = Sql.has_child (Tag.id T) (tbl_tags (pool_db st')).
Proof.
  intros H HT Hne. apply tag_create_ok in H as (row & Hrow & Ht).
  rewrite Ht in HT, Hne |- *. rewrite children_ids_recomputed in Hne.
  rewrite has_child_recomputed.
  apply recomputed_for_elem in HT as (t0 & _ & Hid & _ & Hflag).
  rewrite Hid in *. apply Hflag. rewrite <- Hrow.
  destruct (decide (Tag.parent_tag_id row = Some (Tag.id t0))) as [Hp|Hp]; [exact Hp|].
  exfalso. apply Hne. unfold children_ids.
  rewrite filter_app.
  rewrite (filter_cons (fun t => Tag.parent_tag_id t = Some (Tag.id t0)) row).
  rewrite decide_False by exact Hp. rewrite filter_nil, app_nil_r. reflexivity.
Qed.

Lemma has_children_after_update id data st st' r T :
  Sql.db_ok (pool_db st) ->
  TagModel.update id data st = (st', Ok r) ->
  T ∈ tbl_tags (pool_db st') ->
  children_ids (Tag.id T) (tbl_tags (pool_db st))
    <> children_ids (Tag.id T) (tbl_tags (pool_db st')) ->
  Tag.has_children T = Sql.has_child (Tag.id T) (tbl_tags (pool_db st')).
Proof.
  intros Hok H HT Hne.
  destruct (head (filter (fun t => Tag.id t = id) (tbl_tags (pool_db st))))
    as [old|] eqn:Hold.
  2: { apply (tag_update_missing _ _ _ _ _ Hold) in H. rewrite H in Hne.
       contradiction. }
  destruct (decide (length (TagModel.updates_of data) = 0%nat)) as [Hlen|Hlen].
  { destruct (tag_update_ok _ _ _ _ _ _ Hold H) as (_ & _ & Ht).
    rewrite decide_True in Ht by exact Hlen. destruct Ht as [Ht _].
    rewrite Ht in Hne. contradiction. }
  destruct (tag_update_table _ _ _ _ _ _ Hold H Hlen) as [Hts' Hhc].
  cbv zeta in Hts', Hhc. rewrite Hhc.
  set (ts1 := (fun t => if decide (Tag.id t = id)
                        then patched data (S (clock st)) t else t)
                <$> tbl_tags (pool_db st)) in *.
  rewrite Hts' in HT, Hne.
  apply list_elem_of_fmap in HT as (t1 & -> & Ht1). simpl.
  destruct (recomputes old data (Tag.id t1)) eqn:Hrec; [reflexivity|].
  exfalso. apply Hne. simpl.
  rewrite (children_ids_fmap (Tag.id t1) _ ts1) by (intros t _; split; reflexivity).
  symmetry. apply children_ids_fmap. intros t Ht.
  destruct (decide (Tag.id t = id)) as [Hid|Hid]; [|split; reflexivity].
  split; [reflexivity|].
  apply head_filter_Some in Hold as [Hin Hido].
  assert (t = old) as -> by (eapply db_ok_same_id; eauto; congruence).
  unfold patched, recomputes in *. simpl.
  destruct (TagPatch.parent_tag_id data) as [p|]; [|reflexivity].
  apply andb_false_iff in Hrec as [Hsame|Hnot].
  - apply bool_decide_eq_false in Hsame.
    destruct (decide (Tag.parent_tag_id old = or_null p)) as [->|Hd];
      [reflexivity | contradiction].
  - apply orb_false_iff in Hnot as [Ho Hn].
    apply bool_decide_eq_false in Ho, Hn.
    split; [contradiction|]. intros Hp. exfalso. apply Ho. rewrite Hp.
    destruct (db_ok_parent _ _ _ Hok Hin Hp) as [Hne' _].
    destruct (Tag.id t1); [contradiction | reflexivity].
Qed.

Lemma has_children_after_delete id st st' b T :
  Sql.db_ok (pool_db st) ->
  TagModel.delete id st = (st', Ok b) ->
  T ∈ tbl_tags (pool_db st') ->
  children_ids (Tag.id T) (tbl_tags (pool_db st))
    <> children_ids (Tag.id T) (tbl_tags (pool_db st')) ->
  Tag.has_children T = Sql.has_child (Tag.id T) (tbl_tags (pool_db st')).
Proof.
  intros Hok H HT Hne. apply tag_delete_ok in H.
  destruct (head _) as [old|] eqn:Hold.
  2: { destruct H as [H _]. rewrite H in Hne. contradiction. }
  cbv zeta in H. destruct H as (Ht & _).
  apply head_filter_Some in Hold as [Hin Hid].
  set (ts := tbl_tags (pool_db st)) in *.
  rewrite Ht in HT, Hne |- *. rewrite children_ids_recomputed in Hne.
  rewrite has_child_recomputed.
  apply recomputed_for_elem in HT as (t0 & Ht0 & HidT & _ & Hflag).
  rewrite HidT in *. apply Hflag.
  destruct (delete_tag_rows_filter [id] ts) as [keep Hkeep].
  rewrite Hkeep in Hne. apply children_ids_filter in Hne as (d & Hd & Hpar & Hgone).
  assert (d ∉ Sql.delete_tag_rows [id] ts) as Hdout.
  { rewrite Hkeep. intros Hc. apply list_elem_of_filter in Hc as [Hc _]. contradiction. }
  destruct (delete_tag_rows_deleted _ _ _ Hd Hdout) as [Hdid|(h & Hh & Hhout & Hph)].
  - apply list_elem_of_singleton in Hdid.
    assert (d = old) as -> by (eapply db_ok_same_id; eauto; congruence).
    rewrite Hpar. destruct (db_ok_parent _ _ _ Hok Hin Hpar) as [Hne' _].
    destruct (Tag.id t0); [contradiction | reflexivity].
  - exfalso. apply Hhout.
    destruct (delete_tag_rows_elem _ _ _ Ht0) as [Ht0in _].
    assert (t0 = h) as <- by (eapply db_ok_same_id; eauto; congruence).
    exact Ht0.
Qed.

(** C1 (amended). After a completed tag create, update or delete, every tag
    whose child set the operation changed has [has_children] true exactly
    when some tag's [parent_tag_id] is its id: the flag is the existence
    check over the new table, which counts the tag itself when it is its
    own parent. *)
Theorem has_children_is_existence_check (st st' : Store) (T : Tag.t) :
  Sql.db_ok (pool_db st) ->
  tag_write st st' ->
  T ∈ tbl_tags (pool_db st') ->
  children_ids (Tag.id T) (tbl_tags (pool_db st))
    <> children_ids (Tag.id T) (tbl_tags (pool_db st')) ->
  (Tag.has_children T = true <->
   exists u, u ∈ tbl_tags (pool_db st') /\ Tag.parent_tag_id u = Some (Tag.id T)).
Proof.
  intros Hok Hw HT Hne. rewrite <- has_child_true.
  destruct Hw as [data r H|id data r H|id b H].
  - rewrite (has_children_after_create _ _ _ _ _ H HT Hne). reflexivity.
  - rewrite (has_children_after_update _ _ _ _ _ _ Hok H HT Hne). reflexivity.
  - rewrite (has_children_after_delete _ _ _ _ _ Hok H HT Hne). reflexivity.
Qed.

Ltac by_evaluation := apply (bool_decide_unpack _); vm_compute; exact I.

Lemma has_children_is_existence_check_witness :
  Tag.has_children (Tag.with_has_children true Sample.drinks) = true <->
  exists u, u ∈ tbl_tags (pool_db pizza_moved) /\ Tag.parent_tag_id u = Some "t3".
Proof.
  apply (has_children_is_existence_check
           (Sample.store []) pizza_moved (Tag.with_has_children true Sample.drinks)).
  - by_evaluation.
  - apply (write_update _ _ "t2" (parent_only_patch "t3")
             (Some (patched (parent_only_patch "t3") 11 Sample.pizza))).
    vm_compute. reflexivity.
  - by_evaluation.
  - by_evaluation.
Defined.

(** C1 as stated fails: a tag made its own parent is flagged, though no
    other tag has it as parent. *)
Lemma has_children_counts_the_tag_itself :
  Sql.db_ok (pool_db (Sample.store [])) /\
  tag_write (Sample.store []) self_parented /\
  drinks_self_parented ∈ tbl_tags (pool_db self_parented) /\
  children_ids "t3" (tbl_tags (pool_db (Sample.store [])))
    <> children_ids "t3" (tbl_tags (pool_db self_parented)) /\
  Tag.has_children drinks_self_parented = true /\
  ~ exists u, u ∈ tbl_tags (pool_db self_parented) /\
              u <> drinks_self_parented /\
              Tag.parent_tag_id u = Some (Tag.id drinks_self_parented).
Proof.
  split; [by_evaluation|]. split.
  { apply (write_update _ _ "t3" (parent_only_patch "t3") (Some
             (Tag.mk "t3" "drinks" "Drinks" 2 (Some "t3") false 0 11))).
    vm_compute. reflexivity. }
  split; [by_evaluation|]. split; [by_evaluation|]. split; [reflexivity|].
  intros (u & Hu & Hne & Hp).
  assert (Exists (fun u => u <> drinks_self_parented /\
                           Tag.parent_tag_id u = Some (Tag.id drinks_self_parented))
                 (tbl_tags (pool_db self_parented))) as Hex
    by (apply Exists_exists; eauto).
  revert Hex. by_evaluation.
Qed.

(** ** Transactions *)

Lemma keeps_committed_ret {A} (a : A) : keeps_committed (ret a).
Proof. intros s s' r [= <- _]. reflexivity. Qed.

Lemma keeps_committed_bind {A B} (m : M A) (k : A -> M B) :
  keeps_committed m -> (forall a, keeps_committed (k a)) -> keeps_committed (bind m k).
Proof.
  intros Hm Hk s s' r. unfold bind. destruct (m s) as [s1 [a|e]] eqn:Hms.
  - intros Hks. rewrite (Hk a _ _ _ Hks). eapply Hm, Hms.
  - intros [= <- _]. eapply Hm, Hms.
Qed.

Lemma keeps_committed_client {A} (q : Sql.statement A) :
  keeps_committed (client_query q).
Proof.
  intros s s' r. unfold client_query, exec. destruct (fails_next s).
  - intros [= <- _]. reflexivity.
  - destruct (q _ _ _) as [[db a]|e]; intros [= <- _]; reflexivity.
Qed.

(** A statement through the pool that only reads. *)
Lemma keeps_committed_read {A} (q : Sql.statement A) :
  (forall now i db db' a, q now i db = Ok (db', a) -> db' = db) ->
  keeps_committed (query q).
Proof.
  intros Hread s s' r. unfold query, exec. destruct (fails_next s).
  - intros [= <- _]. reflexivity.
  - destruct (q _ _ _) as [[db a]|e] eqn:Hq; intros [= <- _]; [|reflexivity].
    simpl. eapply Hread, Hq.
Qed.

Lemma keeps_committed_for_each {A} (l : list A) (body : A -> M unit) :
  (forall x, keeps_committed (body x)) -> keeps_committed (for_each l body).
Proof.
  intros Hbody. induction l as [|x l IH]; simpl.
  - apply keeps_committed_ret.
  - apply keeps_committed_bind; [apply Hbody | intros _; exact IH].
Qed.

Lemma keeps_committed_findById id : keeps_committed (PlaceModel.findById id).
Proof.
  apply keeps_committed_bind; [|intros; apply keeps_committed_ret].
  apply keeps_committed_read. unfold Sql.select_place_by_id.
  intros now i db db' a [= <- _]. reflexivity.
Qed.

Lemma keeps_committed_setTags placeId tagValues :
  keeps_committed (PlaceModel.setTags placeId tagValues).
Proof.
  apply keeps_committed_bind; [apply keeps_committed_client|]. intros _.
  case_decide; [apply keeps_committed_ret | apply keeps_committed_client].
Qed.

Lemma keeps_committed_update_tags_and_read id data :
  keeps_committed (PlaceModel.update_tags_and_read id data).
Proof.
  apply keeps_committed_bind; [|intros; apply keeps_committed_findById].
  destruct (PlacePatch.tags data);
    [apply keeps_committed_setTags | apply keeps_committed_ret].
Qed.

(** A place [create] that throws leaves the committed rows as they were. *)
Lemma place_create_atomic data st st' e :
  PlaceModel.create data st = (st', Err e) -> pool_db st' = pool_db st.
Proof.
  apply withTransaction_err.
  apply keeps_committed_bind; [apply keeps_committed_client|]. intros rows.
  destruct (head rows) as [place|]; [|apply keeps_committed_ret].
  apply keeps_committed_bind; [|intros; apply keeps_committed_findById].
  destruct (PlaceInput.tags data) as [[|v vs]|];
    [apply keeps_committed_ret | apply keeps_committed_setTags | apply keeps_committed_ret].
Qed.

(** A place [update] that throws leaves the committed rows as they were. *)
Lemma place_update_atomic id data st st' e :
  PlaceModel.update id data st = (st', Err e) -> pool_db st' = pool_db st.
Proof.
  apply withTransaction_err. cbv zeta.
  case_decide; [|apply keeps_committed_update_tags_and_read].
  apply keeps_committed_bind; [apply keeps_committed_client|]. intros rows.
  case_decide; [apply keeps_committed_ret | apply keeps_committed_update_tags_and_read].
Qed.

(** A [bulkSave] that throws leaves the committed rows as they were. *)
Lemma bulkSave_atomic tags st st' e :
  TagModel.bulkSave tags st = (st', Err e) -> pool_db st' = pool_db st.
Proof.
  apply withTransaction_err.
  apply keeps_committed_bind; [apply keeps_committed_client|]. intros existing.
  cbv zeta. apply keeps_committed_bind.
  { case_decide; [apply keeps_committed_client | apply keeps_committed_ret]. }
  intros _. apply keeps_committed_bind; [|intros _; apply keeps_committed_client].
  apply keeps_committed_for_each. intros tag.
  destruct (_ !! _);
    (apply keeps_committed_bind;
     [apply keeps_committed_client | intros; apply keeps_committed_ret]).
Qed.

(** C2, the failing run.  [TagModel.delete] and [TagModel.update] send their
    statements through the pool, one by one and outside any transaction.
    When the store fails on the third statement, [delete] has already
    removed the tag's associations while the tag is still there, and
    [update] has already moved the tag while [has_children] of the old and
    of the new parent is stale. *)
Theorem tag_delete_and_update_not_atomic :
  (TagModel.delete "t2" third_statement_fails).2 = Err StorageFailure /\
  tbl_place_tags (pool_db (TagModel.delete "t2" third_statement_fails).1)
    = [("p1", "t1")] /\
  tbl_tags (pool_db (TagModel.delete "t2" third_statement_fails).1)
    = tbl_tags Sample.db /\
  (TagModel.update "t2" (parent_only_patch "t3") third_statement_fails).2
    = Err StorageFailure /\
  (fun t => (Tag.value t, Tag.parent_tag_id t, Tag.has_children t))
    <$> tbl_tags (pool_db (TagModel.update "t2" (parent_only_patch "t3")
                                           third_statement_fails).1)
    = [("food", None, true); ("pizza", Some "t3", false); ("drinks", None, false)].
Proof. repeat split; reflexivity. Qed.

(** ** The constraints are kept by the tag writes *)

Lemma uuid_not_empty seed : Sql.uuid_generate_v4 seed <> "".
Proof. unfold Sql.uuid_generate_v4. discriminate. Qed.

(** The constraints on [tags] speak of the ids, values and parents only. *)
Lemma tags_ok_keys ts :
  Sql.tags_ok ts <->
  NoDup (Tag.id <$> ts) /\ NoDup (Tag.value <$> ts) /\
  Forall (fun i => i <> "") (Tag.id <$> ts) /\
  Forall (Sql.references (Tag.id <$> ts)) (Tag.parent_tag_id <$> ts).
Proof.
  unfold Sql.tags_ok. rewrite !Forall_fmap, !Forall_forall. unfold compose.
  split.
  - intros (H1 & H2 & H3). repeat split; auto; intros t Ht; apply (H3 t Ht).
  - intros (H1 & H2 & H3 & H4). repeat split; auto.
Qed.

Lemma tags_ok_same_keys ts ts' :
  Tag.id <$> ts' = Tag.id <$> ts ->
  Tag.value <$> ts' = Tag.value <$> ts ->
  Tag.parent_tag_id <$> ts' = Tag.parent_tag_id <$> ts ->
  Sql.tags_ok ts -> Sql.tags_ok ts'.
Proof. rewrite !tags_ok_keys. intros -> -> ->. auto. Qed.

Lemma db_ok_same_keys db ts' :
  Tag.id <$> ts' = Tag.id <$> tbl_tags db ->
  Tag.value <$> ts' = Tag.value <$> tbl_tags db ->
  Tag.parent_tag_id <$> ts' = Tag.parent_tag_id <$> tbl_tags db ->
  Sql.db_ok db -> Sql.db_ok (Sql.set_tags ts' db).
Proof.
  intros Hi Hv Hp (Ht & Hpl & Hpt). split; [|split].
  - simpl. eapply tags_ok_same_keys; eauto.
  - exact Hpl.
  - unfold Sql.place_tags_ok in *. simpl. rewrite Hi. exact Hpt.
Qed.

Lemma recomputed_for_db_ok p db :
  Sql.db_ok db -> Sql.db_ok (Sql.set_tags (recomputed_for p (tbl_tags db)) db).
Proof.
  apply db_ok_same_keys; rewrite recomputed_for_fmap, <- list_fmap_compose;
    apply list_fmap_ext; intros _ t _; unfold compose; case_decide; reflexivity.
Qed.

Lemma insert_tag_db_ok v d so parent now seed db db' rows :
  Sql.insert_tag v d so parent now (Sql.uuid_generate_v4 seed) db = Ok (db', rows) ->
  Sql.db_ok db -> Sql.db_ok db'.
Proof.
  unfold Sql.insert_tag. repeat case_decide; try discriminate.
  intros [= <- _] (Ht & Hpl & Hnd & Hfk). split; [|split; [exact Hpl|split]].
  - apply tags_ok_keys in Ht as (K1 & K2 & K3 & K4). apply tags_ok_keys. simpl.
    rewrite !fmap_app. simpl. repeat split.
    + apply NoDup_app. repeat split; [exact K1| |apply NoDup_singleton].
      intros x Hx Hc. apply list_elem_of_singleton in Hc as ->. contradiction.
    + apply NoDup_app. repeat split; [exact K2| |apply NoDup_singleton].
      intros x Hx Hc. apply list_elem_of_singleton in Hc as ->. contradiction.
    + apply Forall_app. split; [exact K3|]. repeat constructor. apply uuid_not_empty.
    + apply Forall_app. split.
      * eapply Forall_impl; [exact K4|]. intros o Ho p Hp.
        apply elem_of_app. left. exact (Ho p Hp).
      * repeat constructor. rewrite fmap_app in *. assumption.
  - exact Hnd.
  - simpl. eapply Forall_impl; [exact Hfk|]. intros pt [Hp1 Hp2].
    split; [exact Hp1|]. rewrite fmap_app. apply elem_of_app. left. exact Hp2.
Qed.

Lemma assign_tag_id now t sets : Tag.id (foldl (Sql.assign_tag now) t sets) = Tag.id t.
Proof.
  revert t. induction sets as [|a sets IH]; intros t; [reflexivity|].
  simpl. rewrite IH. destruct a; reflexivity.
Qed.

Lemma tags_same_value ts t u :
  NoDup (Tag.id <$> ts) -> NoDup (Tag.value <$> ts) ->
  t ∈ ts -> u ∈ ts -> Tag.value t = Tag.value u -> t = u.
Proof.
  intros _ Hnd Ht Hu Hv.
  apply list_elem_of_lookup in Ht as [i Hi]. apply list_elem_of_lookup in Hu as [j Hj].
  assert (i = j) as ->.
  { eapply NoDup_lookup; [exact Hnd| |]; rewrite list_lookup_fmap.
    - rewrite Hi. reflexivity.
    - rewrite Hj. simpl. rewrite Hv. reflexivity. }
  congruence.
Qed.

Lemma update_tags_db_ok sets i now uuid db db' rows :
  Sql.update_tags sets i now uuid db = Ok (db', rows) ->
  Sql.db_ok db -> Sql.db_ok db'.
Proof.
  unfold Sql.update_tags. cbv zeta.
  set (f := fun t => if decide (Tag.id t = i)
                     then foldl (Sql.assign_tag now) t sets else t).
  destruct (decide (Forall _ _)) as [Huniq|]; [|discriminate].
  destruct (decide (Forall _ _)) as [Hfk|]; [|discriminate].
  intros [= <- _] Hok. pose proof Hok as ((Hnd & Hndv & Hall) & Hpl & Hpt).
  assert (forall t, Tag.id (f t) = Tag.id t) as Hfid
    by (intros t; unfold f; case_decide; [apply assign_tag_id | reflexivity]).
  assert (Tag.id <$> (f <$> tbl_tags db) = Tag.id <$> tbl_tags db) as Hids.
  { rewrite <- list_fmap_compose. apply list_fmap_ext. intros _ t _. apply Hfid. }
  rewrite Forall_forall in Huniq, Hfk, Hall.
  split; [|split; [exact Hpl|]].
  - simpl. split; [rewrite Hids; exact Hnd|]. split.
    + apply NoDup_fmap_2_strong.
      * intros x y Hx Hy Hv.
        apply list_elem_of_fmap in Hx as (x0 & -> & Hx0).
        apply list_elem_of_fmap in Hy as (y0 & -> & Hy0).
        destruct (decide (Tag.id x0 = i)) as [Hxi|Hxi];
          destruct (decide (Tag.id y0 = i)) as [Hyi|Hyi].
        -- assert (x0 = y0) as -> by (eapply db_ok_same_id; eauto; congruence).
           reflexivity.
        -- exfalso.
           assert (f x0 ∈ filter (fun t => Tag.id t = i) (f <$> tbl_tags db)) as Hc.
           { apply list_elem_of_filter. rewrite Hfid. split; [exact Hxi|].
             apply list_elem_of_fmap. eauto. }
           specialize (Huniq _ Hc). rewrite Forall_forall in Huniq.
           destruct (Huniq (f y0)) as [Hid|Hne];
             [apply list_elem_of_fmap; eauto | rewrite Hfid in Hid; contradiction |].
           congruence.
        -- exfalso.
           assert (f y0 ∈ filter (fun t => Tag.id t = i) (f <$> tbl_tags db)) as Hc.
           { apply list_elem_of_filter. rewrite Hfid. split; [exact Hyi|].
             apply list_elem_of_fmap. eauto. }
           specialize (Huniq _ Hc). rewrite Forall_forall in Huniq.
           destruct (Huniq (f x0)) as [Hid|Hne];
             [apply list_elem_of_fmap; eauto | rewrite Hfid in Hid; contradiction |].
           congruence.
        -- unfold f in Hv |- *. rewrite !decide_False in Hv |- * by assumption.
           eapply tags_same_value; eauto.
      * apply (NoDup_fmap_1 Tag.id). rewrite Hids. exact Hnd.
    + apply Forall_forall. intros t' Ht'.
      pose proof Ht' as Ht''. apply list_elem_of_fmap in Ht'' as (t & -> & Ht).
      rewrite Hfid. split; [apply (Hall t Ht)|].
      destruct (decide (Tag.id t = i)) as [Hti|Hti].
      * apply Hfk. apply list_elem_of_filter. rewrite Hfid. auto.
      * rewrite Hids. unfold f. rewrite decide_False by exact Hti. apply (Hall t Ht).
  - unfold Sql.place_tags_ok in *. simpl. rewrite Hids. exact Hpt.
Qed.

Lemma delete_tags_db_ok ids now uuid db db' n :
  Sql.delete_tags ids now uuid db = Ok (db', n) ->
  Sql.db_ok db -> Sql.db_ok db'.
Proof.
  unfold Sql.delete_tags. intros [= <- _] Hok.
  pose proof Hok as ((Hnd & Hndv & Hall) & Hpl & Hndp & Hfk).
  destruct (delete_tag_rows_filter ids (tbl_tags db)) as [keep Hkeep].
  rewrite Forall_forall in Hall. rewrite Forall_forall in Hfk.
  split; [|split; [exact Hpl|]].
  - simpl. split; [|split].
    + eapply sublist_NoDup; [exact Hnd|]. rewrite Hkeep.
      apply fmap_sublist, sublist_filter.
    + eapply sublist_NoDup; [exact Hndv|]. rewrite Hkeep.
      apply fmap_sublist, sublist_filter.
    + apply Forall_forall. intros t Ht.
      destruct (delete_tag_rows_elem _ _ _ Ht) as [Hin _].
      split; [apply (Hall t Hin)|].
      apply delete_tag_rows_references; assumption.
  - unfold Sql.place_tags_ok. simpl. split.
    + apply NoDup_filter. exact Hndp.
    + apply Forall_forall. intros pt Hpt.
      apply list_elem_of_filter in Hpt as [Hgone Hpt].
      destruct (Hfk pt Hpt) as [Hp1 Hp2]. split; [exact Hp1|].
      destruct (decide (pt.2 ∈ Tag.id <$> Sql.delete_tag_rows ids (tbl_tags db)))
        as [Hs|Hs]; [exact Hs|].
      exfalso. apply Hgone. apply list_elem_of_filter. auto.
Qed.

Lemma delete_place_tags_by_tag_db_ok i now uuid db db' u :
  Sql.delete_place_tags_by_tag i now uuid db = Ok (db', u) ->
  Sql.db_ok db -> Sql.db_ok db'.
Proof.
  unfold Sql.delete_place_tags_by_tag. intros [= <- _] (Ht & Hpl & Hnd & Hfk).
  split; [exact Ht|]. split; [exact Hpl|]. split; simpl.
  - apply NoDup_filter. exact Hnd.
  - rewrite Forall_forall in *. intros pt Hpt.
    apply list_elem_of_filter in Hpt as [_ Hpt]. apply (Hfk pt Hpt).
Qed.

(** Running a statement through the pool keeps the constraints when the
    statement does. *)
Lemma query_db_ok {A} (q : Sql.statement A) s s' r :
  (forall now seed db db' a,
      q now (Sql.uuid_generate_v4 seed) db = Ok (db', a) ->
      Sql.db_ok db -> Sql.db_ok db') ->
  query q s = (s', r) -> Sql.db_ok (pool_db s) -> Sql.db_ok (pool_db s').
Proof.
  intros Hq. unfold query, exec. destruct (fails_next s).
  - intros [= <- _]. auto.
  - destruct (q _ _ _) as [[db a]|e] eqn:E; intros [= <- _]; simpl; [|auto].
    eapply Hq, E.
Qed.

Lemma updateHasChildren_db_ok p s s' r :
  TagModel.updateHasChildren p s = (s', r) ->
  Sql.db_ok (pool_db s) -> Sql.db_ok (pool_db s').
Proof.
  apply query_db_ok. unfold Sql.update_has_children.
  intros now seed db db' a [= <- _]. apply (recomputed_for_db_ok (Some p)).
Qed.

Lemma recompute_if_db_ok (p : option string) s s' r :
  match p with
  | Some i => TagModel.updateHasChildren i
  | None => ret tt
  end s = (s', r) ->
  Sql.db_ok (pool_db s) -> Sql.db_ok (pool_db s').
Proof.
  destruct p as [i|]; [apply updateHasChildren_db_ok|].
  intros [= <- _]. auto.
Qed.

(** Every tag write, completed or not, leaves a store that satisfies the
    constraints of the migrations when it started from one. *)
Lemma tag_create_db_ok data st st' r :
  TagModel.create data st = (st', r) ->
  Sql.db_ok (pool_db st) -> Sql.db_ok (pool_db st').
Proof.
  unfold TagModel.create, bind. intros H Hok.
  destruct (query _ st) as [s1 [rows|e]] eqn:E1;
    (eapply query_db_ok in E1; [|intros; eapply insert_tag_db_ok; eauto|exact Hok]).
  - destruct (or_null (mjoin (TagInput.parent_tag_id data))) as [p|].
    + destruct (TagModel.updateHasChildren p s1) as [s2 [u|e]] eqn:E2;
        apply updateHasChildren_db_ok in E2; auto; injection H as <- _; exact E2.
    + injection H as <- _. exact E1.
  - injection H as <- _. exact E1.
Qed.

Lemma findById_tag_state id s s' r :
  TagModel.findById id s = (s', r) -> pool_db s' = pool_db s.
Proof.
  unfold TagModel.findById, bind, query, exec, ret.
  destruct (fails_next s); intros [= <- _]; reflexivity.
Qed.

Lemma tag_update_db_ok id data st st' r :
  TagModel.update id data st = (st', r) ->
  Sql.db_ok (pool_db st) -> Sql.db_ok (pool_db st').
Proof.
  unfold TagModel.update. unfold bind at 1. intros H Hok.
  destruct (TagModel.findById id st) as [s0 [old|e]] eqn:E0;
    (apply findById_tag_state in E0; rewrite <- E0 in Hok).
  2: { injection H as <- _. exact Hok. }
  destruct old as [old|]; [|injection H as <- _; exact Hok].
  case_decide; [injection H as <- _; exact Hok|].
  unfold bind at 1 in H.
  destruct (query _ s0) as [s1 [rows|e]] eqn:E1;
    (eapply query_db_ok in E1; [|intros; eapply update_tags_db_ok; eauto|exact Hok]).
  2: { injection H as <- _. exact E1. }
  unfold bind at 1 in H.
  destruct (TagPatch.parent_tag_id data) as [p|].
  - case_decide.
    + unfold bind at 1 in H.
      destruct (match or_null (Tag.parent_tag_id old) with
                | Some o => TagModel.updateHasChildren o
                | None => ret tt
                end s1) as [s2 [u|e]] eqn:E2;
        (apply recompute_if_db_ok in E2; [|exact E1]).
      * destruct (match or_null p with
                  | Some n => TagModel.updateHasChildren n
                  | None => ret tt
                  end s2) as [s3 [u'|e]] eqn:E3;
          (apply recompute_if_db_ok in E3; [|exact E2]);
          injection H as <- _; exact E3.
      * injection H as <- _. exact E2.
    + injection H as <- _. exact E1.
  - injection H as <- _. exact E1.
Qed.

Lemma tag_delete_db_ok id st st' r :
  TagModel.delete id st = (st', r) ->
  Sql.db_ok (pool_db st) -> Sql.db_ok (pool_db st').
Proof.
  unfold TagModel.delete. unfold bind at 1. intros H Hok.
  destruct (TagModel.findById id st) as [s0 [old|e]] eqn:E0;
    (apply findById_tag_state in E0; rewrite <- E0 in Hok).
  2: { injection H as <- _. exact Hok. }
  destruct old as [old|]; [|injection H as <- _; exact Hok].
  cbv zeta in H. unfold bind at 1 in H.
  destruct (query (Sql.delete_place_tags_by_tag id) s0) as [s1 [u|e]] eqn:E1;
    (eapply query_db_ok in E1;
     [|intros; eapply delete_place_tags_by_tag_db_ok; eauto|exact Hok]).
  2: { injection H as <- _. exact E1. }
  unfold bind at 1 in H.
  destruct (query (Sql.delete_tags [id]) s1) as [s2 [n|e]] eqn:E2;
    (eapply query_db_ok in E2; [|intros; eapply delete_tags_db_ok; eauto|exact E1]).
  2: { injection H as <- _. exact E2. }
  unfold bind at 1 in H.
  destruct (match or_null (Tag.parent_tag_id old) with
            | Some p => TagModel.updateHasChildren p
            | None => ret tt
            end s2) as [s3 [u'|e]] eqn:E3;
    (apply recompute_if_db_ok in E3; [|exact E2]);
    injection H as <- _; exact E3.
Qed.

(** The constraints assumed of the store are an invariant of the tag
    writes. *)
Lemma tag_write_db_ok st st' :
  tag_write st st' -> Sql.db_ok (pool_db st) -> Sql.db_ok (pool_db st').
Proof.
  intros [data r H|id data r H|id b H].
  - eapply tag_create_db_ok, H.
  - eapply tag_update_db_ok, H.
  - eapply tag_delete_db_ok, H.
Qed.

(** [bulkSave] is not one of the tag writes above: it inserts a child
    without recomputing [has_children] of the parent. *)
Lemma bulkSave_leaves_has_children :
  (fun t => (Tag.value t, Tag.parent_tag_id t, Tag.has_children t))
    <$> tbl_tags (pool_db (TagModel.bulkSave with_beer (Sample.store [])).1)
  = [("food", None, true); ("pizza", Some "t1", false); ("drinks", None, false);
     ("beer", Some "t3", false)].
Proof. reflexivity. Qed.

(** ** [bulkSave] twice, when nothing kept is deleted by the cascade *)

Lemma last_entry_None input v :
  last_entry input v = None <-> v ∉ TagInput.value <$> input.
Proof.
  induction input as [|e rest IH]; simpl.
  - split; [intros _ H; inversion H | reflexivity].
  - rewrite not_elem_of_cons, <- IH.
    destruct (last_entry rest v); [split; [discriminate | intros [_ [=]]]|].
    case_decide as Hv; split.
    + discriminate.
    + intros [Hne _]. congruence.
    + intros _. split; [congruence | reflexivity].
    + reflexivity.
Qed.

Lemma last_entry_value input v e : last_entry input v = Some e -> TagInput.value e = v.
Proof.
  induction input as [|e0 rest IH]; simpl; [discriminate|].
  destruct (last_entry rest v); [intros [= <-]; apply IH; reflexivity|].
  case_decide; [congruence | discriminate].
Qed.

Lemma rekey_value e k : (rekey e k).1.1 = k.1.1.
Proof. unfold rekey. case_decide; [simpl; congruence | reflexivity]. Qed.

Lemma rekey_values e (keys : list (string * string * Z)) :
  (fun k => k.1.1) <$> (rekey e <$> keys) = (fun k => k.1.1) <$> keys.
Proof.
  rewrite <- list_fmap_compose. apply list_fmap_ext. intros _ k _. apply rekey_value.
Qed.

(** A key whose value the rest of the input does not name is left alone. *)
Lemma save_keys_untouched known (keys : list (string * string * Z)) input keys' k :
  save_keys known keys input = Some keys' ->
  k ∈ keys' -> k.1.1 ∉ TagInput.value <$> input -> k ∈ keys.
Proof.
  revert keys. induction input as [|e rest IH]; intros keys; simpl.
  - intros [= <-]. auto.
  - destruct (save_key known keys e) as [keys1|] eqn:Hstep; [|discriminate].
    intros Hrest Hk Hnot. apply not_elem_of_cons in Hnot as [Hne Hnot].
    specialize (IH _ Hrest Hk Hnot). unfold save_key in Hstep.
    destruct (known (TagInput.value e)).
    + injection Hstep as <-. apply list_elem_of_fmap in IH as (k0 & -> & Hk0).
      unfold rekey in *. case_decide as Hv; [|exact Hk0].
      simpl in Hne. contradiction.
    + case_decide; [discriminate|]. injection Hstep as <-.
      apply elem_of_app in IH as [IH|IH]; [exact IH|].
      apply list_elem_of_singleton in IH as ->. simpl in Hne. contradiction.
Qed.

(** After the loop every key carries the display and sort order of the last
    input entry with its value. *)
Lemma save_keys_last known (keys : list (string * string * Z)) input keys' k e :
  save_keys known keys input = Some keys' ->
  k ∈ keys' -> last_entry input k.1.1 = Some e -> k = input_key e.
Proof.
  revert keys. induction input as [|e0 rest IH]; intros keys; simpl; [discriminate|].
  destruct (save_key known keys e0) as [keys1|] eqn:Hstep; [|discriminate].
  intros Hrest Hk Hlast.
  destruct (last_entry rest k.1.1) as [x|] eqn:Hl.
  - injection Hlast as ->. eapply IH; eauto.
  - case_decide as Hv; [|discriminate]. injection Hlast as ->.
    apply last_entry_None in Hl.
    pose proof (save_keys_untouched _ _ _ _ _ Hrest Hk Hl) as Hk1.
    unfold save_key in Hstep. destruct (known (TagInput.value e)).
    + injection Hstep as <-. apply list_elem_of_fmap in Hk1 as (k0 & -> & Hk0).
      rewrite rekey_value in Hv. unfold rekey. rewrite decide_True by congruence.
      reflexivity.
    + case_decide as Hin; [discriminate|]. injection Hstep as <-.
      apply elem_of_app in Hk1 as [Hk1|Hk1].
      * exfalso. apply Hin. rewrite Hv. apply list_elem_of_fmap. eauto.
      * apply list_elem_of_singleton in Hk1. exact Hk1.
Qed.

(** The values of the table after the loop: those it had, and input values. *)
Lemma save_keys_values known (keys : list (string * string * Z)) input keys' v :
  save_keys known keys input = Some keys' ->
  v ∈ (fun k => k.1.1) <$> keys' ->
  v ∈ (fun k => k.1.1) <$> keys \/ v ∈ TagInput.value <$> input.
Proof.
  revert keys. induction input as [|e rest IH]; intros keys; simpl.
  - intros [= <-]. auto.
  - destruct (save_key known keys e) as [keys1|] eqn:Hstep; [|discriminate].
    intros Hrest Hv. destruct (IH _ Hrest Hv) as [H1|H1]; [|right; right; exact H1].
    unfold save_key in Hstep. destruct (known (TagInput.value e)).
    + injection Hstep as <-. rewrite rekey_values in H1. auto.
    + case_decide; [discriminate|]. injection Hstep as <-.
      rewrite fmap_app in H1. apply elem_of_app in H1 as [H1|H1]; [auto|].
      apply list_elem_of_singleton in H1 as ->. right. left.
Qed.

(** Every value of the input is in the table after the loop, when the
    values the snapshot knows were in the table before it. *)
Lemma save_keys_covers known (keys : list (string * string * Z)) input keys' :
  save_keys known keys input = Some keys' ->
  (forall v, known v = true -> v ∈ TagInput.value <$> input ->
             v ∈ (fun k => k.1.1) <$> keys) ->
  forall v, v ∈ (fun k => k.1.1) <$> keys \/ v ∈ TagInput.value <$> input ->
            v ∈ (fun k => k.1.1) <$> keys'.
Proof.
  revert keys. induction input as [|e rest IH]; intros keys; simpl.
  - intros [= <-] _ v [H|H]; [exact H | inversion H].
  - destruct (save_key known keys e) as [keys1|] eqn:Hstep; [|discriminate].
    intros Hrest Hknown v Hv. unfold save_key in Hstep.
    destruct (known (TagInput.value e)) eqn:Hk.
    + injection Hstep as <-. apply (IH _ Hrest).
      * intros w Hw Hin. rewrite rekey_values. apply Hknown; [exact Hw | right; exact Hin].
      * rewrite rekey_values. destruct Hv as [Hv|Hv]; [auto|].
        apply elem_of_cons in Hv as [->|Hv]; [|auto].
        left. apply Hknown; [exact Hk | left].
    + case_decide; [discriminate|]. injection Hstep as <-. apply (IH _ Hrest).
      * intros w Hw Hin. rewrite fmap_app. apply elem_of_app. left.
        apply Hknown; [exact Hw | right; exact Hin].
      * rewrite fmap_app. destruct Hv as [Hv|Hv]; [left; apply elem_of_app; auto|].
        apply elem_of_cons in Hv as [->|Hv]; [|auto].
        left. apply elem_of_app. right. left.
Qed.

(** When the snapshot knows every input value, the loop rewrites keys only. *)
Lemma save_keys_all_known known (keys : list (string * string * Z)) input :
  (forall e, e ∈ input -> known (TagInput.value e) = true) ->
  save_keys known keys input =
  Some ((fun k => match last_entry input k.1.1 with
                  | Some e => input_key e
                  | None => k
                  end) <$> keys).
Proof.
  revert keys. induction input as [|e rest IH]; intros keys Hall; simpl.
  - rewrite list_fmap_id. reflexivity.
  - unfold save_key. rewrite (Hall e) by left.
    rewrite IH by (intros x Hx; apply Hall; right; exact Hx).
    f_equal. rewrite <- list_fmap_compose. apply list_fmap_ext. intros _ k _.
    unfold compose. rewrite rekey_value.
    destruct (last_entry rest k.1.1) as [x|]; [reflexivity|].
    unfold rekey. case_decide as H1; case_decide as H2; try reflexivity; congruence.
Qed.

(** Running the loop again, on the table and with the snapshot of the first
    run's result, changes no key. *)
Lemma save_keys_again known (keys : list (string * string * Z)) input keys'
      (known' : string -> bool) :
  save_keys known keys input = Some keys' ->
  (forall v, known v = true -> v ∈ TagInput.value <$> input ->
             v ∈ (fun k => k.1.1) <$> keys) ->
  (forall v, v ∈ (fun k => k.1.1) <$> keys' -> known' v = true) ->
  save_keys known' keys' input = Some keys'.
Proof.
  intros Hrun Hknown Hknown'.
  rewrite save_keys_all_known.
  - f_equal. rewrite <- (list_fmap_id keys') at 2.
    apply list_fmap_ext. intros _ k Hk%list_elem_of_lookup_2.
    destruct (last_entry input k.1.1) as [e|] eqn:Hl; [|reflexivity].
    symmetry. eapply save_keys_last; eauto.
  - intros e He. apply Hknown'. eapply save_keys_covers; eauto.
    right. apply list_elem_of_fmap. eauto.
Qed.

Lemma snapshot_lookup_other (l : list Tag.t) (m : gmap string Tag.t) v :
  v ∉ Tag.value <$> l ->
  foldl (fun m t => <[Tag.value t := t]> m) m l !! v = m !! v.
Proof.
  revert m. induction l as [|t l IH]; intros m Hv; [reflexivity|].
  rewrite fmap_cons in Hv. apply not_elem_of_cons in Hv as [Hne Hv].
  simpl. rewrite IH by exact Hv. apply lookup_insert_ne. congruence.
Qed.

Lemma snapshot_lookup_row (l : list Tag.t) (m : gmap string Tag.t) e :
  NoDup (Tag.value <$> l) -> e ∈ l ->
  foldl (fun m t => <[Tag.value t := t]> m) m l !! Tag.value e = Some e.
Proof.
  revert m. induction l as [|t l IH]; intros m Hnd He; [inversion He|].
  rewrite fmap_cons in Hnd. apply NoDup_cons in Hnd as [Hnot Hnd].
  simpl. apply elem_of_cons in He as [->|He].
  - rewrite snapshot_lookup_other by exact Hnot. apply lookup_insert_eq.
  - apply IH; assumption.
Qed.

(** The snapshot holds, under a value, the row of the table with it. *)
Lemma snapshot_lookup (l : list Tag.t) v e :
  NoDup (Tag.value <$> l) ->
  foldl (fun m t => <[Tag.value t := t]> m) (∅ : gmap string Tag.t) l !! v = Some e <->
  e ∈ l /\ Tag.value e = v.
Proof.
  intros Hnd. split.
  - intros Hl. destruct (decide (v ∈ Tag.value <$> l)) as [Hin|Hout].
    + apply list_elem_of_fmap in Hin as (e' & -> & He').
      rewrite (snapshot_lookup_row _ _ _ Hnd He') in Hl. injection Hl as <-. auto.
    + rewrite snapshot_lookup_other in Hl by exact Hout.
      rewrite lookup_empty in Hl. discriminate.
  - intros [He <-]. apply snapshot_lookup_row; assumption.
Qed.

Lemma tags_same_id ts t u :
  NoDup (Tag.id <$> ts) -> t ∈ ts -> u ∈ ts -> Tag.id t = Tag.id u -> t = u.
Proof.
  intros Hnd Ht Hu Hid.
  apply list_elem_of_lookup in Ht as [i Hi]. apply list_elem_of_lookup in Hu as [j Hj].
  assert (i = j) as ->.
  { eapply NoDup_lookup; [exact Hnd| |]; rewrite list_lookup_fmap.
    - rewrite Hi. reflexivity.
    - rewrite Hj. simpl. rewrite Hid. reflexivity. }
  congruence.
Qed.

(** A snapshot agrees with the table it was taken from, and with what is
    left of it once the rows the input drops are gone. *)
Lemma snapshot_agrees_kept values (ts : list Tag.t) :
  NoDup (Tag.id <$> ts) -> NoDup (Tag.value <$> ts) ->
  snapshot_agrees values
    (foldl (fun m t => <[Tag.value t := t]> m) ∅ ts)
    (filter (fun t => Tag.value t ∈ values) ts).
Proof.
  intros Hid Hval. split; [|split].
  - eapply sublist_NoDup; [exact Hid|]. apply fmap_sublist, sublist_filter.
  - eapply sublist_NoDup; [exact Hval|]. apply fmap_sublist, sublist_filter.
  - intros v e Hv Hl. apply snapshot_lookup in Hl as [He <-]; [|exact Hval]. split.
    + apply list_elem_of_fmap. exists e. split; [reflexivity|].
      apply list_elem_of_filter. auto.
    + intros r Hr. apply list_elem_of_filter in Hr as [_ Hr]. split.
      * intros Heq. f_equal. eapply tags_same_id; eauto.
      * intros Heq. f_equal. eapply tags_same_value; eauto.
Qed.

Lemma filter_none {A} (P : A -> Prop) `{!forall x, Decision (P x)} (l : list A) :
  (forall x, x ∈ l -> ~ P x) -> filter P l = [].
Proof.
  induction l as [|x l IH]; intros Hno; [reflexivity|].
  rewrite filter_cons_False by (apply Hno; left).
  apply IH. intros y Hy. apply Hno. right. exact Hy.
Qed.

Lemma filter_all {A} (P : A -> Prop) `{!forall x, Decision (P x)} (l : list A) :
  (forall x, x ∈ l -> P x) -> filter P l = l.
Proof.
  induction l as [|x l IH]; intros Hall; [reflexivity|].
  rewrite filter_cons_True by (apply Hall; left).
  f_equal. apply IH. intros y Hy. apply Hall. right. exact Hy.
Qed.

Lemma cascade_nothing fuel gone ts :
  (forall t, t ∈ ts -> ~ Sql.child_of gone t) -> Sql.cascade fuel gone ts = ts.
Proof.
  intros Hno. destruct fuel as [|fuel]; [reflexivity|].
  rewrite cascade_S, filter_none by exact Hno. reflexivity.
Qed.

(** When no kept tag stands under a dropped one, deleting the dropped rows
    deletes nothing else. *)
Lemma delete_dropped_rows input (ts : list Tag.t) :
  NoDup (Tag.id <$> ts) ->
  no_kept_under_dropped input ts ->
  Sql.delete_tag_rows
    (Tag.id <$> filter (fun t => Tag.value t ∉ TagInput.value <$> input) ts) ts =
  filter (fun t => Tag.value t ∈ TagInput.value <$> input) ts.
Proof.
  intros Hnd Hkept. unfold Sql.delete_tag_rows.
  set (dropped := filter (fun t => Tag.value t ∉ TagInput.value <$> input) ts).
  assert (forall t, t ∈ ts ->
            (Tag.id t ∈ Tag.id <$> dropped <-> Tag.value t ∉ TagInput.value <$> input))
    as Hdrop.
  { intros t Ht. split.
    - intros Hin. apply list_elem_of_fmap in Hin as (t' & Hid & Ht').
      apply list_elem_of_filter in Ht' as [Hv Ht'].
      assert (t = t') as -> by (eapply tags_same_id; eauto). exact Hv.
    - intros Hv. apply list_elem_of_fmap. exists t. split; [reflexivity|].
      apply list_elem_of_filter. auto. }
  assert (filter (fun t => Tag.id t ∉ Tag.id <$> dropped) ts =
          filter (fun t => Tag.value t ∈ TagInput.value <$> input) ts) as ->.
  { apply filter_ext_elem. intros t Ht. rewrite (Hdrop t Ht).
    destruct (decide (Tag.value t ∈ TagInput.value <$> input)); tauto. }
  apply cascade_nothing. intros t Ht Hc.
  apply list_elem_of_filter in Ht as [Hv Ht].
  unfold Sql.child_of in Hc. destruct (Tag.parent_tag_id t) as [p|] eqn:Hp; [|exact Hc].
  apply list_elem_of_fmap in Hc as (h & -> & Hh).
  apply list_elem_of_filter in Hh as [Hhid Hh].
  apply (Hdrop h Hh) in Hhid. apply Hhid. exact (Hkept t h Ht Hh Hp Hv).
Qed.

(** [ORDER BY] sees the keys only. *)
Lemma insert_sorted_fmap {A B} (f : A -> B) (le : A -> A -> bool) (le' : B -> B -> bool)
      (x : A) (l : list A) :
  (forall a b, le a b = le' (f a) (f b)) ->
  f <$> insert_sorted le x l = insert_sorted le' (f x) (f <$> l).
Proof.
  intros Hle. induction l as [|y l IH]; [reflexivity|].
  rewrite fmap_cons. cbn [insert_sorted]. rewrite <- Hle. destruct (le x y).
  - rewrite !fmap_cons. reflexivity.
  - rewrite fmap_cons, IH. reflexivity.
Qed.

Lemma order_by_fmap {A B} (f : A -> B) (le : A -> A -> bool) (le' : B -> B -> bool)
      (l : list A) :
  (forall a b, le a b = le' (f a) (f b)) ->
  f <$> order_by le l = order_by le' (f <$> l).
Proof.
  intros Hle. induction l as [|x l IH]; [reflexivity|].
  rewrite fmap_cons. cbn [order_by].
  rewrite (insert_sorted_fmap f le le') by exact Hle. rewrite IH. reflexivity.
Qed.

Lemma tag_set_keys st :
  tag_set st = order_by key_le (tag_key <$> tbl_tags (pool_db st)).
Proof. unfold tag_set. apply order_by_fmap. reflexivity. Qed.

(** One turn of the loop, on the keys: the row of a known value is
    rewritten, a new value is appended. *)
Lemma upsert_keys values snapshot tag s s' u :
  TagInput.value tag ∈ values ->
  snapshot_agrees values snapshot (tbl_tags (client_db s)) ->
  upsert snapshot tag s = (s', Ok u) ->
  save_key (known_in snapshot) (tag_key <$> tbl_tags (client_db s)) tag =
    Some (tag_key <$> tbl_tags (client_db s')) /\
  snapshot_agrees values snapshot (tbl_tags (client_db s')).
Proof.
  intros Hin (Hid & Hval & Hsnap) Hrun. unfold upsert in Hrun.
  destruct (snapshot !! TagInput.value tag) as [e|] eqn:Hl.
  - destruct (Hsnap _ _ Hin Hl) as [He Hrow].
    inv_bind Hrun. unfold client_query in Hrun0. inv_exec Hrun0.
    apply ret_ok in Hrun as [-> _].
    unfold Sql.update_tags in Hq. cbv zeta in Hq.
    repeat case_decide; try discriminate. injection Hq as <- _.
    unfold save_key, known_in. rewrite Hl.
    rewrite bool_decide_eq_true_2 by eauto.
    pose (f := fun t : Tag.t =>
                 if decide (Tag.id t = Tag.id e)
                 then foldl (Sql.assign_tag (clock s)) t
                        [Sql.SetDisplay (TagInput.display tag);
                         Sql.SetSortOrder (TagInput.sort_order tag);
                         Sql.SetUpdatedAtNow]
                 else t).
    assert (tbl_tags (client_db s0) = f <$> tbl_tags (client_db s)) as ->
        by (rewrite Hrun0; reflexivity).
    assert (forall t, Tag.id (f t) = Tag.id t) as Hfid
        by (intros t; unfold f; case_decide; reflexivity).
    assert (forall t, Tag.value (f t) = Tag.value t) as Hfval
        by (intros t; unfold f; case_decide; reflexivity).
    assert (Tag.id <$> (f <$> tbl_tags (client_db s)) = Tag.id <$> tbl_tags (client_db s))
      as Hids.
    { rewrite <- list_fmap_compose. apply list_fmap_ext. intros _ t _. apply Hfid. }
    assert (Tag.value <$> (f <$> tbl_tags (client_db s)) = Tag.value <$> tbl_tags (client_db s))
      as Hvals.
    { rewrite <- list_fmap_compose. apply list_fmap_ext. intros _ t _. apply Hfval. }
    split.
    + f_equal. rewrite <- !list_fmap_compose. apply list_fmap_ext.
      intros _ t Ht%list_elem_of_lookup_2. unfold compose, f, rekey.
      pose proof (Hrow t Ht) as Hiff.
      destruct (decide (Tag.id t = Tag.id e)) as [Heq|Hne].
      * rewrite decide_True by (apply Hiff; exact Heq).
        unfold tag_key, input_key. simpl. rewrite (proj1 Hiff Heq). reflexivity.
      * rewrite decide_False by (intros Hv; apply Hne, Hiff; exact Hv). reflexivity.
    + split; [rewrite Hids; exact Hid|]. split; [rewrite Hvals; exact Hval|].
      intros v x Hv Hx. destruct (Hsnap _ _ Hv Hx) as [Hxi Hxr].
      split; [rewrite Hids; exact Hxi|].
      intros r Hr. apply list_elem_of_fmap in Hr as (r0 & -> & Hr0).
      rewrite Hfid, Hfval. exact (Hxr r0 Hr0).
  - inv_bind Hrun. unfold client_query in Hrun0. inv_exec Hrun0.
    apply ret_ok in Hrun as [-> _].
    unfold Sql.insert_tag in Hq. cbv zeta in Hq.
    destruct (decide (_ ∈ Tag.id <$> _)) as [|Hnew]; [discriminate|].
    destruct (decide (_ ∈ Tag.value <$> _)) as [|Hfresh]; [discriminate|].
    case_decide; [|discriminate]. injection Hq as <- _.
    unfold save_key, known_in. rewrite Hl.
    rewrite bool_decide_eq_false_2 by (intros [x Hx]; discriminate).
    cbn [view] in *.
    match type of Hrun0 with
    | _ = set_view Client (Sql.set_tags (_ ++ [?r]) _) _ =>
        assert (tbl_tags (client_db s0) = tbl_tags (client_db s) ++ [r]) as ->
            by (rewrite Hrun0; reflexivity)
    end.
    assert (Tag.value <$> tbl_tags (client_db s) =
            (fun k : string * string * Z => k.1.1) <$> (tag_key <$> tbl_tags (client_db s)))
      as Hvk.
    { rewrite <- list_fmap_compose. reflexivity. }
    split.
    + rewrite decide_False by (rewrite <- Hvk; exact Hfresh).
      rewrite fmap_app. reflexivity.
    + split; [|split].
      * rewrite fmap_app. apply NoDup_app. split; [exact Hid|]. split.
        -- intros i Hi Hi'. apply list_elem_of_singleton in Hi'. subst i. exact (Hnew Hi).
        -- apply NoDup_singleton.
      * rewrite fmap_app. apply NoDup_app. split; [exact Hval|]. split.
        -- intros i Hi Hi'. apply list_elem_of_singleton in Hi'. subst i. exact (Hfresh Hi).
        -- apply NoDup_singleton.
      * intros v x Hv Hx. destruct (Hsnap _ _ Hv Hx) as [Hxi Hxr]. split.
        -- rewrite fmap_app. apply elem_of_app. left. exact Hxi.
        -- intros r Hr. apply elem_of_app in Hr as [Hr|Hr]; [exact (Hxr r Hr)|].
           apply list_elem_of_singleton in Hr as ->. simpl. split.
           ++ intros Heq. rewrite <- Heq in Hxi. destruct (Hnew Hxi).
           ++ intros Heq. rewrite Heq in Hl. congruence.
Qed.

Lemma for_each_upsert_keys values snapshot rest s s' u :
  (forall e, e ∈ rest -> TagInput.value e ∈ values) ->
  snapshot_agrees values snapshot (tbl_tags (client_db s)) ->
  for_each rest (upsert snapshot) s = (s', Ok u) ->
  save_keys (known_in snapshot) (tag_key <$> tbl_tags (client_db s)) rest =
    Some (tag_key <$> tbl_tags (client_db s')) /\
  snapshot_agrees values snapshot (tbl_tags (client_db s')).
Proof.
  revert s. induction rest as [|e rest IH]; intros s Hin Hagree Hrun.
  - apply ret_ok in Hrun as [-> _]. split; [reflexivity | exact Hagree].
  - cbn [for_each] in Hrun. inv_bind Hrun.
    destruct (upsert_keys values snapshot e s s0 a (Hin e ltac:(left)) Hagree Hrun0)
      as [Hstep Hagree'].
    cbn [save_keys]. rewrite Hstep.
    apply IH; [|exact Hagree'|exact Hrun].
    intros x Hx. apply Hin. right. exact Hx.
Qed.

(** The rows that [bulkSave] starts its loop from. *)
Lemma bulkSave_ok input st st' r :
  TagModel.bulkSave input st = (st', Ok r) ->
  exists s1 s2 u,
    tbl_tags (client_db s1) =
      (if decide (0 < length (filter (fun t => Tag.value t ∉ TagInput.value <$> input)
                                (tbl_tags (pool_db st))))%nat
       then Sql.delete_tag_rows
              (Tag.id <$> filter (fun t => Tag.value t ∉ TagInput.value <$> input)
                            (tbl_tags (pool_db st)))
              (tbl_tags (pool_db st))
       else tbl_tags (pool_db st)) /\
    for_each input
      (upsert (foldl (fun m t => <[Tag.value t := t]> m) ∅ (tbl_tags (pool_db st))))
      s1 = (s2, Ok u) /\
    tbl_tags (pool_db st') = tbl_tags (client_db s2).
Proof.
  intros Hrun. unfold TagModel.bulkSave in Hrun.
  apply withTransaction_ok in Hrun as (s3 & Hrun & ->).
  inv_bind Hrun. unfold client_query in Hrun0. inv_exec Hrun0.
  unfold Sql.select_tags in Hq. injection Hq as <- <-.
  cbv zeta in Hrun. inv_bind Hrun. inv_bind Hrun.
  unfold client_query in Hrun. inv_exec Hrun.
  unfold Sql.select_tags_ordered in Hq. injection Hq as <- _.
  cbn [view set_view client_db pool_db sent] in *.
  assert (filter (fun t => Tag.value t ∉ (list_to_set (TagInput.value <$> input) : gset string))
                 (tbl_tags (pool_db st)) =
          filter (fun t => Tag.value t ∉ TagInput.value <$> input) (tbl_tags (pool_db st)))
    as Hdrop.
  { apply list_filter_iff. intros t. rewrite elem_of_list_to_set. reflexivity. }
  rewrite Hdrop in Hrun1.
  exists s0, s1, a0. split; [|split].
  - case_decide.
    + unfold client_query in Hrun1. inv_exec Hrun1.
      unfold Sql.delete_tags in Hq. injection Hq as <- _.
      rewrite Hrun1, Hrun0. reflexivity.
    + apply ret_ok in Hrun1 as [-> _]. rewrite Hrun0. reflexivity.
  - exact Hrun2.
  - rewrite Hrun. reflexivity.
Qed.

(** With nothing kept under a dropped tag, the rows the loop starts from are
    the kept rows. *)
Lemma kept_rows input (ts : list Tag.t) :
  NoDup (Tag.id <$> ts) ->
  no_kept_under_dropped input ts ->
  (if decide (0 < length (filter (fun t => Tag.value t ∉ TagInput.value <$> input) ts))%nat
   then Sql.delete_tag_rows
          (Tag.id <$> filter (fun t => Tag.value t ∉ TagInput.value <$> input) ts) ts
   else ts) =
  filter (fun t => Tag.value t ∈ TagInput.value <$> input) ts.
Proof.
  intros Hnd Hkept. case_decide as Hlen.
  - apply delete_dropped_rows; assumption.
  - symmetry. apply filter_all. intros t Ht.
    destruct (decide (Tag.value t ∈ TagInput.value <$> input)) as [Hv|Hv]; [exact Hv|].
    exfalso. apply Hlen. apply (elem_of_length_pos _ t).
    apply list_elem_of_filter. auto.
Qed.

Lemma tag_key_values (ts : list Tag.t) :
  (fun k : string * string * Z => k.1.1) <$> (tag_key <$> ts) = Tag.value <$> ts.
Proof. rewrite <- list_fmap_compose. reflexivity. Qed.

Lemma keeps_constraints_ret {A} (a : A) : keeps_constraints (ret a).
Proof. intros s s' r [= <- _] Hok. exact Hok. Qed.

Lemma keeps_constraints_bind {A B} (m : M A) (k : A -> M B) :
  keeps_constraints m -> (forall a, keeps_constraints (k a)) ->
  keeps_constraints (bind m k).
Proof.
  intros Hm Hk s s' r. unfold bind. destruct (m s) as [s1 [a|e]] eqn:Hms.
  - intros Hks Hok. eapply Hk; [exact Hks|]. eapply Hm; eauto.
  - intros [= <- _] Hok. eapply Hm; eauto.
Qed.

Lemma keeps_constraints_client {A} (q : Sql.statement A) :
  (forall now seed db db' a,
      q now (Sql.uuid_generate_v4 seed) db = Ok (db', a) ->
      Sql.db_ok db -> Sql.db_ok db') ->
  keeps_constraints (client_query q).
Proof.
  intros Hq s s' r. unfold client_query, exec. destruct (fails_next s).
  - intros [= <- _]. auto.
  - destruct (q _ _ _) as [[db a]|e] eqn:E; intros [= <- _]; simpl; [|auto].
    eapply Hq, E.
Qed.

Lemma keeps_constraints_for_each {A} (l : list A) (body : A -> M unit) :
  (forall x, keeps_constraints (body x)) -> keeps_constraints (for_each l body).
Proof.
  intros Hbody. induction l as [|x l IH]; simpl.
  - apply keeps_constraints_ret.
  - apply keeps_constraints_bind; [apply Hbody | intros _; exact IH].
Qed.

Lemma keeps_constraints_upsert snapshot tag : keeps_constraints (upsert snapshot tag).
Proof.
  unfold upsert. destruct (snapshot !! _);
    (apply keeps_constraints_bind; [|intros; apply keeps_constraints_ret]);
    apply keeps_constraints_client; intros now seed db db' a.
  - apply update_tags_db_ok.
  - apply insert_tag_db_ok.
Qed.

(** [bulkSave] leaves the schema's constraints in force, however it ends. *)
Lemma bulkSave_db_ok input st st' r :
  TagModel.bulkSave input st = (st', r) ->
  Sql.db_ok (pool_db st) -> Sql.db_ok (pool_db st').
Proof.
  intros Hrun Hok. destruct r as [r|e].
  - apply withTransaction_ok in Hrun as (s2 & Hrun & ->).
    match type of Hrun with
    | ?m _ = _ => assert (keeps_constraints m) as Hkeeps
    end; [|exact (Hkeeps _ _ _ Hrun Hok)].
    apply keeps_constraints_bind.
    { apply keeps_constraints_client. unfold Sql.select_tags.
      intros now seed db db' a [= <- _]. auto. }
    intros existing. cbv zeta. apply keeps_constraints_bind.
    { case_decide; [|apply keeps_constraints_ret].
      apply keeps_constraints_client. intros now seed db db' a.
      apply delete_tags_db_ok. }
    intros _. apply keeps_constraints_bind.
    { apply keeps_constraints_for_each. intros tag.
      apply (keeps_constraints_upsert _ tag). }
    intros _. apply keeps_constraints_client. unfold Sql.select_tags_ordered.
    intros now seed db db' a [= <- _]. auto.
  - rewrite (bulkSave_atomic _ _ _ _ Hrun). exact Hok.
Qed.

(** The table a completed [bulkSave] leaves, when no tag the input keeps
    stands under one it drops: the values are those of the input, and the
    keys are those of the loop run over the kept rows. *)
Lemma bulkSave_once input st st1 r1 :
  NoDup (Tag.id <$> tbl_tags (pool_db st)) ->
  NoDup (Tag.value <$> tbl_tags (pool_db st)) ->
  no_kept_under_dropped input (tbl_tags (pool_db st)) ->
  TagModel.bulkSave input st = (st1, Ok r1) ->
  NoDup (Tag.id <$> tbl_tags (pool_db st1)) /\
  NoDup (Tag.value <$> tbl_tags (pool_db st1)) /\
  (forall v, v ∈ Tag.value <$> tbl_tags (pool_db st1) <-> v ∈ TagInput.value <$> input) /\
  exists keys known,
    save_keys known keys input = Some (tag_key <$> tbl_tags (pool_db st1)) /\
    (forall v, known v = true -> v ∈ TagInput.value <$> input ->
               v ∈ (fun k : string * string * Z => k.1.1) <$> keys).
Proof.
  intros Hid Hval Hkept Hone.
  apply bulkSave_ok in Hone as (s1 & s2 & u & Hstart & Hloop & Hend).
  rewrite kept_rows in Hstart by assumption.
  pose proof (snapshot_agrees_kept (TagInput.value <$> input) _ Hid Hval) as Hagree.
  rewrite <- Hstart in Hagree.
  apply (for_each_upsert_keys (TagInput.value <$> input)) in Hloop as [Hkeys Hagree1];
    [|intros e He; apply list_elem_of_fmap; eauto|exact Hagree].
  rewrite <- Hend in Hkeys, Hagree1. destruct Hagree1 as (Hid1 & Hval1 & _).
  assert (forall v, known_in (foldl (fun m t => <[Tag.value t := t]> m) ∅
                                    (tbl_tags (pool_db st))) v = true ->
                    v ∈ TagInput.value <$> input ->
                    v ∈ (fun k : string * string * Z => k.1.1)
                          <$> (tag_key <$> tbl_tags (client_db s1))) as Hknown.
  { intros v Hknown Hv. rewrite tag_key_values, Hstart.
    unfold known_in in Hknown. apply bool_decide_eq_true in Hknown as [e He].
    apply snapshot_lookup in He as [He <-]; [|exact Hval].
    apply list_elem_of_fmap. exists e. split; [reflexivity|].
    apply list_elem_of_filter. auto. }
  split; [exact Hid1|]. split; [exact Hval1|]. split; [|eauto].
  intros v. rewrite <- tag_key_values. split.
  - intros Hv. destruct (save_keys_values _ _ _ _ _ Hkeys Hv) as [Hv'|Hv']; [|exact Hv'].
    rewrite tag_key_values, Hstart in Hv'.
    apply list_elem_of_fmap in Hv' as (t & -> & Ht).
    apply list_elem_of_filter in Ht as [Ht _]. exact Ht.
  - intros Hv. eapply save_keys_covers; eauto.
Qed.

(** ** [bulkSave] again runs to its end *)

Lemma bind_returns {A B} (m : M A) (k : A -> M B) s s1 a :
  m s = (s1, Ok a) -> bind m k s = k a s1.
Proof. unfold bind. intros ->. reflexivity. Qed.

Lemma no_faults_next s : faults s = [] -> fails_next s = false.
Proof. unfold fails_next. intros ->. reflexivity. Qed.

Lemma exec_returns {A} c (q : Sql.statement A) s db a :
  faults s = [] ->
  q (clock s) (Sql.uuid_generate_v4 (uuid_seed s)) (view c s) = Ok (db, a) ->
  exec c q s = (set_view c db (sent s), Ok a) /\
  faults (set_view c db (sent s)) = [].
Proof.
  intros Hf Hq. unfold exec. rewrite (no_faults_next _ Hf), Hq.
  split; [reflexivity|]. destruct c; simpl; rewrite Hf; reflexivity.
Qed.

Lemma withTransaction_returns {A} (callback : M A) st :
  faults st = [] ->
  (exists s2 a, callback (set_view Client (pool_db st) (sent st)) = (s2, Ok a) /\
                faults s2 = []) ->
  exists st' a, withTransaction callback st = (st', Ok a).
Proof.
  intros Hf (s2 & a & Hcb & Hf2).
  unfold withTransaction, try_catch, bind, begin_tx, commit_tx, ret.
  rewrite (no_faults_next _ Hf), Hcb, (no_faults_next _ Hf2). eauto.
Qed.

(** [UPDATE tags SET display, sort_order, updated_at WHERE id] breaks no
    constraint. *)
Lemma update_tags_flat_returns d n i now uuid db :
  Sql.tags_ok (tbl_tags db) ->
  exists db' rows,
    Sql.update_tags [Sql.SetDisplay d; Sql.SetSortOrder n; Sql.SetUpdatedAtNow]
                    i now uuid db = Ok (db', rows).
Proof.
  intros (Hid & Hval & Hall). rewrite Forall_forall in Hall.
  unfold Sql.update_tags. cbv zeta.
  set (f := fun t : Tag.t =>
              if decide (Tag.id t = i)
              then foldl (Sql.assign_tag now) t
                     [Sql.SetDisplay d; Sql.SetSortOrder n; Sql.SetUpdatedAtNow]
              else t).
  assert (forall t, Tag.id (f t) = Tag.id t) as Hfid
      by (intros t; unfold f; case_decide; reflexivity).
  assert (forall t, Tag.value (f t) = Tag.value t) as Hfval
      by (intros t; unfold f; case_decide; reflexivity).
  assert (forall t, Tag.parent_tag_id (f t) = Tag.parent_tag_id t) as Hfpar
      by (intros t; unfold f; case_decide; reflexivity).
  assert (Tag.id <$> (f <$> tbl_tags db) = Tag.id <$> tbl_tags db) as Hids.
  { rewrite <- list_fmap_compose. apply list_fmap_ext. intros _ t _. apply Hfid. }
  rewrite decide_True; [rewrite decide_True; [eauto|]|].
  - apply Forall_forall. intros c Hc. apply list_elem_of_filter in Hc as [_ Hc].
    apply list_elem_of_fmap in Hc as (c0 & -> & Hc0).
    rewrite Hids, Hfpar. apply (Hall c0 Hc0).
  - apply Forall_forall. intros c Hc. apply list_elem_of_filter in Hc as [Hci Hc].
    apply list_elem_of_fmap in Hc as (c0 & -> & Hc0).
    apply Forall_forall. intros t Ht.
    apply list_elem_of_fmap in Ht as (t0 & -> & Ht0).
    rewrite Hfid in *. rewrite !Hfval.
    destruct (decide (Tag.id t0 = i)) as [Heq|Hne]; [left; exact Heq|].
    right. intros Hv. apply Hne.
    rewrite (tags_same_value _ _ _ Hid Hval Ht0 Hc0 Hv). exact Hci.
Qed.

Lemma upsert_known_returns snapshot tag s :
  is_Some (snapshot !! TagInput.value tag) ->
  Sql.db_ok (client_db s) -> faults s = [] ->
  exists s', upsert snapshot tag s = (s', Ok tt) /\ faults s' = [].
Proof.
  intros [e He] (Hok & _) Hf. unfold upsert. rewrite He.
  destruct (update_tags_flat_returns (TagInput.display tag) (TagInput.sort_order tag)
              (Tag.id e) (clock s) (Sql.uuid_generate_v4 (uuid_seed s)) _ Hok)
    as (db' & rows & Hq).
  destruct (exec_returns Client _ s db' rows Hf Hq) as [Hrun Hf'].
  unfold client_query. rewrite (bind_returns _ _ _ _ _ Hrun). eauto.
Qed.

Lemma for_each_upsert_returns snapshot rest s :
  (forall e, e ∈ rest -> is_Some (snapshot !! TagInput.value e)) ->
  Sql.db_ok (client_db s) -> faults s = [] ->
  exists s', for_each rest (upsert snapshot) s = (s', Ok tt) /\ faults s' = [].
Proof.
  revert s. induction rest as [|e rest IH]; intros s Hknown Hok Hf.
  - exists s. split; [reflexivity | exact Hf].
  - destruct (upsert_known_returns snapshot e s (Hknown e ltac:(left)) Hok Hf)
      as (s1 & Hrun & Hf1).
    cbn [for_each]. rewrite (bind_returns _ _ _ _ _ Hrun).
    apply IH; [|eapply keeps_constraints_upsert; eauto|exact Hf1].
    intros x Hx. apply Hknown. right. exact Hx.
Qed.

Lemma bulkSave_loop input :
  TagModel.bulkSave input =
  withTransaction
    (let! existing := client_query Sql.select_tags in
     let! _ :=
       if decide (0 < length (filter (fun t => Tag.value t ∉
                     (list_to_set (TagInput.value <$> input) : gset string)) existing))%nat
       then client_query
              (Sql.delete_tags
                 (Tag.id <$> filter (fun t => Tag.value t ∉
                     (list_to_set (TagInput.value <$> input) : gset string)) existing))
       else ret 0%nat in
     let! _ :=
       for_each input
         (upsert (foldl (fun m t => <[Tag.value t := t]> m) ∅ existing)) in
     client_query Sql.select_tags_ordered).
Proof. reflexivity. Qed.

(** A table whose values are all in the input, saved again, sends updates
    only, and none of them is refused. *)
Lemma bulkSave_known_returns input st :
  Sql.db_ok (pool_db st) ->
  (forall v, v ∈ Tag.value <$> tbl_tags (pool_db st) <-> v ∈ TagInput.value <$> input) ->
  faults st = [] ->
  exists st' r, TagModel.bulkSave input st = (st', Ok r).
Proof.
  intros Hok Hvalues Hf. rewrite bulkSave_loop.
  apply withTransaction_returns; [exact Hf|].
  set (s0 := set_view Client (pool_db st) (sent st)).
  assert (faults s0 = []) as Hf0 by (simpl; rewrite Hf; reflexivity).
  destruct (exec_returns Client Sql.select_tags s0 _ _ Hf0 eq_refl) as [Hsel Hf1].
  unfold client_query at 1. rewrite (bind_returns _ _ _ _ _ Hsel).
  change (view Client s0) with (pool_db st) in *.
  rewrite filter_none.
  2:{ intros t Ht Hv. apply Hv. apply elem_of_list_to_set. apply Hvalues.
      apply list_elem_of_fmap. eauto. }
  rewrite decide_False by (simpl; lia).
  rewrite (bind_returns (ret 0%nat) _ _ _ _ eq_refl).
  set (s1 := set_view Client (pool_db st) (sent s0)) in *.
  destruct (for_each_upsert_returns
              (foldl (fun m t => <[Tag.value t := t]> m) ∅ (tbl_tags (pool_db st)))
              input s1) as (s2 & Hloop & Hf2).
  - intros e He.
    assert (TagInput.value e ∈ Tag.value <$> tbl_tags (pool_db st)) as Hin
        by (apply Hvalues, list_elem_of_fmap; eauto).
    apply list_elem_of_fmap in Hin as (t & Hv & Ht). exists t.
    rewrite Hv. apply snapshot_lookup_row; [apply Hok | exact Ht].
  - exact Hok.
  - exact Hf1.
  - rewrite (bind_returns _ _ _ _ _ Hloop).
    destruct (exec_returns Client Sql.select_tags_ordered s2 _ _ Hf2 eq_refl)
      as [Hlast Hf3].
    unfold client_query. rewrite Hlast. eauto.
Qed.

(** X14. [bulkSave] again with the same input, after a [bulkSave] that
    returned on a store that satisfies the schema's constraints, and
    whenever no tag the input keeps stands under one it drops: the second
    run returns when the store does not fail, and it leaves the tag set, by
    value, display and sort order, of the first. *)
Lemma bulkSave_idempotent_without_cascade input st st1 r1 :
  Sql.db_ok (pool_db st) ->
  no_kept_under_dropped input (tbl_tags (pool_db st)) ->
  TagModel.bulkSave input st = (st1, Ok r1) ->
  (faults st1 = [] -> exists st2 r2, TagModel.bulkSave input st1 = (st2, Ok r2)) /\
  (forall st2 r2, TagModel.bulkSave input st1 = (st2, Ok r2) ->
                  tag_set st2 = tag_set st1).
Proof.
  intros Hok Hkept Hone.
  pose proof (bulkSave_db_ok _ _ _ _ Hone Hok) as Hok1.
  destruct Hok as ((Hid & Hval & _) & _).
  destruct (bulkSave_once _ _ _ _ Hid Hval Hkept Hone)
    as (Hid1 & Hval1 & Hvalues & keys & known & Hkeys & Hknown).
  split; [intros Hf; apply bulkSave_known_returns; assumption|].
  intros st2 r2 Htwo.
  apply bulkSave_ok in Htwo as (s1' & s2' & u' & Hstart' & Hloop' & Hend').
  assert (no_kept_under_dropped input (tbl_tags (pool_db st1))) as Hkept1.
  { intros t h _ Hh _ _. apply Hvalues. apply list_elem_of_fmap. eauto. }
  rewrite kept_rows in Hstart' by assumption.
  rewrite filter_all in Hstart'
    by (intros t Ht; apply Hvalues; apply list_elem_of_fmap; eauto).
  pose proof (snapshot_agrees_kept (TagInput.value <$> input) _ Hid1 Hval1) as Hagree'.
  rewrite filter_all in Hagree'
    by (intros t Ht; apply Hvalues; apply list_elem_of_fmap; eauto).
  rewrite <- Hstart' in Hagree' at 2.
  apply (for_each_upsert_keys (TagInput.value <$> input)) in Hloop' as [Hkeys' _];
    [|intros e He; apply list_elem_of_fmap; eauto|exact Hagree'].
  rewrite <- Hend', Hstart' in Hkeys'.
  rewrite (save_keys_again _ _ _ _ _ Hkeys Hknown) in Hkeys'.
  - rewrite !tag_set_keys. injection Hkeys' as ->. reflexivity.
  - intros v Hv. rewrite tag_key_values in Hv.
    apply list_elem_of_fmap in Hv as (t & -> & Ht).
    unfold known_in. apply bool_decide_eq_true. exists t.
    apply snapshot_lookup; auto.
Qed.

Lemma food_and_pizza_no_cascade :
  no_kept_under_dropped food_and_pizza (tbl_tags (pool_db (Sample.store []))).
Proof.
  assert (Forall (fun t =>
            Forall (fun h => Tag.parent_tag_id t = Some (Tag.id h) ->
                             Tag.value h ∈ TagInput.value <$> food_and_pizza)
                   (tbl_tags Sample.db)) (tbl_tags Sample.db)) as Hall
      by (apply (bool_decide_unpack _); vm_compute; reflexivity).
  intros t h Ht Hh Hp _. rewrite Forall_forall in Hall.
  specialize (Hall t Ht). rewrite Forall_forall in Hall. exact (Hall h Hh Hp).
Qed.

(** * Further properties of the code *)

(** ** Stored phone numbers ([normalizePhone], [displayPhone]) *)

Lemma keep_digits_digits (s : string) :
  Forall (fun c => JsString.is_digit c = true)
         (list_ascii_of_string (JsString.keep_digits s)).
Proof.
  induction s as [|c s IH]; simpl; [constructor|].
  destruct (JsString.is_digit c) eqn:Hc; [|exact IH].
  simpl. constructor; assumption.
Qed.

Lemma keep_digits_of_digits (s : string) :
  Forall (fun c => JsString.is_digit c = true) (list_ascii_of_string s) ->
  JsString.keep_digits s = s.
Proof.
  induction s as [|c s IH]; simpl; [reflexivity|].
  intros H. apply Forall_cons in H as [Hc H]. rewrite Hc, IH by exact H. reflexivity.
Qed.

Lemma keep_digits_app (a b : string) :
  JsString.keep_digits (a +:+ b) = JsString.keep_digits a +:+ JsString.keep_digits b.
Proof.
  induction a as [|c a IH]; simpl; [reflexivity|].
  destruct (JsString.is_digit c); simpl; rewrite IH; reflexivity.
Qed.

Lemma normalizePhone_Some (input : option string) (d : string) :
  normalizePhone input = Some d ->
  String.length d = 10%nat /\
  Forall (fun c => JsString.is_digit c = true) (list_ascii_of_string d).
Proof.
  destruct input as [[|c p]|]; try discriminate.
  rewrite normalizePhone_ten_digits. unfold ten_digits.
  case_decide as Hlen; [|discriminate]. intros [= <-].
  split; [exact Hlen | exact (keep_digits_digits (String c p))].
Qed.

(** X1. A phone number that [normalizePhone] stores has exactly ten
    characters, all of them digits, and [normalizePhone] stores it as it is
    when it is handed in again. *)
Theorem stored_phone_is_stable (input : option string) (d : string) :
  normalizePhone input = Some d ->
  String.length d = 10%nat /\
  Forall (fun c => JsString.is_digit c = true) (list_ascii_of_string d) /\
  normalizePhone (Some d) = Some d.
Proof.
  intros H. destruct (normalizePhone_Some _ _ H) as [Hlen Hdig].
  split; [exact Hlen|]. split; [exact Hdig|].
  rewrite normalizePhone_ten_digits. unfold ten_digits.
  rewrite (keep_digits_of_digits _ Hdig). rewrite decide_True by exact Hlen.
  reflexivity.
Qed.

Lemma stored_phone_is_stable_witness :
  normalizePhone (Some "2125551234") = Some "2125551234".
Proof.
  apply (stored_phone_is_stable (Some "(212) 555-1234") "2125551234").
  vm_compute. reflexivity.
Defined.

(** X2. The phone number the public page displays for a stored number has
    the form [(ddd) ddd-dddd], fourteen characters, and [normalizePhone]
    turns it back into the stored number. *)
Theorem displayed_phone_normalizes_back (input : option string) (d : string) :
  normalizePhone input = Some d ->
  String.length (PublicRoutes.displayPhone (Some d)) = 14%nat /\
  normalizePhone (Some (PublicRoutes.displayPhone (Some d))) = Some d.
Proof.
  intros H. destruct (normalizePhone_Some _ _ H) as [Hlen Hdig].
  do 10 (destruct d as [|? d]; [discriminate Hlen|]).
  destruct d; [|discriminate Hlen].
  simpl in Hdig. repeat (apply Forall_cons in Hdig as [? Hdig]).
  split; [reflexivity|].
  rewrite normalizePhone_ten_digits. unfold ten_digits, PublicRoutes.displayPhone.
  cbn [or_null substring append].
  rewrite !keep_digits_app.
  change (JsString.keep_digits "(") with "".
  change (JsString.keep_digits ") ") with "".
  change (JsString.keep_digits "-") with "".
  cbn [JsString.keep_digits].
  rewrite H0, H1, H2, H3, H4, H5, H6, H7, H8, H9. reflexivity.
Qed.

Lemma displayed_phone_normalizes_back_witness :
  String.length (PublicRoutes.displayPhone (Some "2125551234")) = 14%nat /\
  normalizePhone (Some (PublicRoutes.displayPhone (Some "2125551234"))) =
    Some "2125551234".
Proof.
  apply (displayed_phone_normalizes_back (Some "(212) 555-1234")).
  vm_compute. reflexivity.
Defined.

(** ** Stored text ([toHtmlBreaks]) *)

Lemma replace_newline_no_lf (k : nat) (s : string) :
  JsString.LF ∉ list_ascii_of_string
                  (JsString.replace_from JsString.match_newline "<br/>" k s).
Proof.
  revert k. induction s as [|c s IH]; intros k.
  - simpl. apply not_elem_of_nil.
  - cbn [JsString.replace_from]. destruct k as [|k]; [|apply IH].
    destruct (JsString.match_newline (String c s)) as [n|] eqn:Hm.
    + simpl. unfold JsString.LF.
      repeat (apply not_elem_of_cons; split; [discriminate|]). apply IH.
    + simpl. apply not_elem_of_cons. split; [|apply IH].
      intros <-. discriminate Hm.
Qed.

Lemma replace_newline_id (s : string) :
  JsString.LF ∉ list_ascii_of_string s ->
  JsString.replace_from JsString.match_newline "<br/>" 0 s = s.
Proof.
  induction s as [|c s IH]; [reflexivity|].
  simpl list_ascii_of_string. intros Hno.
  apply not_elem_of_cons in Hno as [Hc Hno].
  cbn [JsString.replace_from].
  assert (JsString.match_newline (String c s) = None) as ->.
  { unfold JsString.match_newline.
    destruct (Ascii.eqb_spec c JsString.LF) as [->|_]; [contradiction|].
    destruct (Ascii.eqb c JsString.CR); [|reflexivity].
    destruct s as [|d s]; [reflexivity|].
    destruct (Ascii.eqb_spec d JsString.LF) as [->|_]; [|reflexivity].
    exfalso. apply Hno. left. }
  rewrite IH by exact Hno. reflexivity.
Qed.

(** X3. A text that [toHtmlBreaks] stores is not empty and holds no line
    feed, and [toHtmlBreaks] stores it as it is when it is handed in again:
    encoding twice is encoding once. *)
Theorem stored_text_has_no_line_feed (text : option string) (s : string) :
  toHtmlBreaks text = Some s ->
  s <> "" /\
  (JsString.LF ∉ list_ascii_of_string s) /\
  toHtmlBreaks (Some s) = Some s.
Proof.
  destruct text as [[|c t]|]; try discriminate.
  unfold toHtmlBreaks at 1. intros [= <-].
  assert (JsString.replace_all JsString.match_newline "<br/>" (String c t) <> "")
    as Hne.
  { unfold JsString.replace_all. cbn [JsString.replace_from].
    destruct (JsString.match_newline (String c t)); discriminate. }
  split; [exact Hne|]. split; [apply replace_newline_no_lf|].
  unfold toHtmlBreaks.
  destruct (JsString.replace_all _ _ _) as [|c' t'] eqn:Hs; [contradiction|].
  rewrite <- Hs. f_equal. unfold JsString.replace_all at 1.
  apply replace_newline_id. apply replace_newline_no_lf.
Qed.

Lemma stored_text_has_no_line_feed_witness :
  toHtmlBreaks (Some "happy hour<br/>4-7pm") = Some "happy hour<br/>4-7pm".
Proof.
  apply (stored_text_has_no_line_feed (Some two_lines_crlf) "happy hour<br/>4-7pm").
  vm_compute. reflexivity.
Defined.

(** ** Place [delete] and [findById] *)

Lemma filter_unique_id (ps : list PlaceRow.t) (p : PlaceRow.t) :
  NoDup (PlaceRow.id <$> ps) -> p ∈ ps ->
  filter (fun q => PlaceRow.id q = PlaceRow.id p) ps = [p].
Proof.
  induction ps as [|q ps IH]; intros Hnd Hin; [inversion Hin|].
  rewrite fmap_cons in Hnd. apply NoDup_cons in Hnd as [Hq Hnd].
  apply elem_of_cons in Hin as [->|Hin].
  - rewrite filter_cons_True by reflexivity. f_equal.
    apply filter_none. intros x Hx Heq. apply Hq. rewrite <- Heq.
    apply list_elem_of_fmap. eauto.
  - rewrite filter_cons_False; [apply IH; assumption|].
    intros Heq. apply Hq. rewrite Heq. apply list_elem_of_fmap. eauto.
Qed.

Lemma place_delete_ok id st st' b :
  PlaceModel.delete id st = (st', Ok b) ->
  Sql.delete_places id (clock st) (Sql.uuid_generate_v4 (uuid_seed st)) (pool_db st)
    = Ok (pool_db st',
          length (filter (fun p => PlaceRow.id p = id) (tbl_places (pool_db st)))) /\
  b = bool_decide (0 < length (filter (fun p => PlaceRow.id p = id)
                                      (tbl_places (pool_db st))))%nat.
Proof.
  unfold PlaceModel.delete, query. intros H. inv_bind H. inv_exec Hrun.
  apply ret_ok in H as [-> ->]. subst s.
  unfold Sql.delete_places in *. injection Hq as <- <-.
  split; reflexivity.
Qed.

(** X4. On a store that satisfies the schema's constraints a completed
    place [delete] returns true exactly when a place of that id existed;
    afterwards the places are the old ones without that id, the tag
    associations are the old ones without those of that place, the tags are
    untouched, and the constraints hold again. *)
Theorem place_delete_removes_place_and_associations
        (id : string) (st st' : Store) (b : bool) :
  Sql.db_ok (pool_db st) ->
  PlaceModel.delete id st = (st', Ok b) ->
  let db := pool_db st in
  let db' := pool_db st' in
  (b = true <-> id ∈ PlaceRow.id <$> tbl_places db) /\
  tbl_places db' = filter (fun p => PlaceRow.id p <> id) (tbl_places db) /\
  tbl_place_tags db' = filter (fun pt => pt.1 <> id) (tbl_place_tags db) /\
  tbl_tags db' = tbl_tags db /\
  Sql.db_ok db'.
Proof.
  intros Hok H db db'.
  apply place_delete_ok in H as [Hq ->]. unfold Sql.delete_places in Hq.
  injection Hq as Hdb. fold db in Hdb. subst db'.
  destruct Hok as (Htags & (Hnd & Hne) & Hndpt & Hfk). fold db in Htags, Hnd, Hne, Hndpt, Hfk.
  rewrite Forall_forall in Hfk.
  assert (tbl_place_tags (pool_db st') = filter (fun pt => pt.1 <> id) (tbl_place_tags db)) as Hpt.
  { rewrite <- Hdb. simpl. apply filter_ext_elem. intros pt Hin.
    destruct (Hfk pt Hin) as [Hp _]. split.
    - intros Hno Heq. apply list_elem_of_fmap in Hp as (p & Hpid & Hp).
      apply Hno. apply list_elem_of_fmap. exists p. split; [exact Hpid|].
      apply list_elem_of_filter. split; [congruence | exact Hp].
    - intros Hneq Hin'. apply list_elem_of_fmap in Hin' as (p & Hpid & Hp').
      apply list_elem_of_filter in Hp' as [Hid _]. congruence. }
  split; [|split; [|split; [|split]]].
  - rewrite bool_decide_eq_true. fold db. split.
    + destruct (filter (fun p => PlaceRow.id p = id) (tbl_places db))
        as [|p l] eqn:Hf; [intros Hlen; simpl in Hlen; lia|].
      intros _.
      assert (p ∈ filter (fun p => PlaceRow.id p = id) (tbl_places db)) as Hp
          by (rewrite Hf; left).
      apply list_elem_of_filter in Hp as [<- Hp]. apply list_elem_of_fmap.
      exists p. split; [reflexivity | exact Hp].
    + intros Hin. apply list_elem_of_fmap in Hin as (p & -> & Hp).
      apply (elem_of_length_pos _ p). apply list_elem_of_filter. auto.
  - rewrite <- Hdb. reflexivity.
  - exact Hpt.
  - rewrite <- Hdb. reflexivity.
  - split; [|split; [|split]].
    + rewrite <- Hdb. exact Htags.
    + rewrite <- Hdb. simpl. split.
      * eapply sublist_NoDup; [exact Hnd|]. apply fmap_sublist, sublist_filter.
      * apply Forall_forall. intros p Hp. apply list_elem_of_filter in Hp as [_ Hp].
        rewrite Forall_forall in Hne. exact (Hne p Hp).
    + rewrite Hpt. eapply sublist_NoDup; [exact Hndpt|]. apply sublist_filter.
    + rewrite Hpt. apply Forall_forall. intros pt Hin.
      apply list_elem_of_filter in Hin as [Hneq Hin].
      destruct (Hfk pt Hin) as [Hp Ht]. split.
      * rewrite <- Hdb. simpl. apply list_elem_of_fmap in Hp as (p & Hpid & Hp).
        apply list_elem_of_fmap. exists p. split; [exact Hpid|].
        apply list_elem_of_filter. split; [congruence | exact Hp].
      * rewrite <- Hdb. exact Ht.
Qed.

Lemma place_delete_removes_place_and_associations_witness :
  tbl_places (pool_db (PlaceModel.delete "p1" (Sample.store [])).1) = [] /\
  tbl_place_tags (pool_db (PlaceModel.delete "p1" (Sample.store [])).1) = [].
Proof.
  destruct (place_delete_removes_place_and_associations
              "p1" (Sample.store []) (PlaceModel.delete "p1" (Sample.store [])).1 true)
    as (_ & Hp & Hpt & _).
  - apply (bool_decide_unpack _). vm_compute. exact I.
  - vm_compute. reflexivity.
  - split; [rewrite Hp | rewrite Hpt]; reflexivity.
Defined.

(** X5. Place [findById] changes nothing.  On a store whose places have
    distinct ids it returns null exactly when no place has the id, and
    otherwise the one record with that id that [findAll] lists. *)
Theorem place_findById_agrees_with_findAll
        (id : string) (st st' : Store) (r : option Place.t) :
  NoDup (PlaceRow.id <$> tbl_places (pool_db st)) ->
  PlaceModel.findById id st = (st', Ok r) ->
  pool_db st' = pool_db st /\
  (r = None <-> id ∉ PlaceRow.id <$> tbl_places (pool_db st)) /\
  (forall s l pl,
      PlaceModel.findAll None st = (s, Ok l) ->
      r = Some pl <-> pl ∈ l /\ PlaceRow.id (Place.row pl) = id).
Proof.
  intros Hnd H. apply findById_place_ok in H as [-> ->].
  set (db := pool_db st) in *.
  split; [reflexivity|]. split.
  - split.
    + intros Hnone Hin. apply list_elem_of_fmap in Hin as (p & -> & Hp).
      rewrite (filter_unique_id _ p Hnd Hp) in Hnone. discriminate.
    + intros Hno. rewrite filter_none; [reflexivity|].
      intros p Hp Heq. apply Hno. rewrite <- Heq. apply list_elem_of_fmap. eauto.
  - intros s l pl Hall. unfold PlaceModel.findAll, query in Hall. inv_exec Hall.
    unfold Sql.select_places in Hq. simpl in Hq. injection Hq as _ <-. fold db.
    rewrite order_by_perm, list_elem_of_fmap. split.
    + intros Hr.
      destruct (filter _ _) as [|p ps] eqn:Hf; [discriminate|].
      injection Hr as <-.
      assert (p ∈ filter (fun p => PlaceRow.id p = id) (tbl_places db)) as Hp
          by (rewrite Hf; left).
      apply list_elem_of_filter in Hp as [Hid Hp]. split; [eauto | exact Hid].
    + intros [(p & -> & Hp) Hid]. simpl in Hid. subst id.
      rewrite (filter_unique_id _ p Hnd Hp). reflexivity.
Qed.

(** ** Place [create] and [update]: tag associations and return values *)

Lemma setTags_full placeId tagValues s s' u :
  PlaceModel.setTags placeId tagValues s = (s', Ok u) ->
  let c := client_db s in
  let rows := (fun t => (placeId, Tag.id t))
                <$> filter (fun t => Tag.value t ∈ tagValues) (tbl_tags c) in
  pool_db s' = pool_db s /\
  client_db s' =
    Sql.set_place_tags
      (filter (fun pt => pt.1 <> placeId) (tbl_place_tags c) ++ rows) c /\
  (rows = [] \/ placeId ∈ PlaceRow.id <$> tbl_places c).
Proof.
  intros H c rows. unfold PlaceModel.setTags, client_query in H.
  inv_bind H. inv_exec Hrun. subst s0.
  unfold Sql.delete_place_tags_by_place in Hq. injection Hq as <- _.
  case_decide as Hlen.
  - apply ret_ok in H as [-> _].
    assert (rows = []) as ->.
    { unfold rows. destruct tagValues; [|discriminate Hlen].
      rewrite filter_none; [reflexivity|]. intros t _ Hin. inversion Hin. }
    simpl. rewrite app_nil_r. auto.
  - inv_exec H. subst s'. simpl in *.
    unfold Sql.insert_place_tags in Hq. cbv zeta in Hq. simpl in Hq.
    destruct (decide (_ \/ _)) as [Hfk|]; [|discriminate].
    case_decide; [|discriminate]. injection Hq as <- _. simpl.
    split; [reflexivity|]. split; [reflexivity|]. exact Hfk.
Qed.

Lemma fresh_place_has_no_tags db id :
  Sql.db_ok db -> id ∉ PlaceRow.id <$> tbl_places db ->
  filter (fun pt => pt.1 <> id) (tbl_place_tags db) = tbl_place_tags db.
Proof.
  intros (_ & _ & _ & Hfk) Hno. rewrite Forall_forall in Hfk.
  apply filter_all. intros pt Hin Heq. apply Hno. rewrite <- Heq.
  apply (Hfk pt Hin).
Qed.

Lemma fmap_filter_comm {A B} (f : A -> B) (P : B -> Prop)
      `{!forall x, Decision (P x)} (l : list A) :
  f <$> filter (fun x => P (f x)) l = filter P (f <$> l).
Proof.
  induction l as [|x l IH]; [reflexivity|].
  rewrite fmap_cons, !filter_cons.
  destruct (decide (P (f x))); [rewrite fmap_cons|]; rewrite IH; reflexivity.
Qed.

(** The tables a completed [create] leaves committed, and what it returns. *)
Lemma place_create_full data st st' r :
  Sql.db_ok (pool_db st) ->
  PlaceModel.create data st = (st', Ok r) ->
  let db := pool_db st in
  exists id now,
    (id ∉ PlaceRow.id <$> tbl_places db) /\
    tbl_places (pool_db st') =
      tbl_places db
      ++ [PlaceRow.mk id (PlaceInput.name data)
            (or_null (PlaceInput.address data))
            (normalizePhone (PlaceInput.phone data))
            (or_null (PlaceInput.url data))
            (toHtmlBreaks (PlaceInput.specials data))
            (or_null (PlaceInput.categories data))
            (toHtmlBreaks (PlaceInput.notes data)) now now] /\
    tbl_tags (pool_db st') = tbl_tags db /\
    tbl_place_tags (pool_db st') =
      tbl_place_tags db
      ++ ((fun t => (id, Tag.id t))
            <$> filter (fun t => Tag.value t ∈ default [] (PlaceInput.tags data))
                       (tbl_tags db)) /\
    r = None.
Proof.
  intros Hok H db. unfold PlaceModel.create in H.
  apply withTransaction_ok in H as (st2 & H & ->). simpl.
  unfold client_query in H. inv_bind H. inv_exec Hrun. subst s.
  unfold Sql.insert_place in Hq. destruct (decide (_ ∈ _)) as [|Hnew]; [discriminate|].
  injection Hq as <- <-. cbn [head] in H. simpl in Hnew. fold db in Hnew.
  inv_bind H. apply findById_place_ok in H as [-> ->]. simpl.
  exists (Sql.uuid_generate_v4 (S (uuid_seed st))), (S (clock st)).
  split; [exact Hnew|].
  assert (head (Sql.aggregate db <$>
                  filter (fun p => PlaceRow.id p =
                                   Sql.uuid_generate_v4 (S (uuid_seed st)))
                         (tbl_places db)) = None) as Hnone.
  { rewrite filter_none; [reflexivity|].
    intros p Hp Heq. apply Hnew. rewrite <- Heq. apply list_elem_of_fmap. eauto. }
  destruct (PlaceInput.tags data) as [[|v vs]|].
  - apply ret_ok in Hrun as [-> _]. simpl. fold db.
    rewrite filter_none by (intros t _ Hin; inversion Hin).
    rewrite app_nil_r. rewrite <- Hnone. repeat split; reflexivity.
  - apply setTags_full in Hrun as (Hp & -> & _). simpl in *. fold db.
    rewrite fresh_place_has_no_tags by assumption.
    rewrite Hp. simpl. fold db. rewrite <- Hnone. repeat split; reflexivity.
  - apply ret_ok in Hrun as [-> _]. simpl. fold db.
    rewrite filter_none by (intros t _ Hin; inversion Hin).
    rewrite app_nil_r. rewrite <- Hnone. repeat split; reflexivity.
Qed.

(** X6. On a store that satisfies the schema's constraints, a completed
    place [create] adds one place row under an id no place had, leaves the
    tags as they were, and associates the new place with exactly the
    existing tags whose value is in the input's [tags]; a value no tag has
    is passed over, and no other association changes. *)
Theorem place_create_associates_known_tags
        (data : PlaceInput.t) (st st' : Store) (r : option Place.t) :
  Sql.db_ok (pool_db st) ->
  PlaceModel.create data st = (st', Ok r) ->
  let db := pool_db st in
  let db' := pool_db st' in
  exists row,
    tbl_places db' = tbl_places db ++ [row] /\
    (PlaceRow.id row ∉ PlaceRow.id <$> tbl_places db) /\
    PlaceRow.name row = PlaceInput.name data /\
    tbl_tags db' = tbl_tags db /\
    (forall pt, pt ∈ tbl_place_tags db' <->
       pt ∈ tbl_place_tags db \/
       exists t, t ∈ tbl_tags db /\ pt = (PlaceRow.id row, Tag.id t) /\
                 Tag.value t ∈ default [] (PlaceInput.tags data)) /\
    Place.tags (Sql.aggregate db' row) ≡ₚ
      filter (fun v => v ∈ default [] (PlaceInput.tags data))
             (Tag.value <$> tbl_tags db).
Proof.
  intros Hok H db db'.
  destruct (place_create_full _ _ _ _ Hok H) as (id & now & Hnew & Hpl & Ht & Hpt & _).
  fold db in Hnew, Hpl, Ht, Hpt. fold db' in Hpl, Ht, Hpt.
  eexists. split; [exact Hpl|]. simpl.
  split; [exact Hnew|]. split; [reflexivity|]. split; [exact Ht|].
  assert (forall pt, pt ∈ tbl_place_tags db' <->
            pt ∈ tbl_place_tags db \/
            exists t, t ∈ tbl_tags db /\ pt = (id, Tag.id t) /\
                      Tag.value t ∈ default [] (PlaceInput.tags data)) as Hmem.
  { intros pt. rewrite Hpt, elem_of_app, list_elem_of_fmap.
    split; (intros [Hin|(t & Ht1 & Ht2)]; [left; exact Hin | right; exists t]).
    - apply list_elem_of_filter in Ht2 as [Hv Hin]. auto.
    - destruct Ht2 as [-> Hv]. split; [reflexivity|].
      apply list_elem_of_filter. auto. }
  split; [exact Hmem|].
  unfold Sql.aggregate. simpl. rewrite order_by_perm.
  unfold Sql.joined_tags. rewrite Hpt, Ht, bind_app.
  assert (tbl_place_tags db ≫=
            (fun pt => if decide (pt.1 = id)
                       then filter (fun t => Tag.id t = pt.2) (tbl_tags db)
                       else []) = []) as ->.
  { destruct Hok as (_ & _ & _ & Hfk). rewrite Forall_forall in Hfk.
    assert (forall pt, pt ∈ tbl_place_tags db -> pt.1 <> id) as Hother.
    { intros pt Hin Heq. apply Hnew. rewrite <- Heq. apply (Hfk pt Hin). }
    revert Hother. generalize (tbl_place_tags db). intros l.
    induction l as [|pt l IH]; intros Hother; [reflexivity|].
    rewrite bind_cons.
    rewrite decide_False by (apply Hother; left).
    rewrite IH by (intros x Hx; apply Hother; right; exact Hx). reflexivity. }
  simpl. destruct Hok as ((Hndid & _) & _). fold db in Hndid.
  rewrite <- (fmap_filter_comm Tag.value).
  generalize (default [] (PlaceInput.tags data)). intros vs.
  assert (forall l : list Tag.t,
             (forall t, t ∈ l -> filter (fun u => Tag.id u = Tag.id t) (tbl_tags db) = [t]) ->
             ((fun t => (id, Tag.id t)) <$> l) ≫=
               (fun pt => if decide (pt.1 = id)
                          then filter (fun t => Tag.id t = pt.2) (tbl_tags db)
                          else []) = l) as Hjoin.
  { induction l as [|t l IH]; intros Hl; [reflexivity|].
    rewrite fmap_cons, bind_cons. simpl. rewrite decide_True by reflexivity.
    rewrite (Hl t) by left. rewrite IH; [reflexivity|].
    intros x Hx. apply Hl. right. exact Hx. }
  rewrite Hjoin; [reflexivity|].
  intros t Hin. apply list_elem_of_filter in Hin as [_ Hin].
  clear -Hndid Hin. induction (tbl_tags db) as [|q ps IH]; [inversion Hin|].
  rewrite fmap_cons in Hndid. apply NoDup_cons in Hndid as [Hq Hnd].
  apply elem_of_cons in Hin as [->|Hin].
  - rewrite filter_cons_True by reflexivity. f_equal.
    apply filter_none. intros x Hx Heq. apply Hq. rewrite <- Heq.
    apply list_elem_of_fmap. eauto.
  - rewrite filter_cons_False; [apply IH; assumption|].
    intros Heq. apply Hq. rewrite Heq. apply list_elem_of_fmap. eauto.
Qed.

Lemma place_create_associates_known_tags_witness :
  exists row,
    tbl_places (pool_db joes_bar_created) = tbl_places Sample.db ++ [row] /\
    (PlaceRow.id row ∉ PlaceRow.id <$> tbl_places Sample.db) /\
    PlaceRow.name row = "Joe's Bar" /\
    tbl_tags (pool_db joes_bar_created) = tbl_tags Sample.db /\
    (forall pt, pt ∈ tbl_place_tags (pool_db joes_bar_created) <->
       pt ∈ tbl_place_tags Sample.db \/
       exists t, t ∈ tbl_tags Sample.db /\ pt = (PlaceRow.id row, Tag.id t) /\
                 Tag.value t ∈ ["food"]) /\
    Place.tags (Sql.aggregate (pool_db joes_bar_created) row) ≡ₚ
      filter (fun v => v ∈ ["food"]) (Tag.value <$> tbl_tags Sample.db).
Proof.
  apply (place_create_associates_known_tags joes_bar_input (Sample.store [])
           joes_bar_created None).
  - apply (bool_decide_unpack _). vm_compute. exact I.
  - vm_compute. reflexivity.
Defined.

Lemma fmap_no_match (ps : list PlaceRow.t) (id : string) (f : PlaceRow.t -> PlaceRow.t) :
  id ∉ PlaceRow.id <$> ps ->
  (fun p => if decide (PlaceRow.id p = id) then f p else p) <$> ps = ps.
Proof.
  intros Hno. rewrite <- (list_fmap_id ps) at 2. apply list_fmap_ext.
  intros _ p Hp%list_elem_of_lookup_2. rewrite decide_False; [reflexivity|].
  intros Heq. apply Hno. rewrite <- Heq. apply list_elem_of_fmap. eauto.
Qed.

Lemma update_tags_and_read_full id data s s' r :
  PlaceModel.update_tags_and_read id data s = (s', Ok r) ->
  let c := client_db s in
  pool_db s' = pool_db s /\
  client_db s' =
    match PlacePatch.tags data with
    | Some vs =>
        Sql.set_place_tags
          (filter (fun pt => pt.1 <> id) (tbl_place_tags c)
           ++ ((fun t => (id, Tag.id t))
                 <$> filter (fun t => Tag.value t ∈ vs) (tbl_tags c))) c
    | None => c
    end /\
  (forall vs, PlacePatch.tags data = Some vs ->
     filter (fun t => Tag.value t ∈ vs) (tbl_tags c) = [] \/
     id ∈ PlaceRow.id <$> tbl_places c) /\
  r = head (Sql.aggregate (pool_db s)
              <$> filter (fun p => PlaceRow.id p = id) (tbl_places (pool_db s))).
Proof.
  intros H c. unfold PlaceModel.update_tags_and_read in H. inv_bind H.
  apply findById_place_ok in H as [-> ->].
  destruct (PlacePatch.tags data) as [vs|].
  - apply setTags_full in Hrun as (Hp & Hc & Hfk). simpl. rewrite Hp, Hc.
    repeat split; try reflexivity. intros vs' [= <-].
    destruct Hfk as [Hfk|Hfk]; [left|right; exact Hfk].
    apply fmap_nil_inv in Hfk. exact Hfk.
  - apply ret_ok in Hrun as [-> _]. simpl. repeat split; try reflexivity.
    intros vs [=].
Qed.

(** The tables a completed [update] of an existing place leaves committed,
    and what it returns. *)
Lemma place_update_full id data st st' r p :
  head (filter (fun q => PlaceRow.id q = id) (tbl_places (pool_db st))) = Some p ->
  PlaceModel.update id data st = (st', Ok r) ->
  let db := pool_db st in
  tbl_tags (pool_db st') = tbl_tags db /\
  tbl_place_tags (pool_db st') =
    match PlacePatch.tags data with
    | Some vs =>
        filter (fun pt => pt.1 <> id) (tbl_place_tags db)
        ++ ((fun t => (id, Tag.id t))
              <$> filter (fun t => Tag.value t ∈ vs) (tbl_tags db))
    | None => tbl_place_tags db
    end /\
  r = Some (Sql.aggregate db p).
Proof.
  intros Hp H db. unfold PlaceModel.update in H.
  apply withTransaction_ok in H as (st2 & H & ->). simpl.
  assert (head (Sql.aggregate db <$>
                  filter (fun q => PlaceRow.id q = id) (tbl_places db))
          = Some (Sql.aggregate db p)) as Hread.
  { fold db in Hp. destruct (filter _ _) as [|q l]; [discriminate|].
    injection Hp as ->. reflexivity. }
  apply head_filter_Some in Hp as [Hin Hid]. fold db in Hin.
  case_decide as Hlen.
  - unfold client_query in H. inv_bind H. inv_exec Hrun. subst s.
    unfold Sql.update_places in Hq. simpl in Hq. injection Hq as <- <-.
    case_decide as Hrows.
    + exfalso. apply length_zero_iff_nil, fmap_nil_inv in Hrows.
      assert (foldl (Sql.assign_place (S (clock st))) p (PlaceModel.updates_of data)
              ∈ @nil PlaceRow.t) as Hcontra; [|inversion Hcontra].
      rewrite <- Hrows. apply list_elem_of_filter. split; [rewrite updates_of_id; exact Hid|].
      apply list_elem_of_fmap. exists p. split; [|exact Hin].
      rewrite decide_True by exact Hid. reflexivity.
    + apply update_tags_and_read_full in H as (_ & -> & _ & ->). simpl. fold db.
      split; [destruct (PlacePatch.tags data); reflexivity|].
      split; [destruct (PlacePatch.tags data); reflexivity | exact Hread].
  - apply update_tags_and_read_full in H as (_ & -> & _ & ->). simpl. fold db.
    split; [destruct (PlacePatch.tags data); reflexivity|].
    split; [destruct (PlacePatch.tags data); reflexivity | exact Hread].
Qed.

(** X7. What the place writes return is read through the pool while their
    transaction is still open, so it shows the committed rows from before:
    a completed [create] returns no record, and a completed [update] of an
    existing place returns the record as it was before the update. *)
Theorem place_writes_return_the_committed_record :
  (forall data st st' r,
      Sql.db_ok (pool_db st) ->
      PlaceModel.create data st = (st', Ok r) -> r = None) /\
  (forall id data st st' r p,
      head (filter (fun q => PlaceRow.id q = id) (tbl_places (pool_db st))) = Some p ->
      PlaceModel.update id data st = (st', Ok r) ->
      r = Some (Sql.aggregate (pool_db st) p)).
Proof.
  split.
  - intros data st st' r Hok H.
    destruct (place_create_full _ _ _ _ Hok H) as (id & now & _ & _ & _ & _ & Hr).
    exact Hr.
  - intros id data st st' r p Hp H.
    apply (place_update_full _ _ _ _ _ _ Hp H).
Qed.

Lemma place_writes_return_the_committed_record_witness :
  None = (@None Place.t) /\
  Some (Place.mk Sample.joe ["food"; "pizza"])
    = Some (Sql.aggregate (pool_db (Sample.store [])) Sample.joe).
Proof.
  destruct place_writes_return_the_committed_record as [Hcreate Hupdate].
  split.
  - symmetry. apply (Hcreate joes_bar_input (Sample.store []) joes_bar_created).
    + apply (bool_decide_unpack _). vm_compute. exact I.
    + vm_compute. reflexivity.
  - apply (Hupdate "p1" (name_only_patch "Joe's Pub") (Sample.store [])
                   (PlaceModel.update "p1" (name_only_patch "Joe's Pub")
                                      (Sample.store [])).1).
    + reflexivity.
    + vm_compute. reflexivity.
Defined.

(** X8. A completed [update] of an existing place whose patch supplies a
    tag list leaves the place associated with exactly the existing tags
    whose value is in the list: the old associations of the place are
    dropped, values no tag has are passed over, and the associations of
    every other place stay. *)
Theorem place_update_replaces_tags
        (id : string) (data : PlacePatch.t) (vs : list string)
        (st st' : Store) (r : option Place.t) (p : PlaceRow.t) :
  head (filter (fun q => PlaceRow.id q = id) (tbl_places (pool_db st))) = Some p ->
  PlacePatch.tags data = Some vs ->
  PlaceModel.update id data st = (st', Ok r) ->
  let db := pool_db st in
  let db' := pool_db st' in
  tbl_tags db' = tbl_tags db /\
  (forall t, (id, t) ∈ tbl_place_tags db' <->
             exists tag, tag ∈ tbl_tags db /\ Tag.id tag = t /\ Tag.value tag ∈ vs) /\
  (forall q t, q <> id ->
               (q, t) ∈ tbl_place_tags db' <-> (q, t) ∈ tbl_place_tags db).
Proof.
  intros Hp Hvs H db db'.
  destruct (place_update_full _ _ _ _ _ _ Hp H) as (Ht & Hpt & _).
  fold db in Ht, Hpt. fold db' in Ht, Hpt. rewrite Hvs in Hpt.
  split; [exact Ht|]. split.
  - intros t. rewrite Hpt, elem_of_app, list_elem_of_filter, list_elem_of_fmap. split.
    + intros [[Hne _]|(tag & [= ->] & Hin)]; [contradiction|].
      apply list_elem_of_filter in Hin as [Hv Hin]. eauto.
    + intros (tag & Hin & Heq & Hv). subst t. right. exists tag.
      split; [reflexivity|].
      apply list_elem_of_filter. auto.
  - intros q t Hq. rewrite Hpt, elem_of_app, list_elem_of_filter, list_elem_of_fmap. split.
    + intros [[_ Hin]|(tag & [= -> _] & _)]; [exact Hin | contradiction].
    + intros Hin. left. split; [exact Hq | exact Hin].
Qed.

Lemma place_update_replaces_tags_witness :
  tbl_tags (pool_db (PlaceModel.update "p1" (tags_only_patch ["drinks"; "wine"])
                                       (Sample.store [])).1)
    = tbl_tags (pool_db (Sample.store [])) /\
  (forall t,
      ("p1", t) ∈ tbl_place_tags
                    (pool_db (PlaceModel.update "p1" (tags_only_patch ["drinks"; "wine"])
                                                (Sample.store [])).1) <->
      exists tag, tag ∈ tbl_tags (pool_db (Sample.store [])) /\ Tag.id tag = t /\
                  Tag.value tag ∈ ["drinks"; "wine"]).
Proof.
  destruct (place_update_replaces_tags
              "p1" (tags_only_patch ["drinks"; "wine"]) ["drinks"; "wine"]
              (Sample.store [])
              (PlaceModel.update "p1" (tags_only_patch ["drinks"; "wine"])
                                 (Sample.store [])).1
              (Some (Sql.aggregate Sample.db Sample.joe)) Sample.joe)
    as (Htags & Hmine & _).
  - reflexivity.
  - reflexivity.
  - vm_compute. reflexivity.
  - split; [exact Htags | exact Hmine].
Defined.

(** ** Place [update] of an id no place has *)

Lemma set_place_tags_same db : Sql.set_place_tags (tbl_place_tags db) db = db.
Proof. destruct db; reflexivity. Qed.

Lemma set_places_same db : Sql.set_places (tbl_places db) db = db.
Proof. destruct db; reflexivity. Qed.

(** X9. On a store that satisfies the schema's constraints, an [update] of
    an id that no place has changes no committed row, whatever the patch
    and however the run ends; when it returns, it returns null. *)
Theorem place_update_of_missing_id_changes_nothing
        (id : string) (data : PlacePatch.t) (st st' : Store)
        (r : outcome (option Place.t)) :
  Sql.db_ok (pool_db st) ->
  id ∉ PlaceRow.id <$> tbl_places (pool_db st) ->
  PlaceModel.update id data st = (st', r) ->
  pool_db st' = pool_db st /\ (forall x, r = Ok x -> x = None).
Proof.
  intros Hok Hno H. destruct r as [x|e].
  2: { split; [eapply place_update_atomic; exact H | intros x [=]]. }
  unfold PlaceModel.update in H.
  apply withTransaction_ok in H as (st2 & H & ->). simpl.
  set (db := pool_db st) in *.
  assert (head (Sql.aggregate db <$>
                  filter (fun q => PlaceRow.id q = id) (tbl_places db)) = None) as Hread.
  { rewrite filter_none; [reflexivity|].
    intros q Hq Heq. apply Hno. rewrite <- Heq. apply list_elem_of_fmap. eauto. }
  assert (forall s s2 y,
             client_db s = db -> pool_db s = db ->
             PlaceModel.update_tags_and_read id data s = (s2, Ok y) ->
             client_db s2 = db /\ y = None) as Hrest.
  { intros s s2 y Hc Hp Hrun.
    apply update_tags_and_read_full in Hrun as (_ & -> & Hfk & ->).
    rewrite Hc, Hp. split; [|exact Hread].
    destruct (PlacePatch.tags data) as [vs|]; [|reflexivity].
    destruct (Hfk vs eq_refl) as [Hnil|Hin]; [|rewrite Hc in Hin; contradiction].
    rewrite Hc in Hnil. rewrite Hnil. simpl. rewrite app_nil_r.
    rewrite fresh_place_has_no_tags by assumption. apply set_place_tags_same. }
  case_decide as Hlen.
  - unfold client_query in H. inv_bind H. inv_exec Hrun. subst s.
    unfold Sql.update_places in Hq. simpl in Hq. fold db in Hq.
    rewrite fmap_no_match in Hq by exact Hno.
    rewrite set_places_same in Hq. injection Hq as <- <-.
    rewrite filter_none in H.
    2: { intros q Hq Heq. apply Hno. rewrite <- Heq. apply list_elem_of_fmap. eauto. }
    simpl in H. apply ret_ok in H as [-> ->]. simpl.
    split; [reflexivity|]. intros x [= <-]. reflexivity.
  - apply Hrest in H as [Hc ->]; [|reflexivity|reflexivity].
    split; [exact Hc|]. intros x [= <-]. reflexivity.
Qed.

Lemma place_update_of_missing_id_changes_nothing_witness :
  pool_db (PlaceModel.update "p9" (tags_only_patch ["food"]) (Sample.store [])).1
    = Sample.db /\
  (forall x, (PlaceModel.update "p9" (tags_only_patch ["food"]) (Sample.store [])).2
             = Ok x -> x = None).
Proof.
  apply (place_update_of_missing_id_changes_nothing
           "p9" (tags_only_patch ["food"]) (Sample.store [])).
  - apply (bool_decide_unpack _). vm_compute. exact I.
  - apply (bool_decide_unpack _). vm_compute. exact I.
  - apply surjective_pairing.
Defined.

(** ** Transactions ([withTransaction]) *)

(** X10. [withTransaction] commits or rolls back as a whole.  For a
    callback that writes through the client only, a run that throws, at
    [BEGIN], in the callback or at [COMMIT], leaves the committed rows as
    they were, and a run that returns commits exactly the rows its callback
    left on the client; what the callback throws is thrown on, once
    [ROLLBACK] went through.  Place [create], place [update] and tag
    [bulkSave] are such runs: when they throw they change no committed
    row. *)
Theorem transactions_commit_or_roll_back :
  (forall A (callback : M A) st st' r,
      keeps_committed callback ->
      withTransaction callback st = (st', r) ->
      match r with
      | Ok a =>
          exists s2,
            callback (set_view Client (pool_db st) (sent st)) = (s2, Ok a) /\
            pool_db st' = client_db s2
      | Err _ => pool_db st' = pool_db st
      end) /\
  (forall A (callback : M A) st s2 e,
      fails_next st = false ->
      callback (set_view Client (pool_db st) (sent st)) = (s2, Err e) ->
      fails_next s2 = false ->
      (withTransaction callback st).2 = Err e) /\
  (forall data st st' e,
      PlaceModel.create data st = (st', Err e) -> pool_db st' = pool_db st) /\
  (forall id data st st' e,
      PlaceModel.update id data st = (st', Err e) -> pool_db st' = pool_db st) /\
  (forall tags st st' e,
      TagModel.bulkSave tags st = (st', Err e) -> pool_db st' = pool_db st).
Proof.
  split; [|split; [|split; [|split]]].
  - intros A callback st st' [a|e] Hk H.
    + apply withTransaction_ok in H as (s2 & Hc & ->). exists s2.
      split; [exact Hc | reflexivity].
    + eapply withTransaction_err; [exact Hk | exact H].
  - intros A callback st s2 e Hf Hc Hf2.
    unfold withTransaction, try_catch, bind, begin_tx, rollback_tx, throw.
    rewrite Hf, Hc, Hf2. reflexivity.
  - exact place_create_atomic.
  - exact place_update_atomic.
  - exact bulkSave_atomic.
Qed.

(** ** Tag [create] and [update]: refusals, lookups and returns *)

(** X11. A tag [create] whose value some tag already has never returns: the
    insert is refused, the run throws before it recomputes any
    [has_children], and no committed row changes. *)
Theorem tag_create_refuses_a_duplicate_value
        (data : TagInput.t) (st st' : Store) (r : outcome (option Tag.t)) :
  TagInput.value data ∈ Tag.value <$> tbl_tags (pool_db st) ->
  TagModel.create data st = (st', r) ->
  pool_db st' = pool_db st /\ exists e, r = Err e.
Proof.
  intros Hdup. unfold TagModel.create, bind, query, exec.
  destruct (fails_next st).
  - intros [= <- <-]. split; [reflexivity|]. eauto.
  - unfold Sql.insert_tag. case_decide.
    + intros [= <- <-]. split; [reflexivity|]. eauto.
    + rewrite decide_True by exact Hdup.
      intros [= <- <-]. split; [reflexivity|]. eauto.
Qed.

Lemma tag_create_refuses_a_duplicate_value_witness :
  pool_db (TagModel.create (TagInput.mk "food" "Food again" 5 None)
                           (Sample.store [])).1 = Sample.db /\
  exists e,
    (TagModel.create (TagInput.mk "food" "Food again" 5 None) (Sample.store [])).2
      = Err e.
Proof.
  apply (tag_create_refuses_a_duplicate_value
           (TagInput.mk "food" "Food again" 5 None) (Sample.store [])).
  - apply (bool_decide_unpack _). vm_compute. exact I.
  - apply surjective_pairing.
Defined.

(** The row a completed tag [create] inserts and returns. *)
Lemma tag_create_full data st st' r :
  TagModel.create data st = (st', Ok r) ->
  let db := pool_db st in
  let parent := or_null (mjoin (TagInput.parent_tag_id data)) in
  let row := Tag.mk (Sql.uuid_generate_v4 (uuid_seed st)) (TagInput.value data)
                    (TagInput.display data) (TagInput.sort_order data) parent
                    false (clock st) (clock st) in
  r = Some row /\
  (Tag.id row ∉ Tag.id <$> tbl_tags db) /\
  (TagInput.value data ∉ Tag.value <$> tbl_tags db) /\
  Sql.references (Tag.id <$> (tbl_tags db ++ [row])) parent /\
  tbl_tags (pool_db st') = recomputed_for parent (tbl_tags db ++ [row]) /\
  tbl_places (pool_db st') = tbl_places db /\
  tbl_place_tags (pool_db st') = tbl_place_tags db.
Proof.
  intros H db parent row. unfold TagModel.create, query in H.
  inv_bind H. inv_exec Hrun. subst s.
  unfold Sql.insert_tag in Hq. cbv zeta in Hq. fold db parent row in Hq.
  destruct (decide (_ ∈ Tag.id <$> _)) as [|Hnew]; [discriminate|].
  destruct (decide (_ ∈ Tag.value <$> _)) as [|Hfresh]; [discriminate|].
  destruct (decide (Sql.references _ _)) as [Hfk|]; [|discriminate].
  injection Hq as <- <-. inv_bind H. apply ret_ok in H as [-> ->].
  fold parent in Hrun.
  apply recompute_if_ok in Hrun as (Ht & Hp & Hpt). simpl in Ht, Hp, Hpt.
  repeat split; assumption.
Qed.

Lemma filter_fmap_value (g : Tag.t -> Tag.t) (v : string) (l : list Tag.t) :
  (forall t, Tag.value (g t) = Tag.value t) ->
  filter (fun t => Tag.value t = v) (g <$> l) = g <$> filter (fun t => Tag.value t = v) l.
Proof.
  intros Hg. induction l as [|t l IH]; [reflexivity|].
  rewrite fmap_cons, !filter_cons, Hg.
  destruct (decide (Tag.value t = v)); [rewrite fmap_cons|]; rewrite IH; reflexivity.
Qed.

(** X12. A completed tag [create] returns the row it inserted: a new id, the
    value, display, sort order and parent of the input (an empty or absent
    parent is null), and [has_children] false; the value was not in use.
    Places and tag associations are untouched, and [findByValue] for that
    value then returns that row, with at most [has_children] recomputed. *)
Theorem tag_create_then_findByValue
        (data : TagInput.t) (st st' : Store) (r : option Tag.t) :
  TagModel.create data st = (st', Ok r) ->
  exists row,
    r = Some row /\
    (Tag.id row ∉ Tag.id <$> tbl_tags (pool_db st)) /\
    (Tag.value row ∉ Tag.value <$> tbl_tags (pool_db st)) /\
    Tag.value row = TagInput.value data /\
    Tag.display row = TagInput.display data /\
    Tag.sort_order row = TagInput.sort_order data /\
    Tag.parent_tag_id row = or_null (mjoin (TagInput.parent_tag_id data)) /\
    Tag.has_children row = false /\
    tbl_places (pool_db st') = tbl_places (pool_db st) /\
    tbl_place_tags (pool_db st') = tbl_place_tags (pool_db st) /\
    forall s x,
      TagModel.findByValue (TagInput.value data) st' = (s, Ok x) ->
      exists b, x = Some (Tag.with_has_children b row).
Proof.
  intros H. destruct (tag_create_full _ _ _ _ H) as (-> & Hnew & Hfresh & _ & Ht & Hp & Hpt).
  eexists. split; [reflexivity|]. simpl.
  split; [exact Hnew|]. split; [exact Hfresh|].
  do 5 (split; [reflexivity|]). split; [exact Hp|]. split; [exact Hpt|].
  intros s x Hfind. unfold TagModel.findByValue, query in Hfind.
  inv_bind Hfind. inv_exec Hrun. apply ret_ok in Hfind as [_ ->].
  unfold Sql.select_tags_by_value in Hq. injection Hq as _ <-. simpl.
  rewrite Ht, recomputed_for_fmap.
  rewrite filter_fmap_value.
  2: { intros t. case_decide; reflexivity. }
  rewrite filter_app, filter_none.
  2: { intros t Hin Hv. apply Hfresh. rewrite <- Hv. apply list_elem_of_fmap. eauto. }
  rewrite filter_cons_True by reflexivity. simpl.
  case_decide; [eexists; reflexivity | exists false; reflexivity].
Qed.

(** X13. A tag [update] of an id no tag has returns null and writes
    nothing; a tag [update] with a patch that supplies no field returns the
    stored tag and writes nothing, not even [updated_at]. *)
Theorem tag_update_of_missing_id_or_with_empty_patch :
  (forall id data st st' r,
      id ∉ Tag.id <$> tbl_tags (pool_db st) ->
      TagModel.update id data st = (st', Ok r) ->
      r = None /\ pool_db st' = pool_db st) /\
  (forall id st st' r old,
      head (filter (fun t => Tag.id t = id) (tbl_tags (pool_db st))) = Some old ->
      TagModel.update id (TagPatch.mk None None None None) st = (st', Ok r) ->
      r = Some old /\ pool_db st' = pool_db st).
Proof.
  split.
  - intros id data st st' r Hno H. unfold TagModel.update in H. inv_bind H.
    apply findById_tag_ok in Hrun as [-> ->].
    rewrite filter_none in H.
    2: { intros t Ht Heq. apply Hno. rewrite <- Heq. apply list_elem_of_fmap. eauto. }
    apply ret_ok in H as [-> ->]. split; reflexivity.
  - intros id st st' r old Hold H. unfold TagModel.update in H. inv_bind H.
    apply findById_tag_ok in Hrun as [-> ->]. rewrite Hold in H.
    apply ret_ok in H as [-> ->]. split; reflexivity.
Qed.

Lemma tag_create_then_findByValue_witness :
  exists row,
    returned None (TagModel.create beer_input (Sample.store [])) = Some row /\
    Tag.value row = "beer" /\
    Tag.parent_tag_id row = Some "t3" /\
    Tag.has_children row = false.
Proof.
  destruct (tag_create_then_findByValue
              beer_input (Sample.store [])
              (TagModel.create beer_input (Sample.store [])).1
              (returned None (TagModel.create beer_input (Sample.store []))))
    as (row & Hr & _ & _ & Hv & _ & _ & Hp & Hc & _).
  - vm_compute. reflexivity.
  - exists row. repeat split; assumption.
Defined.

Lemma tag_update_of_missing_id_or_with_empty_patch_witness :
  (@None Tag.t = None /\
   pool_db (TagModel.update "t9" (parent_only_patch "t1") (Sample.store [])).1
     = pool_db (Sample.store [])) /\
  (Some Sample.pizza = Some Sample.pizza /\
   pool_db (TagModel.update "t2" (TagPatch.mk None None None None) (Sample.store [])).1
     = pool_db (Sample.store [])).
Proof.
  destruct tag_update_of_missing_id_or_with_empty_patch as [Hmissing Hempty].
  split.
  - apply (Hmissing "t9" (parent_only_patch "t1") (Sample.store [])).
    + apply (bool_decide_unpack _). vm_compute. exact I.
    + vm_compute. reflexivity.
  - apply (Hempty "t2" (Sample.store [])); [reflexivity | vm_compute; reflexivity].
Defined.

(** ** The remaining tag queries *)

Lemma tag_le_total a b : Sql.tag_le a b = true \/ Sql.tag_le b a = true.
Proof.
  unfold Sql.tag_le.
  destruct (Z.lt_trichotomy (Tag.sort_order a) (Tag.sort_order b)) as [Hlt|[Heq|Hgt]].
  - left. apply orb_true_iff. left. apply Z.ltb_lt. exact Hlt.
  - destruct (collate_total (Tag.value a) (Tag.value b)) as [Hab|Hba].
    + left. apply orb_true_iff. right. apply andb_true_iff.
      split; [apply Z.eqb_eq; exact Heq | exact Hab].
    + right. apply orb_true_iff. right. apply andb_true_iff.
      split; [apply Z.eqb_eq; symmetry; exact Heq | exact Hba].
  - right. apply orb_true_iff. left. apply Z.ltb_lt. exact Hgt.
Qed.

(** X15. [getPotentialParents] changes nothing.  On a table with distinct
    ids it returns exactly the tags without a parent, less the excluded tag
    when a non-empty id is given, sorted by sort order and then by value in
    the collation of the database: the sub-select on the children of the excluded tag removes nothing further,
    a child being no top-level tag.  No tag it returns is the excluded tag
    or one of its children. *)
Theorem potential_parents_are_the_other_top_level_tags
        (excludeTagId : option string) (st st' : Store) (r : list Tag.t) :
  NoDup (Tag.id <$> tbl_tags (pool_db st)) ->
  TagModel.getPotentialParents excludeTagId st = (st', Ok r) ->
  let ts := tbl_tags (pool_db st) in
  pool_db st' = pool_db st /\
  r ≡ₚ filter (fun t => Tag.parent_tag_id t = None /\
                        or_null excludeTagId <> Some (Tag.id t)) ts /\
  Sorted (fun a b => Sql.tag_le a b = true) r /\
  (forall t i, t ∈ r -> or_null excludeTagId = Some i ->
               Tag.id t <> i /\ Tag.parent_tag_id t <> Some i).
Proof.
  intros Hnd H ts.
  unfold TagModel.getPotentialParents, query in H. inv_exec H. subst st'.
  unfold Sql.select_potential_parents in Hq. injection Hq as <- <-. fold ts.
  split; [reflexivity|].
  assert (match or_null excludeTagId with
          | Some i =>
              filter (fun t => Tag.parent_tag_id t = None /\ Tag.id t <> i /\
                               Tag.id t ∉ Tag.id <$>
                                 filter (fun c => Tag.parent_tag_id c = Some i) ts) ts
          | None => filter (fun t => Tag.parent_tag_id t = None) ts
          end =
          filter (fun t => Tag.parent_tag_id t = None /\
                           or_null excludeTagId <> Some (Tag.id t)) ts) as ->.
  { destruct (or_null excludeTagId) as [i|].
    - apply filter_ext_elem. intros t Ht. split.
      + intros (Hp & Hi & _). split; [exact Hp | congruence].
      + intros (Hp & Hi). split; [exact Hp|]. split; [congruence|].
        intros Hc. apply list_elem_of_fmap in Hc as (c & Hid & Hc).
        apply list_elem_of_filter in Hc as [Hcp Hc].
        assert (t = c) as -> by (eapply tags_same_id; eauto).
        congruence.
    - apply filter_ext_elem. intros t Ht. split; [|tauto].
      intros Hp. split; [exact Hp | discriminate]. }
  split; [apply order_by_perm|].
  split; [apply (order_by_Sorted Sql.tag_le tag_le_total)|].
  intros t i Ht Hex. rewrite order_by_perm in Ht.
  apply list_elem_of_filter in Ht as [[Hp Hne] _]. rewrite Hex in Hne.
  split; congruence.
Qed.

Lemma pair_name_le_total (a b : string * string) :
  collate a.2 b.2 = true \/ collate b.2 a.2 = true.
Proof. apply collate_total. Qed.

Lemma findAll_filtered_by_tag_members (tag : string) (st s : Store) (l : list Place.t) :
  tag <> "" ->
  PlaceModel.findAll (Some tag) st = (s, Ok l) ->
  forall pl, pl ∈ l <->
    exists p, pl = Sql.aggregate_filtered (pool_db st) p /\
      p ∈ tbl_places (pool_db st) /\
      exists t, t ∈ tbl_tags (pool_db st) /\ Tag.value t = tag /\
                (PlaceRow.id p, Tag.id t) ∈ tbl_place_tags (pool_db st).
Proof.
  intros Htag H pl. unfold PlaceModel.findAll, query in H. inv_exec H.
  assert (or_null (Some tag) = Some tag) as Hor
    by (destruct tag; [contradiction | reflexivity]).
  rewrite Hor in Hq. unfold Sql.select_places in Hq. injection Hq as _ <-.
  simpl. rewrite order_by_perm, list_elem_of_fmap. split.
  - intros (p & -> & Hin). apply list_elem_of_filter in Hin as [Hid Hin].
    apply place_ids_tagged_elem in Hid. eauto.
  - intros (p & -> & Hin & Ht). exists p. split; [reflexivity|].
    apply list_elem_of_filter. split; [|exact Hin].
    apply place_ids_tagged_elem. exact Ht.
Qed.

(** X16. [findPlacesByTagId] changes nothing and lists, sorted by name in
    the collation of the database, the id and name of exactly the places
    associated with the tag id.  On a
    store that satisfies the schema's constraints these are the places that
    [findAll] lists for the value of that tag. *)
Theorem places_by_tag_id_are_the_places_of_the_tag
        (tagId : string) (st st' : Store) (r : list (string * string)) :
  Sql.db_ok (pool_db st) ->
  TagModel.findPlacesByTagId tagId st = (st', Ok r) ->
  let db := pool_db st in
  pool_db st' = db /\
  (forall i n, (i, n) ∈ r <->
     exists p, p ∈ tbl_places db /\ PlaceRow.id p = i /\ PlaceRow.name p = n /\
               (i, tagId) ∈ tbl_place_tags db) /\
  Sorted (fun a b => collate a.2 b.2 = true) r /\
  (forall t s l,
      t ∈ tbl_tags db -> Tag.id t = tagId -> Tag.value t <> "" ->
      PlaceModel.findAll (Some (Tag.value t)) st = (s, Ok l) ->
      forall i, i ∈ r.*1 <-> i ∈ (fun pl => PlaceRow.id (Place.row pl)) <$> l).
Proof.
  intros Hok H db.
  unfold TagModel.findPlacesByTagId, query in H. inv_exec H. subst st'.
  unfold Sql.select_places_by_tag_id in Hq. injection Hq as <- <-. fold db.
  split; [reflexivity|].
  assert (forall i n,
             (i, n) ∈ order_by (fun a b : string * string => collate a.2 b.2)
                        (tbl_places db ≫= fun p =>
                           (fun _ => (PlaceRow.id p, PlaceRow.name p))
                             <$> filter (fun pt => pt.1 = PlaceRow.id p /\ pt.2 = tagId)
                                        (tbl_place_tags db)) <->
             exists p, p ∈ tbl_places db /\ PlaceRow.id p = i /\ PlaceRow.name p = n /\
                       (i, tagId) ∈ tbl_place_tags db) as Hmem.
  { intros i n. rewrite order_by_perm, list_elem_of_bind. split.
    - intros (p & Hin & Hp). apply list_elem_of_fmap in Hin as ([q u] & [= -> ->] & Hpt).
      apply list_elem_of_filter in Hpt as [[Hq Hu] Hpt]. simpl in Hq, Hu. subst q u.
      exists p. auto.
    - intros (p & Hp & <- & <- & Hpt). exists p. split; [|exact Hp].
      apply list_elem_of_fmap. exists (PlaceRow.id p, tagId). split; [reflexivity|].
      apply list_elem_of_filter. auto. }
  split; [exact Hmem|].
  split; [apply (order_by_Sorted _ pair_name_le_total)|].
  intros t s l Ht Hid Hv Hall i.
  pose proof (findAll_filtered_by_tag_members (Tag.value t) st s l Hv Hall) as Hl.
  fold db in Hl. rewrite !list_elem_of_fmap. split.
  - intros ([i' n] & -> & Hin). apply Hmem in Hin as (p & Hp & <- & <- & Hpt).
    exists (Sql.aggregate_filtered db p). split; [reflexivity|]. apply Hl.
    exists p. split; [reflexivity|]. split; [exact Hp|]. exists t.
    split; [exact Ht|]. split; [reflexivity|]. rewrite Hid. exact Hpt.
  - intros (pl & -> & Hin). apply Hl in Hin as (p & -> & Hp & t' & Ht' & Hv' & Hpt).
    assert (t' = t) as ->.
    { destruct Hok as ((Hndid & Hndv & _) & _). eapply tags_same_value; eauto. }
    exists (PlaceRow.id p, PlaceRow.name p). split; [reflexivity|].
    apply Hmem. exists p. rewrite <- Hid. auto.
Qed.

(** ** The structured view when [has_children] is accurate *)

Lemma findAllStructured_ok st st' r :
  TagModel.findAllStructured st = (st', Ok r) ->
  r = structured_spec (order_by Sql.tag_le (tbl_tags (pool_db st))) /\
  pool_db st' = pool_db st.
Proof.
  unfold TagModel.findAllStructured, TagModel.findAll, query. intros H.
  inv_bind H. inv_exec Hrun. apply ret_ok in H as [-> ->]. subst s.
  unfold Sql.select_tags_ordered in Hq. injection Hq as <- <-.
  rewrite structured_correct. split; reflexivity.
Qed.

Lemma structured_spec_parent (allTags : list Tag.t) (P : TagWithChildren.t) :
  P ∈ StructuredTags.parents (structured_spec allTags) <->
  TagWithChildren.tag P ∈ allTags /\
  Tag.has_children (TagWithChildren.tag P) = true /\
  TagWithChildren.children P = children_of (TagWithChildren.tag P) allTags.
Proof.
  unfold structured_spec. simpl. rewrite list_elem_of_fmap. split.
  - intros (h & -> & Hh). apply list_elem_of_filter in Hh as [Hc Hh]. simpl. auto.
  - intros (Hin & Hc & Hch). exists (TagWithChildren.tag P). split.
    + destruct P as [h ch]. simpl in *. rewrite Hch. reflexivity.
    + apply list_elem_of_filter. auto.
Qed.

(** X17. On a store that satisfies the schema's constraints and whose
    [has_children] flags are the existence check, the structured view
    shows every tag: a tag without a parent is a parent entry or a
    standalone tag, and a tag with a parent is among the children of the
    entry of that parent. *)
Theorem structured_view_shows_every_tag
        (st st' : Store) (r : StructuredTags.t) :
  Sql.db_ok (pool_db st) ->
  (forall t, t ∈ tbl_tags (pool_db st) ->
             Tag.has_children t = Sql.has_child (Tag.id t) (tbl_tags (pool_db st))) ->
  TagModel.findAllStructured st = (st', Ok r) ->
  forall t, t ∈ tbl_tags (pool_db st) ->
    match Tag.parent_tag_id t with
    | None =>
        t ∈ TagWithChildren.tag <$> StructuredTags.parents r \/
        t ∈ StructuredTags.standalone r
    | Some p =>
        exists P, P ∈ StructuredTags.parents r /\
                  Tag.id (TagWithChildren.tag P) = p /\
                  t ∈ TagWithChildren.children P
    end.
Proof.
  intros Hok Hflags H t Ht. apply findAllStructured_ok in H as [-> _].
  set (allTags := order_by Sql.tag_le (tbl_tags (pool_db st))).
  assert (forall x, x ∈ allTags <-> x ∈ tbl_tags (pool_db st)) as Hall
      by (intros x; unfold allTags; rewrite order_by_perm; reflexivity).
  destruct (Tag.parent_tag_id t) as [p|] eqn:Hp.
  - destruct (db_ok_parent _ _ _ Hok Ht Hp) as (_ & h & Hh & Hid).
    exists (TagWithChildren.mk h (children_of h allTags)).
    split; [|split; [exact Hid|]].
    + apply structured_spec_parent. simpl. split; [apply Hall; exact Hh|].
      split; [|reflexivity]. rewrite (Hflags h Hh). apply has_child_true.
      exists t. split; [exact Ht | congruence].
    + simpl. apply list_elem_of_filter. split; [congruence | apply Hall; exact Ht].
  - destruct (Tag.has_children t) eqn:Hc.
    + left. apply list_elem_of_fmap.
      exists (TagWithChildren.mk t (children_of t allTags)). split; [reflexivity|].
      apply structured_spec_parent. simpl. split; [apply Hall; exact Ht | auto].
    + right. simpl. apply list_elem_of_filter. split; [auto | apply Hall; exact Ht].
Qed.

(** ** The public page: tag classes *)

Lemma tagClasses_snoc (m : gmap string string) (tags : list string) (t : string) :
  PublicRoutes.tagClasses m (tags ++ [t]) =
  let pushed := PublicRoutes.tagClasses m tags ++ [t] in
  match m !! t with
  | Some parentValue =>
      if decide (parentValue <> "" /\ parentValue ∉ pushed)
      then pushed ++ [parentValue] else pushed
  | None => pushed
  end.
Proof. unfold PublicRoutes.tagClasses. rewrite foldl_app. reflexivity. Qed.

Lemma tagClasses_elem (m : gmap string string) (tags : list string) (c : string) :
  c ∈ PublicRoutes.tagClasses m tags <->
  c ∈ tags \/ exists t, t ∈ tags /\ m !! t = Some c /\ c <> "".
Proof.
  induction tags as [|t tags IH] using rev_ind.
  - split; [intros H; inversion H|].
    intros [H|(t & H & _)]; inversion H.
  - rewrite tagClasses_snoc. cbv zeta.
    assert (c ∈ PublicRoutes.tagClasses m tags ++ [t] <->
            c ∈ tags ++ [t] \/ exists u, u ∈ tags /\ m !! u = Some c /\ c <> "") as Hpushed.
    { rewrite !elem_of_app, IH. tauto. }
    destruct (m !! t) as [pv|] eqn:Hm.
    + case_decide as Hpush.
      * rewrite elem_of_app, Hpushed, list_elem_of_singleton. split.
        -- intros [[H|(u & Hu & Hmu & Hc)]| ->].
           ++ left. exact H.
           ++ right. exists u. rewrite elem_of_app. auto.
           ++ right. exists t. rewrite elem_of_app, list_elem_of_singleton.
              split; [auto|]. split; [exact Hm | apply Hpush].
        -- intros [H|(u & Hu & Hmu & Hc)]; [auto|].
           apply elem_of_app in Hu as [Hu|Hu]; [left; right; eauto|].
           apply list_elem_of_singleton in Hu as ->. right. congruence.
      * rewrite Hpushed. split.
        -- intros [H|(u & Hu & Hmu & Hc)]; [auto|].
           right. exists u. rewrite elem_of_app. auto.
        -- intros [H|(u & Hu & Hmu & Hc)]; [auto|].
           apply elem_of_app in Hu as [Hu|Hu]; [right; eauto|].
           apply list_elem_of_singleton in Hu as ->.
           rewrite Hm in Hmu. injection Hmu as ->.
           apply Hpushed. destruct (decide (c ∈ PublicRoutes.tagClasses m tags ++ [t]))
             as [Hin|Hout]; [exact Hin|].
           exfalso. apply Hpush. auto.
    + rewrite Hpushed. split.
      * intros [H|(u & Hu & Hmu & Hc)]; [auto|].
        right. exists u. rewrite elem_of_app. auto.
      * intros [H|(u & Hu & Hmu & Hc)]; [auto|].
        apply elem_of_app in Hu as [Hu|Hu]; [right; eauto|].
        apply list_elem_of_singleton in Hu as ->. congruence.
Qed.

Lemma tagClasses_sublist (m : gmap string string) (tags : list string) :
  tags `sublist_of` PublicRoutes.tagClasses m tags /\
  (length (PublicRoutes.tagClasses m tags) <= 2 * length tags)%nat.
Proof.
  induction tags as [|t tags [IHs IHl]] using rev_ind.
  - split; [reflexivity | simpl; lia].
  - rewrite tagClasses_snoc. cbv zeta. rewrite length_app. simpl.
    assert (tags ++ [t] `sublist_of` PublicRoutes.tagClasses m tags ++ [t]) as Hs
        by (apply sublist_app; [exact IHs | reflexivity]).
    destruct (m !! t) as [pv|]; [case_decide|].
    + split; [apply sublist_inserts_r; exact Hs|]. rewrite !length_app. simpl. lia.
    + split; [exact Hs|]. rewrite length_app. simpl. lia.
    + split; [exact Hs|]. rewrite length_app. simpl. lia.
Qed.

(** X18. The [tagClasses] array of a place holds the tag values of the
    place, in their order, and besides them only parent values: a value is
    in the array exactly when it is a tag value of the place or the
    non-empty parent value the map gives for one; the array is at most
    twice as long as the tag list. *)
Theorem tag_classes_are_the_tags_and_their_parent_values
        (byChild : gmap string string) (tags : list string) :
  (forall c, c ∈ PublicRoutes.tagClasses byChild tags <->
     c ∈ tags \/ exists t, t ∈ tags /\ byChild !! t = Some c /\ c <> "") /\
  tags `sublist_of` PublicRoutes.tagClasses byChild tags /\
  (length (PublicRoutes.tagClasses byChild tags) <= 2 * length tags)%nat.
Proof.
  split; [intros c; apply tagClasses_elem | apply tagClasses_sublist].
Qed.

(** ** The public page: the handler *)

Lemma tagToParentValue_pairs (parents : list TagWithChildren.t) :
  PublicRoutes.tagToParentValue parents =
  foldl (fun (m : gmap string string) kv => <[kv.1 := kv.2]> m) ∅
        (child_parent_pairs parents).
Proof.
  unfold PublicRoutes.tagToParentValue, child_parent_pairs.
  generalize (∅ : gmap string string).
  induction parents as [|P parents IH]; intros m0; [reflexivity|].
  rewrite bind_cons, foldl_app. cbn [foldl]. rewrite IH. f_equal.
  generalize (TagWithChildren.children P). intros cs. revert m0.
  induction cs as [|c cs IHc]; intros m0; [reflexivity|].
  rewrite fmap_cons. cbn [foldl]. apply IHc.
Qed.

Lemma foldl_insert_sound (l : list (string * string)) (m0 : gmap string string) k v :
  foldl (fun (m : gmap string string) kv => <[kv.1 := kv.2]> m) m0 l !! k = Some v ->
  (k, v) ∈ l \/ m0 !! k = Some v.
Proof.
  revert m0. induction l as [|[k' v'] l IH]; intros m0 H; [right; exact H|].
  cbn [foldl] in H. apply IH in H as [H|H]; [left; right; exact H|].
  simpl in H. destruct (decide (k' = k)) as [->|Hne].
  - rewrite lookup_insert_eq in H. injection H as ->. left. left.
  - rewrite lookup_insert_ne in H by exact Hne. right. exact H.
Qed.

Lemma foldl_insert_complete (l : list (string * string)) (m0 : gmap string string) k v :
  (k, v) ∈ l \/ m0 !! k = Some v ->
  (forall v', (k, v') ∈ l -> v' = v) ->
  foldl (fun (m : gmap string string) kv => <[kv.1 := kv.2]> m) m0 l !! k = Some v.
Proof.
  revert m0. induction l as [|[k' v'] l IH]; intros m0 H Huniq.
  - destruct H as [H|H]; [inversion H | exact H].
  - cbn [foldl]. apply IH; [|intros w Hw; apply Huniq; right; exact Hw].
    destruct (decide ((k, v) ∈ l)) as [Hin|Hout]; [left; exact Hin|].
    right. simpl. destruct (decide (k' = k)) as [->|Hne].
    + rewrite lookup_insert_eq. f_equal. apply Huniq. left.
    + rewrite lookup_insert_ne by exact Hne.
      destruct H as [H|H]; [|exact H].
      apply elem_of_cons in H as [[= -> ->]|H]; [contradiction|contradiction].
Qed.

Lemma child_parent_pairs_elem (allTags : list Tag.t) v pv :
  (v, pv) ∈ child_parent_pairs (StructuredTags.parents (structured_spec allTags)) <->
  exists child P, child ∈ allTags /\ P ∈ allTags /\
                  Tag.parent_tag_id child = Some (Tag.id P) /\
                  Tag.has_children P = true /\
                  Tag.value child = v /\ Tag.value P = pv.
Proof.
  unfold child_parent_pairs. rewrite list_elem_of_bind. split.
  - intros (E & Hin & HE). apply structured_spec_parent in HE as (HP & Hc & Hch).
    rewrite Hch in Hin. apply list_elem_of_fmap in Hin as (c & [= -> ->] & Hcin).
    apply list_elem_of_filter in Hcin as [Hpar Hcin].
    exists c, (TagWithChildren.tag E). repeat split; auto.
  - intros (c & P & Hc & HP & Hpar & Hflag & <- & <-).
    exists (TagWithChildren.mk P (children_of P allTags)). split.
    + simpl. apply list_elem_of_fmap. exists c. split; [reflexivity|].
      apply list_elem_of_filter. auto.
    + apply structured_spec_parent. simpl. auto.
Qed.

(** The map of the public page, on a table with distinct ids and values. *)
Lemma tagToParentValue_lookup (allTags : list Tag.t) v pv :
  NoDup (Tag.id <$> allTags) -> NoDup (Tag.value <$> allTags) ->
  PublicRoutes.tagToParentValue (StructuredTags.parents (structured_spec allTags)) !! v
    = Some pv <->
  exists child P, child ∈ allTags /\ P ∈ allTags /\
                  Tag.parent_tag_id child = Some (Tag.id P) /\
                  Tag.has_children P = true /\
                  Tag.value child = v /\ Tag.value P = pv.
Proof.
  intros Hid Hval. rewrite tagToParentValue_pairs, <- child_parent_pairs_elem. split.
  - intros H. apply foldl_insert_sound in H as [H|H]; [exact H|].
    rewrite lookup_empty in H. discriminate.
  - intros H. apply foldl_insert_complete; [left; exact H|].
    intros pv' H'. apply child_parent_pairs_elem in H as (c & P & Hc & HP & Hpar & _ & Hv & <-).
    apply child_parent_pairs_elem in H' as (c' & P' & Hc' & HP' & Hpar' & _ & Hv' & <-).
    assert (c' = c) as -> by (eapply tags_same_value; eauto; congruence).
    assert (P' = P) as -> by (eapply tags_same_id; eauto; congruence).
    reflexivity.
Qed.

Lemma promise_all_ok {A B} (a : M A) (b : M B) st st' x :
  PublicRoutes.promise_all a b st = (st', Ok x) ->
  exists s1, a st = (s1, Ok x.1) /\ b s1 = (st', Ok x.2).
Proof.
  unfold PublicRoutes.promise_all.
  destruct (a st) as [s1 [xa|e]] eqn:Ha; destruct (b s1) as [s2 [xb|e']] eqn:Hb;
    intros [= <- <-] || intros [=].
  exists s1. split; [reflexivity | exact Hb].
Qed.

Lemma place_findAll_ok tag st st' l :
  PlaceModel.findAll tag st = (st', Ok l) ->
  pool_db st' = pool_db st /\
  Sql.select_places (or_null tag) (clock st) (Sql.uuid_generate_v4 (uuid_seed st))
                    (pool_db st) = Ok (pool_db st, l).
Proof.
  unfold PlaceModel.findAll, query. intros H. inv_exec H. subst st'.
  pose proof Hq as Hq'. unfold Sql.select_places in Hq'. injection Hq' as <- _.
  split; [reflexivity | exact Hq].
Qed.

Lemma reads_fail_on_faults_only st s2 e :
  PublicRoutes.promise_all (PlaceModel.findAll None) TagModel.findAllStructured st
    = (s2, Err e) ->
  pool_db s2 = pool_db st /\ faults st <> [].
Proof.
  destruct st as [p c fs clk seed]. simpl.
  unfold PublicRoutes.promise_all, PlaceModel.findAll, TagModel.findAllStructured,
    TagModel.findAll, bind, query, exec, ret, fails_next. simpl.
  destruct fs as [|[|] [|[|] fs]]; simpl; intros [= <- _] || intros [=];
    (split; [reflexivity | discriminate]).
Qed.

(** X19. The handler of the public page never throws and changes no row: it
    answers 500 only when the store fails, and otherwise renders the places
    of [findAll] in their order, each with the display form of its phone
    number and with its tag classes joined by spaces.  On a store that
    satisfies the schema's constraints the classes of a place are its tag
    values and, for each of its tags that has a parent flagged
    [has_children], the non-empty value of that parent. *)
Theorem public_page_renders_places_with_parent_classes
        (st st' : Store) (resp : PublicRoutes.response) :
  Sql.db_ok (pool_db st) ->
  PublicRoutes.index st = (st', Ok resp) ->
  let db := pool_db st in
  (forall s, exists s' x, PublicRoutes.index s = (s', Ok x)) /\
  pool_db st' = db /\
  match resp with
  | PublicRoutes.Status500 => faults st <> []
  | PublicRoutes.Rendered fps sts =>
      FormattedPlace.place <$> fps
        = order_by Sql.name_le (Sql.aggregate db <$> tbl_places db) /\
      sts = structured_spec (order_by Sql.tag_le (tbl_tags db)) /\
      forall fp, fp ∈ fps ->
        FormattedPlace.displayPhone fp
          = PublicRoutes.displayPhone (PlaceRow.phone (Place.row (FormattedPlace.place fp))) /\
        exists classes,
          FormattedPlace.tagClasses fp = String.concat " " classes /\
          forall c, c ∈ classes <->
            c ∈ Place.tags (FormattedPlace.place fp) \/
            exists child P,
              child ∈ tbl_tags db /\ P ∈ tbl_tags db /\
              Tag.value child ∈ Place.tags (FormattedPlace.place fp) /\
              Tag.parent_tag_id child = Some (Tag.id P) /\
              Tag.has_children P = true /\ Tag.value P = c /\ c <> ""
  end.
Proof.
  intros Hok H db. split.
  { intros s. unfold PublicRoutes.index, try_catch, bind, ret.
    destruct (PublicRoutes.promise_all _ _ s) as [s1 [x|e]]; eauto. }
  unfold PublicRoutes.index, try_catch in H.
  destruct (bind _ _ st) as [s1 [x|e]] eqn:Hbody.
  - injection H as <- <-. apply bind_ok in Hbody as ([places sts] & s2 & Hall & Hret).
    apply ret_ok in Hret as [-> ->]. simpl.
    apply promise_all_ok in Hall as (s3 & Hplaces & Htags). simpl in Hplaces, Htags.
    apply place_findAll_ok in Hplaces as [Hp3 Hq].
    unfold Sql.select_places in Hq. simpl in Hq. injection Hq as <-. fold db.
    apply findAllStructured_ok in Htags as [-> Hp2]. rewrite Hp3 in Hp2. fold db.
    rewrite Hp3. fold db.
    split; [exact Hp2|]. split.
    { unfold PublicRoutes.formattedPlaces. rewrite <- list_fmap_compose.
      etransitivity; [|apply list_fmap_id]. apply list_fmap_ext.
      intros _ pl _. reflexivity. }
    split; [reflexivity|].
    intros fp Hfp. unfold PublicRoutes.formattedPlaces in Hfp.
    apply list_elem_of_fmap in Hfp as (pl & -> & Hpl). simpl.
    split; [reflexivity|]. eexists. split; [reflexivity|].
    intros c. rewrite tagClasses_elem.
    destruct Hok as ((Hid & Hval & _) & _). fold db in Hid, Hval.
    assert (forall v pv,
               PublicRoutes.tagToParentValue
                 (StructuredTags.parents
                    (structured_spec (order_by Sql.tag_le (tbl_tags db)))) !! v = Some pv <->
               exists child P, child ∈ tbl_tags db /\ P ∈ tbl_tags db /\
                  Tag.parent_tag_id child = Some (Tag.id P) /\
                  Tag.has_children P = true /\
                  Tag.value child = v /\ Tag.value P = pv) as Hmap.
    { intros v pv. rewrite tagToParentValue_lookup.
      - split; intros (ch & P & H1 & H2 & H3); exists ch, P;
          rewrite order_by_perm in *; auto.
      - rewrite (order_by_perm Sql.tag_le). exact Hid.
      - rewrite (order_by_perm Sql.tag_le). exact Hval. }
    split.
    + intros [Hc|(t & Ht & Hm & Hne)]; [left; exact Hc|]. right.
      apply Hmap in Hm as (ch & P & H1 & H2 & H3 & H4 & <- & <-).
      exists ch, P. auto 10.
    + intros [Hc|(ch & P & H1 & H2 & H3 & H4 & H5 & <- & Hne)]; [left; exact Hc|].
      right. exists (Tag.value ch). split; [exact H3|]. split; [|exact Hne].
      apply Hmap. exists ch, P. auto 10.
  - unfold bind, ret in H. injection H as <- <-.
    unfold bind in Hbody.
    destruct (PublicRoutes.promise_all _ _ st) as [s2 [x|e']] eqn:Hall; [discriminate|].
    injection Hbody as <- _.
    apply reads_fail_on_faults_only in Hall. exact Hall.
Qed.

(** ** [bulkSave]: what it keeps, what it inserts, what it refuses *)

(** What a completed [bulkSave] ran: the [DELETE], when a tag is dropped, the
    loop, and the final read. *)
Lemma bulkSave_full input st st' r :
  TagModel.bulkSave input st = (st', Ok r) ->
  let db := pool_db st in
  let dropped := filter (fun t => Tag.value t ∉ TagInput.value <$> input) (tbl_tags db) in
  exists s1 s2 u,
    client_db s1 =
      (if decide (0 < length dropped)%nat
       then
         let ts := Sql.delete_tag_rows (Tag.id <$> dropped) (tbl_tags db) in
         let gone := filter (fun i => i ∉ Tag.id <$> ts) (Tag.id <$> tbl_tags db) in
         mkDatabase ts (tbl_places db)
                    (filter (fun pt => pt.2 ∉ gone) (tbl_place_tags db))
       else db) /\
    for_each input
      (upsert (foldl (fun m t => <[Tag.value t := t]> m) ∅ (tbl_tags db))) s1
      = (s2, Ok u) /\
    pool_db st' = client_db s2 /\
    r = order_by Sql.tag_le (tbl_tags (client_db s2)).
Proof.
  intros Hrun db dropped. unfold TagModel.bulkSave in Hrun.
  apply withTransaction_ok in Hrun as (s3 & Hrun & ->).
  inv_bind Hrun. unfold client_query in Hrun0. inv_exec Hrun0.
  unfold Sql.select_tags in Hq. injection Hq as <- <-.
  cbv zeta in Hrun. inv_bind Hrun. inv_bind Hrun.
  unfold client_query in Hrun. inv_exec Hrun.
  unfold Sql.select_tags_ordered in Hq. injection Hq as <- <-.
  cbn [view set_view client_db pool_db sent] in *. fold db in Hrun1, Hrun2.
  assert (filter (fun t => Tag.value t ∉ (list_to_set (TagInput.value <$> input) : gset string))
                 (tbl_tags db) = dropped) as Hdrop.
  { apply list_filter_iff. intros t. rewrite elem_of_list_to_set. reflexivity. }
  rewrite Hdrop in Hrun1.
  exists s0, s1, a0. split; [|split; [exact Hrun2|split]].
  - case_decide.
    + unfold client_query in Hrun1. inv_exec Hrun1.
      unfold Sql.delete_tags in Hq. injection Hq as <- _.
      rewrite Hrun1, Hrun0. reflexivity.
    + apply ret_ok in Hrun1 as [-> _]. rewrite Hrun0. reflexivity.
  - rewrite Hrun. reflexivity.
  - reflexivity.
Qed.

Lemma kept_as_refl t : kept_as t t.
Proof. repeat split. Qed.

Lemma kept_as_trans t0 t1 t2 : kept_as t0 t1 -> kept_as t1 t2 -> kept_as t0 t2.
Proof. unfold kept_as. intros (?&?&?&?&?) (?&?&?&?&?). repeat split; congruence. Qed.

Lemma inserted_for_kept e t1 t2 : inserted_for e t1 -> kept_as t1 t2 -> inserted_for e t2.
Proof. unfold kept_as, inserted_for. intros (?&?&?) (?&?&?&?&?). repeat split; congruence. Qed.

(** One turn of the loop: places and associations stay, and every row is
    an old row kept or the row inserted for the entry. *)
Lemma upsert_frame snapshot e s s' u :
  upsert snapshot e s = (s', Ok u) ->
  tbl_places (client_db s') = tbl_places (client_db s) /\
  tbl_place_tags (client_db s') = tbl_place_tags (client_db s) /\
  (forall v, v ∈ Tag.value <$> tbl_tags (client_db s) ->
             v ∈ Tag.value <$> tbl_tags (client_db s')) /\
  (snapshot !! TagInput.value e = None ->
   (TagInput.value e ∉ Tag.value <$> tbl_tags (client_db s)) /\
   TagInput.value e ∈ Tag.value <$> tbl_tags (client_db s')) /\
  forall t', t' ∈ tbl_tags (client_db s') ->
    (exists t, t ∈ tbl_tags (client_db s) /\ kept_as t t') \/ inserted_for e t'.
Proof.
  intros Hrun. unfold upsert in Hrun.
  destruct (snapshot !! TagInput.value e) as [x|] eqn:Hl.
  - inv_bind Hrun. unfold client_query in Hrun0. inv_exec Hrun0.
    apply ret_ok in Hrun as [-> _].
    unfold Sql.update_tags in Hq. cbv zeta in Hq.
    repeat case_decide; try discriminate. injection Hq as <- _.
    pose (f := fun t : Tag.t =>
                 if decide (Tag.id t = Tag.id x)
                 then foldl (Sql.assign_tag (clock s)) t
                        [Sql.SetDisplay (TagInput.display e);
                         Sql.SetSortOrder (TagInput.sort_order e);
                         Sql.SetUpdatedAtNow]
                 else t).
    assert (client_db s0 = Sql.set_tags (f <$> tbl_tags (client_db s)) (client_db s))
      as -> by (rewrite Hrun0; reflexivity).
    assert (forall t, kept_as t (f t)) as Hf
        by (intros t; unfold f; case_decide; repeat split).
    simpl. split; [reflexivity|]. split; [reflexivity|]. split; [|split; [discriminate|]].
    + intros v Hv. apply list_elem_of_fmap in Hv as (t & -> & Ht).
      apply list_elem_of_fmap. exists (f t). split; [symmetry; apply Hf|].
      apply list_elem_of_fmap. eauto.
    + intros t' Ht'. apply list_elem_of_fmap in Ht' as (t & -> & Ht). left. eauto.
  - inv_bind Hrun. unfold client_query in Hrun0. inv_exec Hrun0.
    apply ret_ok in Hrun as [-> _].
    unfold Sql.insert_tag in Hq. cbv zeta in Hq.
    destruct (decide (_ ∈ Tag.id <$> _)) as [|Hnew]; [discriminate|].
    destruct (decide (_ ∈ Tag.value <$> _)) as [|Hfresh]; [discriminate|].
    case_decide; [|discriminate]. injection Hq as <- _.
    cbn [view] in *.
    match type of Hrun0 with
    | _ = set_view Client (Sql.set_tags (_ ++ [?r]) _) _ =>
        assert (client_db s0 = Sql.set_tags (tbl_tags (client_db s) ++ [r]) (client_db s))
          as -> by (rewrite Hrun0; reflexivity)
    end.
    simpl. split; [reflexivity|]. split; [reflexivity|]. split; [|split].
    + intros v Hv. rewrite fmap_app. apply elem_of_app. left. exact Hv.
    + intros _. split; [exact Hfresh|]. rewrite fmap_app. apply elem_of_app. right. left.
    + intros t' Ht'. apply elem_of_app in Ht' as [Ht'|Ht'].
      * left. exists t'. split; [exact Ht' | apply kept_as_refl].
      * apply list_elem_of_singleton in Ht' as ->. right. repeat split.
Qed.

Lemma for_each_upsert_frame snapshot rest s s' u :
  for_each rest (upsert snapshot) s = (s', Ok u) ->
  tbl_places (client_db s') = tbl_places (client_db s) /\
  tbl_place_tags (client_db s') = tbl_place_tags (client_db s) /\
  (forall v, v ∈ Tag.value <$> tbl_tags (client_db s) ->
             v ∈ Tag.value <$> tbl_tags (client_db s')) /\
  (forall e, e ∈ rest -> snapshot !! TagInput.value e = None ->
             TagInput.value e ∉ Tag.value <$> tbl_tags (client_db s)) /\
  (forall v, snapshot !! v = None ->
             (length (filter (fun e => TagInput.value e = v) rest) <= 1)%nat) /\
  forall t', t' ∈ tbl_tags (client_db s') ->
    (exists t, t ∈ tbl_tags (client_db s) /\ kept_as t t') \/
    (exists e, e ∈ rest /\ inserted_for e t').
Proof.
  revert s. induction rest as [|e rest IH]; intros s Hrun.
  - apply ret_ok in Hrun as [-> _]. repeat split; auto.
    + intros e He. inversion He.
    + intros t' Ht'. left. exists t'. split; [exact Ht' | apply kept_as_refl].
  - cbn [for_each] in Hrun. inv_bind Hrun.
    apply upsert_frame in Hrun0 as (Hp1 & Hpt1 & Hmono1 & Hnew1 & Hrows1).
    apply IH in Hrun as (Hp2 & Hpt2 & Hmono2 & Hnew2 & Hcount2 & Hrows2).
    split; [congruence|]. split; [congruence|]. split; [auto|]. split; [|split].
    + intros x Hx Hunknown. apply elem_of_cons in Hx as [->|Hx].
      * apply (Hnew1 Hunknown).
      * intros Hin. apply (Hnew2 x Hx Hunknown). apply Hmono1. exact Hin.
    + intros v Hunknown. rewrite filter_cons. case_decide as Hv.
      * rewrite filter_none; [simpl; lia|].
        intros x Hx Hxv. apply (Hnew2 x Hx); [rewrite Hxv; exact Hunknown|].
        rewrite Hxv, <- Hv. apply Hnew1. rewrite Hv. exact Hunknown.
      * apply Hcount2. exact Hunknown.
    + intros t'' Ht''. destruct (Hrows2 t'' Ht'') as [(t' & Ht' & Hk)|(x & Hx & Hi)].
      * destruct (Hrows1 t' Ht') as [(t & Ht & Hk')|Hi].
        -- left. exists t. split; [exact Ht | eapply kept_as_trans; eauto].
        -- right. exists e. split; [left | eapply inserted_for_kept; eauto].
      * right. exists x. split; [right; exact Hx | exact Hi].
Qed.

(** X20. A completed [bulkSave] returns the tag table in [findAll]'s order
    and leaves the places alone; it adds no tag association, and it changes
    neither the id, the value, the parent, [has_children] nor [created_at]
    of a tag it keeps.  Every tag of the new table has a value of the input
    and is such a kept tag or the row inserted for an input entry, with the
    parent of the entry and [has_children] false. *)
Theorem bulkSave_keeps_ids_parents_and_flags
        (input : list TagInput.t) (st st' : Store) (r : list Tag.t) :
  TagModel.bulkSave input st = (st', Ok r) ->
  let db := pool_db st in
  let db' := pool_db st' in
  r = order_by Sql.tag_le (tbl_tags db') /\
  tbl_places db' = tbl_places db /\
  (forall pt, pt ∈ tbl_place_tags db' -> pt ∈ tbl_place_tags db) /\
  forall t, t ∈ tbl_tags db' ->
    Tag.value t ∈ TagInput.value <$> input /\
    ((exists t0, t0 ∈ tbl_tags db /\ kept_as t0 t) \/
     (exists e, e ∈ input /\ inserted_for e t)).
Proof.
  intros H db db'.
  apply bulkSave_full in H as (s1 & s2 & u & Hstart & Hloop & Hend & ->).
  fold db in Hstart, Hloop. fold db' in Hend.
  apply for_each_upsert_frame in Hloop as (Hp & Hpt & _ & _ & _ & Hrows).
  rewrite Hend. split; [reflexivity|].
  assert (tbl_places (client_db s1) = tbl_places db /\
          (forall pt, pt ∈ tbl_place_tags (client_db s1) -> pt ∈ tbl_place_tags db) /\
          (forall t, t ∈ tbl_tags (client_db s1) ->
                     t ∈ tbl_tags db /\ Tag.value t ∈ TagInput.value <$> input))
    as (Hp1 & Hpt1 & Ht1).
  { rewrite Hstart. case_decide as Hlen.
    - simpl. split; [reflexivity|]. split.
      + intros pt Hin. apply list_elem_of_filter in Hin as [_ Hin]. exact Hin.
      + intros t Ht. apply delete_tag_rows_elem in Ht as [Ht Hid]. split; [exact Ht|].
        destruct (decide (Tag.value t ∈ TagInput.value <$> input)) as [Hv|Hv]; [exact Hv|].
        exfalso. apply Hid. apply list_elem_of_fmap. exists t. split; [reflexivity|].
        apply list_elem_of_filter. auto.
    - split; [reflexivity|]. split; [auto|]. intros t Ht. split; [exact Ht|].
      destruct (decide (Tag.value t ∈ TagInput.value <$> input)) as [Hv|Hv]; [exact Hv|].
      exfalso. apply Hlen. apply (elem_of_length_pos _ t).
      apply list_elem_of_filter. auto. }
  split; [congruence|]. split; [intros pt Hin; apply Hpt1; congruence|].
  intros t Ht. destruct (Hrows t Ht) as [(t0 & Ht0 & Hk)|(e & He & Hi)].
  - destruct (Ht1 t0 Ht0) as [Hin Hv]. split.
    + destruct Hk as (_ & -> & _). exact Hv.
    + left. eauto.
  - split; [|right; eauto]. destruct Hi as (-> & _).
    apply list_elem_of_fmap. eauto.
Qed.

(** X21. A [bulkSave] whose input names twice a value that no tag has never
    returns: the second insert meets the unique index on [value]; the run
    throws and no committed row changes. *)
Theorem bulkSave_refuses_a_new_value_given_twice
        (input : list TagInput.t) (v : string) (st st' : Store)
        (r : outcome (list Tag.t)) :
  v ∉ Tag.value <$> tbl_tags (pool_db st) ->
  (2 <= length (filter (fun e => TagInput.value e = v) input))%nat ->
  TagModel.bulkSave input st = (st', r) ->
  pool_db st' = pool_db st /\ exists e, r = Err e.
Proof.
  intros Hnew Htwice H. destruct r as [x|e].
  - exfalso. apply bulkSave_full in H as (s1 & s2 & u & _ & Hloop & _).
    apply for_each_upsert_frame in Hloop as (_ & _ & _ & _ & Hcount & _).
    specialize (Hcount v). rewrite snapshot_lookup_other in Hcount by exact Hnew.
    specialize (Hcount (lookup_empty _)). lia.
  - split; [eapply bulkSave_atomic; exact H | eauto].
Qed.

(** X22. On a store that satisfies the schema's constraints, and when no
    tag the input keeps stands under one it drops, a completed [bulkSave]
    leaves exactly the values of the input as the values of the tags, each
    once, and every tag carries the display and the sort order of the last
    input entry with its value. *)
Theorem bulkSave_leaves_the_input_as_the_tag_set
        (input : list TagInput.t) (st st' : Store) (r : list Tag.t) :
  Sql.db_ok (pool_db st) ->
  no_kept_under_dropped input (tbl_tags (pool_db st)) ->
  TagModel.bulkSave input st = (st', Ok r) ->
  NoDup (Tag.value <$> tbl_tags (pool_db st')) /\
  (forall v, v ∈ Tag.value <$> tbl_tags (pool_db st') <-> v ∈ TagInput.value <$> input) /\
  forall t, t ∈ tbl_tags (pool_db st') ->
    exists e, last_entry input (Tag.value t) = Some e /\
              Tag.display t = TagInput.display e /\
              Tag.sort_order t = TagInput.sort_order e.
Proof.
  intros ((Hid & Hval & _) & _) Hkept H.
  destruct (bulkSave_once _ _ _ _ Hid Hval Hkept H)
    as (_ & Hval1 & Hvalues & keys & known & Hkeys & _).
  split; [exact Hval1|]. split; [exact Hvalues|].
  intros t Ht.
  assert (Tag.value t ∈ TagInput.value <$> input) as Hv.
  { apply Hvalues. apply list_elem_of_fmap. eauto. }
  destruct (last_entry input (Tag.value t)) as [e|] eqn:Hl.
  - exists e. split; [reflexivity|].
    assert (tag_key t = input_key e) as Hk.
    { eapply save_keys_last; [exact Hkeys| |exact Hl].
      apply list_elem_of_fmap. eauto. }
    unfold tag_key, input_key in Hk. injection Hk as _ Hd Hs. auto.
  - apply last_entry_None in Hl. contradiction.
Qed.

(** ** The schema's constraints are kept by every write *)

Lemma insert_place_db_ok name a p u s c n now seed db db' rows :
  Sql.insert_place name a p u s c n now (Sql.uuid_generate_v4 seed) db = Ok (db', rows) ->
  Sql.db_ok db -> Sql.db_ok db'.
Proof.
  unfold Sql.insert_place. destruct (decide (_ ∈ _)) as [|Hnew]; [discriminate|].
  intros [= <- _] (Ht & (Hnd & Hne) & Hndpt & Hfk).
  split; [exact Ht|]. split; [|split; [exact Hndpt|]]; simpl.
  - split.
    + rewrite fmap_app. apply NoDup_app. split; [exact Hnd|]. split; [|apply NoDup_singleton].
      intros i Hi Hi'. apply list_elem_of_singleton in Hi'. subst i. exact (Hnew Hi).
    + apply Forall_app. split; [exact Hne|]. constructor; [|constructor].
      apply uuid_not_empty.
  - rewrite Forall_forall in *. intros pt Hpt. destruct (Hfk pt Hpt) as [H1 H2].
    split; [|exact H2]. rewrite fmap_app. apply elem_of_app. left. exact H1.
Qed.

Lemma assign_place_id now p a : PlaceRow.id (Sql.assign_place now p a) = PlaceRow.id p.
Proof. destruct a; reflexivity. Qed.

Lemma foldl_assign_place_id now sets p :
  PlaceRow.id (foldl (Sql.assign_place now) p sets) = PlaceRow.id p.
Proof.
  revert p. induction sets as [|a sets IH]; intros p; [reflexivity|].
  simpl. rewrite IH. apply assign_place_id.
Qed.

Lemma update_places_db_ok sets i now uuid db db' rows :
  Sql.update_places sets i now uuid db = Ok (db', rows) ->
  Sql.db_ok db -> Sql.db_ok db'.
Proof.
  unfold Sql.update_places. intros [= <- _] (Ht & (Hnd & Hne) & Hndpt & Hfk).
  assert (PlaceRow.id <$> ((fun p => if decide (PlaceRow.id p = i)
                                     then foldl (Sql.assign_place now) p sets else p)
                             <$> tbl_places db) = PlaceRow.id <$> tbl_places db) as Hids.
  { rewrite <- list_fmap_compose. apply list_fmap_ext. intros _ p _.
    unfold compose. case_decide; [apply foldl_assign_place_id | reflexivity]. }
  split; [exact Ht|]. split; [|split; [exact Hndpt|]]; simpl.
  - split; [rewrite Hids; exact Hnd|].
    rewrite Forall_fmap. eapply Forall_impl; [exact Hne|].
    intros p Hp. unfold compose. case_decide; [rewrite foldl_assign_place_id|]; exact Hp.
  - rewrite Hids. exact Hfk.
Qed.

Lemma delete_places_db_ok i now uuid db db' n :
  Sql.delete_places i now uuid db = Ok (db', n) ->
  Sql.db_ok db -> Sql.db_ok db'.
Proof.
  unfold Sql.delete_places. intros [= <- _] (Ht & (Hnd & Hne) & Hndpt & Hfk).
  rewrite Forall_forall in Hfk.
  split; [exact Ht|]. split; [|split]; simpl.
  - split.
    + eapply sublist_NoDup; [exact Hnd|]. apply fmap_sublist, sublist_filter.
    + rewrite Forall_forall in *. intros p Hp.
      apply list_elem_of_filter in Hp as [_ Hp]. exact (Hne p Hp).
  - apply NoDup_filter. exact Hndpt.
  - apply Forall_forall. intros pt Hpt. apply list_elem_of_filter in Hpt as [Hno Hpt].
    destruct (Hfk pt Hpt) as [H1 H2]. split; [|exact H2].
    apply list_elem_of_fmap in H1 as (p & Hpid & Hp).
    apply list_elem_of_fmap. exists p. split; [exact Hpid|].
    apply list_elem_of_filter. split; [|exact Hp].
    intros Heq. apply Hno. apply list_elem_of_fmap. exists p. split; [exact Hpid|].
    apply list_elem_of_filter. auto.
Qed.

Lemma delete_place_tags_by_place_db_ok i now uuid db db' u :
  Sql.delete_place_tags_by_place i now uuid db = Ok (db', u) ->
  Sql.db_ok db -> Sql.db_ok db'.
Proof.
  unfold Sql.delete_place_tags_by_place. intros [= <- _] (Ht & Hpl & Hnd & Hfk).
  split; [exact Ht|]. split; [exact Hpl|]. split; simpl.
  - apply NoDup_filter. exact Hnd.
  - rewrite Forall_forall in *. intros pt Hpt.
    apply list_elem_of_filter in Hpt as [_ Hpt]. apply (Hfk pt Hpt).
Qed.

Lemma insert_place_tags_db_ok i vs now uuid db db' u :
  Sql.insert_place_tags i vs now uuid db = Ok (db', u) ->
  Sql.db_ok db -> Sql.db_ok db'.
Proof.
  unfold Sql.insert_place_tags. cbv zeta.
  destruct (decide (_ \/ _)) as [Hfk'|]; [|discriminate].
  destruct (decide (_ /\ _)) as [[Hndr Hnew]|]; [|discriminate].
  intros [= <- _] (Ht & Hpl & Hnd & Hfk).
  split; [exact Ht|]. split; [exact Hpl|]. split; simpl.
  - apply NoDup_app. split; [exact Hnd|]. split; [|exact Hndr].
    intros pt Hpt Hpt'. rewrite Forall_forall in Hnew. exact (Hnew pt Hpt' Hpt).
  - apply Forall_app. split; [exact Hfk|]. apply Forall_forall. intros pt Hpt.
    destruct Hfk' as [Hnil|Hin]; [rewrite Hnil in Hpt; inversion Hpt|].
    apply list_elem_of_fmap in Hpt as (t & -> & Htin).
    apply list_elem_of_filter in Htin as [_ Htin]. simpl.
    split; [exact Hin | apply list_elem_of_fmap; eauto].
Qed.

Lemma keeps_constraints_pool_read {A} (q : Sql.statement A) :
  keeps_constraints (query q).
Proof.
  intros s s' r. unfold query, exec. destruct (fails_next s).
  - intros [= <- _]. auto.
  - destruct (q _ _ _) as [[db a]|e]; intros [= <- _]; auto.
Qed.

Lemma keeps_constraints_findById id : keeps_constraints (PlaceModel.findById id).
Proof.
  apply keeps_constraints_bind; [|intros; apply keeps_constraints_ret].
  apply keeps_constraints_pool_read.
Qed.

Lemma keeps_constraints_setTags placeId tagValues :
  keeps_constraints (PlaceModel.setTags placeId tagValues).
Proof.
  apply keeps_constraints_bind.
  - apply keeps_constraints_client. intros now seed db db' a.
    apply delete_place_tags_by_place_db_ok.
  - intros _. case_decide; [apply keeps_constraints_ret|].
    apply keeps_constraints_client. intros now seed db db' a.
    apply insert_place_tags_db_ok.
Qed.

Lemma keeps_constraints_update_tags_and_read id data :
  keeps_constraints (PlaceModel.update_tags_and_read id data).
Proof.
  apply keeps_constraints_bind; [|intros; apply keeps_constraints_findById].
  destruct (PlacePatch.tags data);
    [apply keeps_constraints_setTags | apply keeps_constraints_ret].
Qed.

Lemma withTransaction_db_ok {A} (callback : M A) st st' r :
  keeps_committed callback -> keeps_constraints callback ->
  withTransaction callback st = (st', r) ->
  Sql.db_ok (pool_db st) -> Sql.db_ok (pool_db st').
Proof.
  intros Hc Hk H Hok. destruct r as [a|e].
  - apply withTransaction_ok in H as (s2 & H & ->). simpl.
    exact (Hk _ _ _ H Hok).
  - rewrite (withTransaction_err _ _ _ _ Hc H). exact Hok.
Qed.

Lemma place_create_db_ok data st st' r :
  PlaceModel.create data st = (st', r) ->
  Sql.db_ok (pool_db st) -> Sql.db_ok (pool_db st').
Proof.
  apply withTransaction_db_ok.
  - apply keeps_committed_bind; [apply keeps_committed_client|]. intros rows.
    destruct (head rows) as [place|]; [|apply keeps_committed_ret].
    apply keeps_committed_bind; [|intros; apply keeps_committed_findById].
    destruct (PlaceInput.tags data) as [[|v vs]|];
      [apply keeps_committed_ret | apply keeps_committed_setTags | apply keeps_committed_ret].
  - apply keeps_constraints_bind.
    { apply keeps_constraints_client. intros now seed db db' a.
      apply insert_place_db_ok. }
    intros rows. destruct (head rows) as [place|]; [|apply keeps_constraints_ret].
    apply keeps_constraints_bind; [|intros; apply keeps_constraints_findById].
    destruct (PlaceInput.tags data) as [[|v vs]|];
      [apply keeps_constraints_ret | apply keeps_constraints_setTags
       | apply keeps_constraints_ret].
Qed.

Lemma place_update_db_ok id data st st' r :
  PlaceModel.update id data st = (st', r) ->
  Sql.db_ok (pool_db st) -> Sql.db_ok (pool_db st').
Proof.
  apply withTransaction_db_ok; cbv zeta.
  - case_decide; [|apply keeps_committed_update_tags_and_read].
    apply keeps_committed_bind; [apply keeps_committed_client|]. intros rows.
    case_decide; [apply keeps_committed_ret | apply keeps_committed_update_tags_and_read].
  - case_decide; [|apply keeps_constraints_update_tags_and_read].
    apply keeps_constraints_bind.
    { apply keeps_constraints_client. intros now seed db db' a.
      apply update_places_db_ok. }
    intros rows.
    case_decide; [apply keeps_constraints_ret | apply keeps_constraints_update_tags_and_read].
Qed.

Lemma place_delete_db_ok id st st' r :
  PlaceModel.delete id st = (st', r) ->
  Sql.db_ok (pool_db st) -> Sql.db_ok (pool_db st').
Proof.
  unfold PlaceModel.delete, bind. intros H Hok.
  destruct (query _ st) as [s1 [n|e]] eqn:E;
    (eapply query_db_ok in E; [|intros; eapply delete_places_db_ok; eauto|exact Hok]);
    injection H as <- _; exact E.
Qed.

(** X23. Every write of the two models leaves the schema's constraints in
    force among the committed rows, however it ends, and so does every
    sequence of such writes: ids and tag values stay unique, every parent
    is an existing tag, and every association names an existing place and
    an existing tag. *)
Theorem writes_keep_the_constraints (st st' : Store) :
  rtc model_write st st' ->
  Sql.db_ok (pool_db st) -> Sql.db_ok (pool_db st').
Proof.
  intros Hsteps. induction Hsteps as [st|st st1 st' Hstep _ IH]; [auto|].
  intros Hok. apply IH.
  destruct Hstep as [data r H|id data r H|id r H|input r H|data r H|id data r H|id r H].
  - eapply tag_create_db_ok; eauto.
  - eapply tag_update_db_ok; eauto.
  - eapply tag_delete_db_ok; eauto.
  - eapply bulkSave_db_ok; eauto.
  - eapply place_create_db_ok; eauto.
  - eapply place_update_db_ok; eauto.
  - eapply place_delete_db_ok; eauto.
Qed.

End Properties.

(** * The properties on sample data

    The properties above applied to the sample data, under the sample
    server. *)

Lemma findAllStructured_parents_and_standalone_witness :
  StructuredTags.parents (TagModel.structured [Sample.food; Sample.pizza; Sample.drinks]) =
    [TagWithChildren.mk Sample.food [Sample.pizza]] /\
  StructuredTags.standalone (TagModel.structured [Sample.food; Sample.pizza; Sample.drinks]) =
    [Sample.drinks].
Proof.
  destruct (findAllStructured_parents_and_standalone
              (srv := Sample.server) (Sample.store [])
              (TagModel.findAllStructured (Sample.store [])).1
              (TagModel.structured [Sample.food; Sample.pizza; Sample.drinks])
              eq_refl) as (_ & Hp & Hs & _).
  split; [exact Hp | exact Hs].
Defined.

Lemma findAll_filtered_by_tag_witness :
  names_and_tags (returned [] (PlaceModel.findAll (Some "pizza") four_places)) =
    [("Joe's Bar", ["food"; "pizza"; "drinks"]); ("Zoo", ["pizza"]);
     ("apple", ["pizza"])] /\
  Sorted (fun a b => String.leb (PlaceRow.name (Place.row a))
                                (PlaceRow.name (Place.row b)) = true)
         (returned [] (PlaceModel.findAll (Some "pizza") four_places)).
Proof.
  split; [vm_compute; reflexivity|].
  refine (proj2 (proj2 (proj2 (findAll_filtered_by_tag
                                 (srv := Sample.server)
                                 "pizza" four_places
                                 (PlaceModel.findAll (Some "pizza") four_places).1
                                 (returned [] (PlaceModel.findAll (Some "pizza")
                                                                  four_places))
                                 _ _)))).
  - discriminate.
  - vm_compute. reflexivity.
Defined.

(** The same call on the same rows under another server: the places come
    in the order of its collation, and the two tags of [Joe's Bar] with
    equal [sort_order] in the order it lists them.  The unfiltered list
    has them in the order of the [place_tags] rows under either server. *)
Lemma findAll_filtered_follows_the_server :
  names_and_tags
    (returned [] (PlaceModel.findAll (srv := folding_server) (Some "pizza")
                                     four_places)) =
    [("apple", ["pizza"]); ("Joe's Bar", ["pizza"; "food"; "drinks"]);
     ("Zoo", ["pizza"])] /\
  names_and_tags
    (returned [] (PlaceModel.findAll (srv := folding_server) None four_places)) =
    [("apple", ["pizza"]); ("Bodega", ["drinks"]);
     ("Joe's Bar", ["pizza"; "food"; "drinks"]); ("Zoo", ["pizza"])] /\
  names_and_tags
    (returned [] (PlaceModel.findAll (srv := Sample.server) None four_places)) =
    [("Bodega", ["drinks"]); ("Joe's Bar", ["pizza"; "food"; "drinks"]);
     ("Zoo", ["pizza"]); ("apple", ["pizza"])].
Proof. repeat split; vm_compute; reflexivity. Qed.

Lemma public_page_renders_places_with_parent_classes_witness :
  pool_db (PublicRoutes.index (Sample.store [])).1 = pool_db (Sample.store []) /\
  FormattedPlace.tagClasses
    <$> match returned PublicRoutes.Status500 (PublicRoutes.index (Sample.store [])) with
        | PublicRoutes.Rendered fps _ => fps
        | PublicRoutes.Status500 => []
        end = ["food pizza"].
Proof.
  split.
  - apply (public_page_renders_places_with_parent_classes
             (Sample.store []) (PublicRoutes.index (Sample.store [])).1
             (returned PublicRoutes.Status500 (PublicRoutes.index (Sample.store [])))).
    + apply (bool_decide_unpack _). vm_compute. exact I.
    + vm_compute. reflexivity.
  - vm_compute. reflexivity.
Defined.

(** C3, the failing run.  The store holds [food], its child [pizza], and
    [drinks]; the input keeps [pizza] only.  The first [bulkSave] deletes
    [food] and [drinks], the cascade takes [pizza] with [food], and the
    update of [pizza] finds no row: no tag is left.  The second [bulkSave]
    inserts [pizza]. *)
Theorem bulkSave_twice_differs_from_once :
  (TagModel.bulkSave pizza_only (Sample.store [])).2 = Ok [] /\
  tag_set saved_once = [] /\
  tag_set saved_twice = [("pizza", "Pizza", 1%Z)] /\
  tag_set saved_twice <> tag_set saved_once.
Proof. repeat split; try reflexivity. discriminate. Qed.

Lemma bulkSave_idempotent_without_cascade_witness :
  (faults (TagModel.bulkSave food_and_pizza (Sample.store [])).1 = [] ->
   exists st2 r2,
     TagModel.bulkSave food_and_pizza
       (TagModel.bulkSave food_and_pizza (Sample.store [])).1 = (st2, Ok r2)) /\
  (forall st2 r2,
      TagModel.bulkSave food_and_pizza
        (TagModel.bulkSave food_and_pizza (Sample.store [])).1 = (st2, Ok r2) ->
      tag_set st2 = tag_set (TagModel.bulkSave food_and_pizza (Sample.store [])).1).
Proof.
  apply (bulkSave_idempotent_without_cascade
           food_and_pizza (Sample.store [])
           (TagModel.bulkSave food_and_pizza (Sample.store [])).1
           (returned [] (TagModel.bulkSave food_and_pizza (Sample.store [])))).
  - apply (bool_decide_unpack _). vm_compute. exact I.
  - exact food_and_pizza_no_cascade.
  - vm_compute. reflexivity.
Defined.

Lemma place_findById_agrees_with_findAll_witness :
  pool_db (PlaceModel.findById "p1" (Sample.store [])).1 = pool_db (Sample.store []) /\
  (Some (Sql.aggregate Sample.db Sample.joe) = None <->
   "p1" ∉ PlaceRow.id <$> tbl_places (pool_db (Sample.store []))).
Proof.
  destruct (place_findById_agrees_with_findAll
              "p1" (Sample.store []) (PlaceModel.findById "p1" (Sample.store [])).1
              (Some (Sql.aggregate Sample.db Sample.joe))) as (Hsame & Hnone & _).
  - apply (bool_decide_unpack _). vm_compute. exact I.
  - vm_compute. reflexivity.
  - split; [exact Hsame | exact Hnone].
Defined.

Lemma potential_parents_are_the_other_top_level_tags_witness :
  returned [] (TagModel.getPotentialParents (Some "t1") (Sample.store []))
    ≡ₚ filter (fun t => Tag.parent_tag_id t = None /\ Some "t1" <> Some (Tag.id t))
              (tbl_tags Sample.db).
Proof.
  apply (potential_parents_are_the_other_top_level_tags
           (Some "t1") (Sample.store [])
           (TagModel.getPotentialParents (Some "t1") (Sample.store [])).1).
  - apply (bool_decide_unpack _). vm_compute. exact I.
  - vm_compute. reflexivity.
Defined.

Lemma places_by_tag_id_are_the_places_of_the_tag_witness :
  pool_db (TagModel.findPlacesByTagId "t2" (Sample.store [])).1
    = pool_db (Sample.store []) /\
  (forall i n,
      (i, n) ∈ returned [] (TagModel.findPlacesByTagId "t2" (Sample.store [])) <->
      exists p, p ∈ tbl_places (pool_db (Sample.store [])) /\
                PlaceRow.id p = i /\ PlaceRow.name p = n /\
                (i, "t2") ∈ tbl_place_tags (pool_db (Sample.store []))).
Proof.
  destruct (places_by_tag_id_are_the_places_of_the_tag
              "t2" (Sample.store [])
              (TagModel.findPlacesByTagId "t2" (Sample.store [])).1
              (returned [] (TagModel.findPlacesByTagId "t2" (Sample.store []))))
    as (Hsame & Hmem & _).
  - apply (bool_decide_unpack _). vm_compute. exact I.
  - vm_compute. reflexivity.
  - split; [exact Hsame | exact Hmem].
Defined.

Lemma structured_view_shows_every_tag_witness :
  exists P, P ∈ StructuredTags.parents
                  (returned (StructuredTags.mk [] [])
                            (TagModel.findAllStructured (Sample.store []))) /\
            Tag.id (TagWithChildren.tag P) = "t1" /\
            Sample.pizza ∈ TagWithChildren.children P.
Proof.
  apply (structured_view_shows_every_tag
           (Sample.store []) (TagModel.findAllStructured (Sample.store [])).1
           (returned (StructuredTags.mk [] [])
                     (TagModel.findAllStructured (Sample.store [])))
           ltac:(apply (bool_decide_unpack _); vm_compute; exact I)
           ltac:(apply (Forall_forall (fun t => Tag.has_children t =
                          Sql.has_child (Tag.id t) (tbl_tags Sample.db)));
                 apply (bool_decide_unpack _); vm_compute; exact I)
           ltac:(vm_compute; reflexivity)
           Sample.pizza
           ltac:(apply (bool_decide_unpack _); vm_compute; exact I)).
Defined.

Lemma bulkSave_refuses_a_new_value_given_twice_witness :
  pool_db (TagModel.bulkSave wine_twice (Sample.store [])).1 = pool_db (Sample.store []) /\
  exists e, (TagModel.bulkSave wine_twice (Sample.store [])).2 = Err e.
Proof.
  apply (bulkSave_refuses_a_new_value_given_twice wine_twice "wine" (Sample.store [])).
  - apply (bool_decide_unpack _). vm_compute. exact I.
  - vm_compute. lia.
  - apply surjective_pairing.
Defined.

Lemma bulkSave_keeps_ids_parents_and_flags_witness :
  tbl_places (pool_db (TagModel.bulkSave with_beer (Sample.store [])).1)
    = tbl_places (pool_db (Sample.store [])) /\
  (forall t,
      t ∈ tbl_tags (pool_db (TagModel.bulkSave with_beer (Sample.store [])).1) ->
      Tag.value t ∈ TagInput.value <$> with_beer /\
      ((exists t0, t0 ∈ tbl_tags (pool_db (Sample.store [])) /\ kept_as t0 t) \/
       (exists e, e ∈ with_beer /\ inserted_for e t))).
Proof.
  destruct (bulkSave_keeps_ids_parents_and_flags
              with_beer (Sample.store [])
              (TagModel.bulkSave with_beer (Sample.store [])).1
              (returned [] (TagModel.bulkSave with_beer (Sample.store []))))
    as (_ & Hplaces & _ & Hrows).
  - vm_compute. reflexivity.
  - split; [exact Hplaces | exact Hrows].
Defined.

Lemma bulkSave_leaves_the_input_as_the_tag_set_witness :
  NoDup (Tag.value <$> tbl_tags (pool_db (TagModel.bulkSave food_and_pizza
                                                             (Sample.store [])).1)) /\
  (forall v,
      v ∈ Tag.value <$> tbl_tags (pool_db (TagModel.bulkSave food_and_pizza
                                                            (Sample.store [])).1) <->
      v ∈ TagInput.value <$> food_and_pizza).
Proof.
  destruct (bulkSave_leaves_the_input_as_the_tag_set
              food_and_pizza (Sample.store [])
              (TagModel.bulkSave food_and_pizza (Sample.store [])).1
              (returned [] (TagModel.bulkSave food_and_pizza (Sample.store []))))
    as (Hnd & Hvalues & _).
  - apply (bool_decide_unpack _). vm_compute. exact I.
  - exact food_and_pizza_no_cascade.
  - vm_compute. reflexivity.
  - split; [exact Hnd | exact Hvalues].
Defined.

Lemma writes_keep_the_constraints_witness :
  Sql.db_ok
    (pool_db (PlaceModel.delete "p1"
                (TagModel.create beer_input (Sample.store [])).1).1).
Proof.
  apply (writes_keep_the_constraints (Sample.store [])).
  - eapply rtc_l; [eapply tag_created; apply surjective_pairing|].
    eapply rtc_l; [eapply place_deleted; apply surjective_pairing|].
    apply rtc_refl.
  - apply (bool_decide_unpack _). vm_compute. exact I.
Defined.
